(** * Hexes: a shallow embedding of the hex-grid library and its properties

    The development follows the layout of the JavaScript sources:
    coordinate arithmetic ([coord.js]), the grid store ([grid.js]),
    spatial queries ([neighbors.js]), line drawing and the A* path finder.

    JavaScript numbers are modelled exactly: integer-valued numbers as [Z]
    and possibly fractional ones as [Q].  The arithmetic the library performs
    on grid coordinates stays within small integers and halves of integers,
    where IEEE doubles are exact.  Where the library computes with fractions
    (the samples of a line, the distance between fractional coordinates),
    every operation is followed by the rounding to the nearest double,
    [double]. *)

From Stdlib Require Import ZArith QArith Qround Qabs Qreduction Lqa Lia Ascii Sorted.
From stdpp Require Import base gmap list strings pretty.

Local Open Scope Z_scope.

(** ** Coordinates *)

(** A cube coordinate whose three components are integers.  The record does
    not carry the invariant [x + y + z = 0]; the library never checks it. *)
Record Coord : Type := mkCoord { x : Z; y : Z; z : Z }.

(** A coordinate with fractional components, as produced by [lerp]. *)
Record FCoord : Type := mkFCoord { fx : Q; fy : Q; fz : Q }.

(** An offset (column, row) coordinate. *)
Record OffsetCoord : Type := mkOffset { col : Z; row : Z }.

Inductive Layout : Type := pointy | flat.

#[global] Instance Coord_eq_dec : EqDecision Coord.
Proof. solve_decision. Defined.

#[global] Instance Layout_eq_dec : EqDecision Layout.
Proof. solve_decision. Defined.

(** The cube invariant of the data model. *)
Definition valid (c : Coord) : Prop := x c + y c + z c = 0.

(** Integer coordinates are in particular (fractional) coordinates. *)
Definition toF (c : Coord) : FCoord :=
  {| fx := inject_Z (x c); fy := inject_Z (y c); fz := inject_Z (z c) |}.

Definition DIRECTIONS : list Coord :=
  [ mkCoord 1 (-1) 0;
    mkCoord 1 0 (-1);
    mkCoord 0 1 (-1);
    mkCoord (-1) 1 0;
    mkCoord (-1) 0 1;
    mkCoord 0 (-1) 1 ].

Definition add (a b : Coord) : Coord :=
  {| x := x a + x b; y := y a + y b; z := z a + z b |}.

Definition subtract (a b : Coord) : Coord :=
  {| x := x a - x b; y := y a - y b; z := z a - z b |}.

Definition scale (coord : Coord) (factor : Z) : Coord :=
  {| x := x coord * factor; y := y coord * factor; z := z coord * factor |}.

Definition getDirections : list Coord := DIRECTIONS.

(** [DIRECTIONS[direction]] is [undefined] outside 0..5, and [add] then
    throws; the failure is [None]. *)
Definition neighbor (coord : Coord) (direction : nat) : option Coord :=
  add coord <$> DIRECTIONS !! direction.

Definition equals (a b : Coord) : bool :=
  (x a =? x b) && (y a =? y b) && (z a =? z b).

(** Numeric equality of fractional coordinates ([===] on each axis). *)
Definition equalsF (a b : FCoord) : Prop :=
  (fx a == fx b)%Q ∧ (fy a == fy b)%Q ∧ (fz a == fz b)%Q.

(** The template literal [`${x},${y},${z}`]: an integer prints in decimal,
    with a leading minus sign when negative. *)
Definition hash (coord : Coord) : string :=
  pretty (x coord) +:+ "," +:+ pretty (y coord) +:+ "," +:+ pretty (z coord).

(** The hex metric on fractional coordinates, in exact arithmetic.  It
    measures how far a fractional coordinate is from a cell; it is not what
    [distance] returns on fractional doubles, where every operation rounds
    (that is [distance_double] below). *)
Definition fdistance (a b : FCoord) : Q :=
  ((Qabs (fx a - fx b) + Qabs (fy a - fy b) + Qabs (fz a - fz b)) / 2)%Q.

(** [distance] on integer coordinates; the result is still a JavaScript
    number obtained by a division by two. *)
Definition distance (a b : Coord) : Q :=
  (inject_Z (Z.abs (x a - x b) + Z.abs (y a - y b) + Z.abs (z a - z b)) / 2)%Q.

(** [lerp] in exact arithmetic: what the code computes wherever no
    operation rounds, as at [t = 0] and [t = 1] between integer
    coordinates.  [lerp_double] below rounds as the code does. *)
Definition lerp (a b : Coord) (t : Q) : FCoord :=
  {| fx := (inject_Z (x a) + (inject_Z (x b) - inject_Z (x a)) * t)%Q;
     fy := (inject_Z (y a) + (inject_Z (y b) - inject_Z (y a)) * t)%Q;
     fz := (inject_Z (z a) + (inject_Z (z b) - inject_Z (z a)) * t)%Q |}.

(** [Math.round]: the nearest integer, halves going up. *)
Definition Math_round (q : Q) : Z := Qfloor (q + (1 # 2))%Q.

(** Strict comparison of two numbers, [a > b]. *)
Definition Qgtb (a b : Q) : bool := negb (Qle_bool a b).

Definition round (coord : FCoord) : Coord :=
  let rx := Math_round (fx coord) in
  let ry := Math_round (fy coord) in
  let rz := Math_round (fz coord) in
  let xDiff := Qabs (inject_Z rx - fx coord) in
  let yDiff := Qabs (inject_Z ry - fy coord) in
  let zDiff := Qabs (inject_Z rz - fz coord) in
  if Qgtb xDiff yDiff && Qgtb xDiff zDiff then
    {| x := - ry - rz; y := ry; z := rz |}
  else if Qgtb yDiff zDiff then
    {| x := rx; y := - rx - rz; z := rz |}
  else
    {| x := rx; y := ry; z := - rx - ry |}.

(** ** Doubles

    A finite double is a rational number [m * 2^e] with [|m| < 2^53] and
    [e >= -1074].  Every arithmetic operation of the code on doubles gives
    the exact result rounded to the nearest such number, ties going to the
    even mantissa.  Results beyond the largest double (about 1.8e308), which
    the code turns into [Infinity], are not represented. *)

(** [2^e] for any integer [e]. *)
Definition pow2 (e : Z) : Q :=
  if 0 <=? e then inject_Z (2 ^ e) else (/ inject_Z (2 ^ (- e)))%Q.

(** The binary exponent of [q <> 0]: the [k] with [2^k <= |q| < 2^(k+1)]. *)
Definition ilog2 (q : Q) : Z :=
  let k := Z.log2 (Z.abs (Qnum q)) - Z.log2 (Zpos (Qden q)) in
  if Qle_bool (pow2 k) (Qabs q) then k else k - 1.

(** The nearest integer, a tie going to the even one. *)
Definition round_half_even (q : Q) : Z :=
  let f := Qfloor q in
  match (q - inject_Z f ?= 1 # 2)%Q with
  | Lt => f
  | Gt => f + 1
  | Eq => if Z.even f then f else f + 1
  end.

(** The nearest double: 53 bits of mantissa, exponents from -1074. *)
Definition double (q : Q) : Q :=
  let q := Qred q in
  if Qeq_bool q 0 then 0%Q
  else
    let e := Z.max (ilog2 q - 52) (-1074) in
    (inject_Z (round_half_even (q * pow2 (- e))) * pow2 e)%Q.

(** [lerp] as the code evaluates it: [a.x + (b.x - a.x) * t] with a
    rounding after the subtraction, the product and the sum. *)
Definition lerp_double (a b : Coord) (t : Q) : FCoord :=
  {| fx := double (inject_Z (x a) + double (double (inject_Z (x b) - inject_Z (x a)) * t));
     fy := double (inject_Z (y a) + double (double (inject_Z (y b) - inject_Z (y a)) * t));
     fz := double (inject_Z (z a) + double (double (inject_Z (z b) - inject_Z (z a)) * t)) |}.


(** [n & 1] is [Z.land n 1]; [n - (n & 1)] is even, so the division by two
    that follows is exact and [Z.div] agrees with the numeric division. *)
Definition cubeToOffset (coord : Coord) (layout : Layout) : OffsetCoord :=
  match layout with
  | pointy =>
      {| col := x coord + (z coord - Z.land (z coord) 1) / 2;
         row := z coord |}
  | flat =>
      {| col := x coord;
         row := z coord + (x coord - Z.land (x coord) 1) / 2 |}
  end.

Definition offsetToCube (offset : OffsetCoord) (layout : Layout) : Coord :=
  match layout with
  | pointy =>
      let x' := col offset - (row offset - Z.land (row offset) 1) / 2 in
      let z' := row offset in
      {| x := x'; y := - x' - z'; z := z' |}
  | flat =>
      let x' := col offset in
      let z' := row offset - (col offset - Z.land (col offset) 1) / 2 in
      {| x := x'; y := - x' - z'; z := z' |}
  end.

(** ** JavaScript [Map] with string keys

    A [Map] iterates in insertion order, and the ring and range queries
    return cells in that order, so the map is an association list: [set]
    overwrites in place or appends, [delete] drops the entry.  A real [Map]
    never holds a key twice ([Map_wf]). *)

Abbreviation JSMap V := (list (string * V)) (only parsing).

Fixpoint Map_get {V} (m : JSMap V) (k : string) : option V :=
  match m with
  | [] => None
  | (k', v) :: m' => if decide (k' = k) then Some v else Map_get m' k
  end.

Definition Map_has {V} (m : JSMap V) (k : string) : bool :=
  match Map_get m k with Some _ => true | None => false end.

Fixpoint Map_set {V} (m : JSMap V) (k : string) (v : V) : JSMap V :=
  match m with
  | [] => [(k, v)]
  | (k', v') :: m' =>
      if decide (k' = k) then (k, v) :: m' else (k', v') :: Map_set m' k v
  end.

Definition Map_delete {V} (m : JSMap V) (k : string) : JSMap V :=
  filter (λ e, e.1 ≠ k) m.

Definition Map_keys {V} (m : JSMap V) : list string := m.*1.

Definition Map_wf {V} (m : JSMap V) : Prop := NoDup (Map_keys m).

(** ** Cells and grids *)

#[local] Set Warnings "-register-all".

(** The payload of a cell is an ordinary object whose values the core never
    inspects, apart from the [id] of an entity handed to [setCellData]. *)
Inductive Value : Type :=
  | VUndefined
  | VNull
  | VBool (b : bool)
  | VNum (n : Z)
  | VStr (s : string)
  | VObj (props : list (string * Value)).

Abbreviation Obj := (list (string * Value)) (only parsing).

Definition truthy (v : Value) : bool :=
  match v with
  | VUndefined | VNull => false
  | VBool b => b
  | VNum n => negb (n =? 0)
  | VStr s => negb (String.eqb s "")
  | VObj _ => true
  end.

(** Property read [v.k]. *)
Definition prop_get (v : Value) (k : string) : Value :=
  match v with
  | VObj props => default VUndefined (Map_get props k)
  | _ => VUndefined
  end.

(** The property key a value denotes in [o[v] = ...]. *)
Definition to_key (v : Value) : string :=
  match v with
  | VUndefined => "undefined"
  | VNull => "null"
  | VBool true => "true"
  | VBool false => "false"
  | VNum n => pretty n
  | VStr s => s
  | VObj _ => "[object Object]"
  end.

Fixpoint string_chars (i : nat) (s : string) : list (string * Value) :=
  match s with
  | EmptyString => []
  | String a s' => (pretty i, VStr (String a EmptyString)) :: string_chars (S i) s'
  end.

(** Own enumerable properties, as copied by [Object.assign] and spread. *)
Definition own_props (v : Value) : list (string * Value) :=
  match v with
  | VObj props => props
  | VStr s => string_chars 0 s
  | _ => []
  end.

Definition Object_assign (target : Obj) (source : Value) : Obj :=
  foldl (λ o e, Map_set o e.1 e.2) target (own_props source).

Record Cell : Type := mkCell { coord : Coord; passable : bool; data : Obj }.

Inductive Size : Type :=
  | HexSize (radius : Z)
  | RectangleSize (width height : Z)
  | CustomSize (minX maxX minY maxY : Z).

Record Grid : Type := mkGrid { cells : JSMap Cell; layout : Layout; size : Size }.

(** [for (v = lo; v <= hi; v++)] ranges over [upto lo hi]. *)
Definition upto (lo hi : Z) : list Z := seqZ lo (hi - lo + 1).

Definition createGrid (width height : Z) (layout : Layout) (defaultData : Obj) : Grid :=
  let cells :=
    foldl (λ cells row,
      foldl (λ cells col,
        let coord := offsetToCube {| col := col; row := row |} layout in
        Map_set cells (hash coord)
          {| coord := coord; passable := true; data := defaultData |})
        cells (upto 0 (width - 1)))
      [] (upto 0 (height - 1)) in
  {| cells := cells; layout := layout; size := RectangleSize width height |}.

Definition createHexGrid (radius : Z) (layout : Layout) (defaultData : Obj) : Grid :=
  let cells :=
    foldl (λ cells x,
      foldl (λ cells y,
        let coord := {| x := x; y := y; z := - x - y |} in
        Map_set cells (hash coord)
          {| coord := coord; passable := true; data := defaultData |})
        cells (upto (Z.max (- radius) (- x - radius)) (Z.min radius (- x + radius))))
      [] (upto (- radius) radius) in
  {| cells := cells; layout := layout; size := HexSize radius |}.

Definition createCustomGrid (predicate : Coord → bool) (minX maxX minY maxY : Z)
    (layout : Layout) (defaultData : Obj) : Grid :=
  let cells :=
    foldl (λ cells x,
      foldl (λ cells y,
        let coord := {| x := x; y := y; z := - x - y |} in
        if predicate coord then
          Map_set cells (hash coord)
            {| coord := coord; passable := true; data := defaultData |}
        else cells)
        cells (upto minY maxY))
      [] (upto minX maxX) in
  {| cells := cells; layout := layout; size := CustomSize minX maxX minY maxY |}.

(** [null] is [None]. *)
Definition getCell (grid : Grid) (coord : Coord) : option Cell :=
  Map_get (cells grid) (hash coord).

Definition hasCell (grid : Grid) (coord : Coord) : bool :=
  Map_has (cells grid) (hash coord).

(** [{ ...cell, coord }] *)
Definition with_coord (cell : Cell) (c : Coord) : Cell :=
  {| coord := c; passable := passable cell; data := data cell |}.

(** [{ ...cell, passable }] *)
Definition with_passable (cell : Cell) (p : bool) : Cell :=
  {| coord := coord cell; passable := p; data := data cell |}.

(** [{ ...cell, data: newData }] *)
Definition with_data (cell : Cell) (newData : Obj) : Cell :=
  {| coord := coord cell; passable := passable cell; data := newData |}.

(** [{ ...grid, cells: newCells }] *)
Definition with_cells (grid : Grid) (newCells : JSMap Cell) : Grid :=
  {| cells := newCells; layout := layout grid; size := size grid |}.

Definition setCell (grid : Grid) (coord : Coord) (cell : Cell) : Grid :=
  let newCells := cells grid in
  let key := hash coord in
  let newCells := Map_set newCells key (with_coord cell coord) in
  with_cells grid newCells.

Definition updateCell (grid : Grid) (coord : Coord) (updater : Cell → Cell) : Grid :=
  match getCell grid coord with
  | None => grid
  | Some cell => setCell grid coord (updater cell)
  end.

(** One round of the loop over the entities of [setCellData]. *)
Definition merge_entity (newData : Obj) (entity : Value) : Obj :=
  match entity with
  | VUndefined | VNull => newData
  | _ =>
      if truthy (prop_get entity "id")
      then Map_set newData (to_key (prop_get entity "id")) entity
      else Object_assign newData entity
  end.

(** The two [console.warn] diagnostics are not part of the result. *)
Definition setCellData (grid : Grid) (coord : Coord) (entities : list Value) : Grid :=
  match getCell grid coord with
  | None => grid
  | Some cell =>
      match entities with
      | [] => grid
      | _ =>
          let newData := foldl merge_entity (data cell) entities in
          setCell grid coord (with_data cell newData)
      end
  end.

Definition removeCell (grid : Grid) (coord : Coord) : Grid :=
  let newCells := cells grid in
  let key := hash coord in
  let newCells := Map_delete newCells key in
  with_cells grid newCells.

Definition setPassable (grid : Grid) (coord : Coord) (passable : bool) : Grid :=
  updateCell grid coord (λ cell, with_passable cell passable).

Definition isPassable (grid : Grid) (coord : Coord) : bool :=
  match getCell grid coord with
  | Some cell => passable cell
  | None => false
  end.

Definition getObstacles (grid : Grid) : list Coord :=
  foldl (λ obstacles e, if negb (passable e.2) then obstacles ++ [coord e.2] else obstacles)
    [] (cells grid).

Definition mapCells (grid : Grid) (fn : Cell → Cell) : Grid :=
  let newCells := foldl (λ newCells e, Map_set newCells e.1 (fn e.2)) [] (cells grid) in
  with_cells grid newCells.

Definition filterCells (grid : Grid) (predicate : Cell → bool) : list Coord :=
  foldl (λ coords e, if predicate e.2 then coords ++ [coord e.2] else coords)
    [] (cells grid).

(** Every cell is stored under the hash of its own coordinate, and no key
    occurs twice.  The constructors establish this and the single-cell
    mutators keep it. *)
Definition grid_wf (grid : Grid) : Prop :=
  Map_wf (cells grid) ∧ ∀ k cell, (k, cell) ∈ cells grid → hash (coord cell) = k.

(** ** The grid store with its [Map] objects on a heap

    The mutators above are written as functions on values.  The source builds
    each result by copying the grid's [Map] and updating the copy in place;
    to state that the original is left alone the same functions are given
    here over a heap of [Map] objects, where a grid holds a reference. *)

Module Store.

Abbreviation loc := nat (only parsing).

(** All [Map] objects allocated so far, indexed by their reference. *)
Abbreviation Heap := (list (list (string * Cell))) (only parsing).

Record GridObj : Type := mkGridObj { cellsRef : loc; layoutOf : Layout; sizeOf : Size }.

Definition M (A : Type) : Type := Heap → A * Heap.

Definition ret {A} (a : A) : M A := λ h, (a, h).

Definition bind {A B} (m : M A) (k : A → M B) : M B :=
  λ h, let '(a, h') := m h in k a h'.

Notation "x <- m ;; k" := (bind m (λ x, k))
  (at level 100, m at next level, right associativity).
Notation "m ;;; k" := (bind m (λ _, k))
  (at level 100, right associativity).

Definition contents (h : Heap) (l : loc) : JSMap Cell := default [] (h !! l).

(** [new Map()] *)
Definition Map_new : M loc := λ h, (length h, h ++ [[]]).

(** [new Map(src)] *)
Definition Map_copy (src : loc) : M loc := λ h, (length h, h ++ [contents h src]).

(** [m.get(k)] *)
Definition get (m : loc) (k : string) : M (option Cell) :=
  λ h, (Map_get (contents h m) k, h).

(** [m.set(k, v)] *)
Definition set (m : loc) (k : string) (v : Cell) : M unit :=
  λ h, (tt, alter (λ entries, Map_set entries k v) m h).

(** [m.delete(k)] *)
Definition delete (m : loc) (k : string) : M unit :=
  λ h, (tt, alter (λ entries, Map_delete entries k) m h).

(** The entries a [for ... of] loop over [m] goes through. *)
Definition entries (m : loc) : M (list (string * Cell)) :=
  λ h, (contents h m, h).

Fixpoint for_each {A} (l : list A) (body : A → M unit) : M unit :=
  match l with
  | [] => ret tt
  | a :: l' => body a ;;; for_each l' body
  end.

Definition with_cells (grid : GridObj) (newCells : loc) : GridObj :=
  {| cellsRef := newCells; layoutOf := layoutOf grid; sizeOf := sizeOf grid |}.

Definition getCell (grid : GridObj) (coord : Coord) : M (option Cell) :=
  let key := hash coord in
  get (cellsRef grid) key.

Definition setCell (grid : GridObj) (coord : Coord) (cell : Cell) : M GridObj :=
  newCells <- Map_copy (cellsRef grid) ;;
  let key := hash coord in
  set newCells key (with_coord cell coord) ;;;
  ret (with_cells grid newCells).

Definition updateCell (grid : GridObj) (coord : Coord) (updater : Cell → Cell) : M GridObj :=
  cell <- getCell grid coord ;;
  match cell with
  | None => ret grid
  | Some cell =>
      let newCell := updater cell in
      setCell grid coord newCell
  end.

Definition setCellData (grid : GridObj) (coord : Coord) (entities : list Value) : M GridObj :=
  cell <- getCell grid coord ;;
  match cell with
  | None => ret grid
  | Some cell =>
      match entities with
      | [] => ret grid
      | _ =>
          let newData := foldl merge_entity (data cell) entities in
          setCell grid coord (with_data cell newData)
      end
  end.

Definition removeCell (grid : GridObj) (coord : Coord) : M GridObj :=
  newCells <- Map_copy (cellsRef grid) ;;
  let key := hash coord in
  delete newCells key ;;;
  ret (with_cells grid newCells).

Definition setPassable (grid : GridObj) (coord : Coord) (passable : bool) : M GridObj :=
  updateCell grid coord (λ cell, with_passable cell passable).

Definition mapCells (grid : GridObj) (fn : Cell → Cell) : M GridObj :=
  newCells <- Map_new ;;
  es <- entries (cellsRef grid) ;;
  for_each es (λ e, set newCells e.1 (fn e.2)) ;;;
  ret (with_cells grid newCells).

(** The grid value a grid object denotes in a heap. *)
Definition view (h : Heap) (grid : GridObj) : Grid :=
  {| cells := contents h (cellsRef grid); layout := layoutOf grid; size := sizeOf grid |}.

(** Every [Map] of the heap [h] has the same entries in [h']. *)
Definition preserved (h h' : Heap) : Prop :=
  ∀ l, (l < length h)%nat → h' !! l = h !! l.

(** The grid object lives in the heap. *)
Definition allocated (h : Heap) (grid : GridObj) : Prop :=
  (cellsRef grid < length h)%nat.

(** The object was created after the heap [h] was taken. *)
Definition fresh (h : Heap) (grid : GridObj) : Prop :=
  (length h ≤ cellsRef grid)%nat.

End Store.

(** A call of one of the six mutators, with its arguments. *)
Inductive Mutation : Type :=
  | CallSetCell (coord : Coord) (cell : Cell)
  | CallUpdateCell (coord : Coord) (updater : Cell → Cell)
  | CallRemoveCell (coord : Coord)
  | CallSetPassable (coord : Coord) (passable : bool)
  | CallSetCellData (coord : Coord) (entities : list Value)
  | CallMapCells (fn : Cell → Cell).

Definition call (m : Mutation) (grid : Grid) : Grid :=
  match m with
  | CallSetCell c cell => setCell grid c cell
  | CallUpdateCell c updater => updateCell grid c updater
  | CallRemoveCell c => removeCell grid c
  | CallSetPassable c p => setPassable grid c p
  | CallSetCellData c entities => setCellData grid c entities
  | CallMapCells fn => mapCells grid fn
  end.

Definition run (m : Mutation) (grid : Store.GridObj) : Store.M Store.GridObj :=
  match m with
  | CallSetCell c cell => Store.setCell grid c cell
  | CallUpdateCell c updater => Store.updateCell grid c updater
  | CallRemoveCell c => Store.removeCell grid c
  | CallSetPassable c p => Store.setPassable grid c p
  | CallSetCellData c entities => Store.setCellData grid c entities
  | CallMapCells fn => Store.mapCells grid fn
  end.

(** The coordinate a call is aimed at; the bulk map has none, it goes
    through every cell. *)
Definition target (m : Mutation) : option Coord :=
  match m with
  | CallSetCell c _ | CallUpdateCell c _ | CallRemoveCell c
  | CallSetPassable c _ | CallSetCellData c _ => Some c
  | CallMapCells _ => None
  end.

(** ** Spatial queries *)

Definition getNeighbors (grid : Grid) (coord : Coord) (passableOnly : bool) : list Coord :=
  foldl (λ neighbors direction,
    let neighbor := add coord direction in
    if negb (hasCell grid neighbor) then neighbors
    else if passableOnly && negb (isPassable grid neighbor) then neighbors
    else neighbors ++ [neighbor])
    [] getDirections.

Definition getRange (grid : Grid) (c : Coord) (range : Q) : list Coord :=
  foldl (λ results e,
    let dist := distance c (coord e.2) in
    if Qle_bool dist range then results ++ [coord e.2] else results)
    [] (cells grid).

Definition getRing (grid : Grid) (c : Coord) (radius : Q) : list Coord :=
  foldl (λ results e,
    let dist := distance c (coord e.2) in
    if Qeq_bool dist radius then results ++ [coord e.2] else results)
    [] (cells grid).

(** [maxRadius] is any number: the loop variable takes the integer values
    from 1 up to it. *)
Definition getSpiral (grid : Grid) (center : Coord) (maxRadius : Q) : list Coord :=
  foldl (λ results radius,
    let ring := getRing grid center (inject_Z radius) in
    results ++ ring)
    [center] (upto 1 (Qfloor maxRadius)).

(** The state of the flood fill: the visited keys and the layers so far. *)
Record Flood : Type := mkFlood { visited : gset string; fringes : list (list Coord) }.

(** The body of the innermost loop of [getReachable], for layer [k]. *)
Definition flood_neighbor (k : nat) (st : Flood) (neighbor : Coord) : Flood :=
  let key := hash neighbor in
  if decide (key ∈ visited st) then st
  else {| visited := {[key]} ∪ visited st;
          fringes := alter (λ fringe, fringe ++ [neighbor]) k (fringes st) |}.

Definition flood_coord (grid : Grid) (k : nat) (st : Flood) (coord : Coord) : Flood :=
  let neighbors := getNeighbors grid coord true in
  foldl (flood_neighbor k) st neighbors.

Definition flood_layer (grid : Grid) (st : Flood) (k : Z) : Flood :=
  let st := {| visited := visited st; fringes := fringes st ++ [[]] |} in
  foldl (flood_coord grid (Z.to_nat k)) st
    (default [] (fringes st !! Z.to_nat (k - 1))).

Definition getReachable (grid : Grid) (start : Coord) (maxDistance : Q) : list Coord :=
  let st := {| visited := {[hash start]}; fringes := [[start]] |} in
  let st := foldl (flood_layer grid) st (upto 1 (Qfloor maxDistance)) in
  concat (fringes st).

(** ** Lines *)

(** The distance between integer coordinates is exact; the parameter
    [i / dist] and the interpolation are computed in doubles. *)
Definition getLine (coordA coordB : Coord) : list Coord :=
  let dist := distance coordA coordB in
  foldl (λ results i,
    let t := if Qeq_bool dist 0 then 0%Q else double (inject_Z i / dist) in
    let interpolated := lerp_double coordA coordB t in
    results ++ [round interpolated])
    [] (upto 0 (Qfloor dist)).

(** ** The path finder *)

Record QueueItem : Type := mkItem { item : Coord; priority : Q }.

(** [Array.prototype.sort] with the comparator [a.priority - b.priority]:
    a stable sort by ascending priority. *)
Fixpoint insert_sorted (e : QueueItem) (items : list QueueItem) : list QueueItem :=
  match items with
  | [] => [e]
  | e' :: items' =>
      if Qle_bool (priority e) (priority e') then e :: e' :: items'
      else e' :: insert_sorted e items'
  end.

Definition sort_items (items : list QueueItem) : list QueueItem :=
  foldr insert_sorted [] items.

Abbreviation PriorityQueue := (list QueueItem) (only parsing).

Definition enqueue (items : PriorityQueue) (it : Coord) (p : Q) : PriorityQueue :=
  sort_items (items ++ [{| item := it; priority := p |}]).

(** [shift()]: the removed head, if any, and the rest. *)
Definition dequeue (items : PriorityQueue) : option Coord * PriorityQueue :=
  match items with
  | [] => (None, [])
  | e :: items' => (Some (item e), items')
  end.

Definition isEmpty (items : PriorityQueue) : bool :=
  match items with [] => true | _ => false end.

Definition defaultHeuristic (a b : Coord) : Q := distance a b.

Definition defaultCostFn (from to : Coord) : Q := 1%Q.

(** The [options] argument; an absent field is [None]. *)
Record Options : Type := mkOptions {
  heuristic : option (Coord → Coord → Q);
  costFn : option (Coord → Coord → Q) }.

Definition noOptions : Options := {| heuristic := None; costFn := None |}.

(** The three mutable objects of a search.  In [cameFrom] the value [null]
    recorded for the start is [None]. *)
Record Search : Type := mkSearch {
  frontier : PriorityQueue;
  cameFrom : gmap string (option Coord);
  costSoFar : gmap string Q }.

(** [costSoFar.get(key)]; a key is only ever read after it was set. *)
Definition cost_of (costSoFar : gmap string Q) (key : string) : Q :=
  default 0%Q (costSoFar !! key).

(** [a < b] on numbers. *)
Definition Qltb (a b : Q) : bool := negb (Qle_bool b a).

(** The body of the loop over the neighbours of [current]. *)
Definition relax (heuristic costFn : Coord → Coord → Q) (goal current : Coord)
    (st : Search) (next : Coord) : Search :=
  let currentKey := hash current in
  let nextKey := hash next in
  let newCost := (cost_of (costSoFar st) currentKey + costFn current next)%Q in
  if negb (bool_decide (is_Some (costSoFar st !! nextKey)))
     || Qltb newCost (cost_of (costSoFar st) nextKey)
  then
    let costSoFar' := <[nextKey := newCost]> (costSoFar st) in
    let priority := (newCost + heuristic next goal)%Q in
    {| frontier := enqueue (frontier st) next priority;
       cameFrom := <[nextKey := Some current]> (cameFrom st);
       costSoFar := costSoFar' |}
  else st.

(** [reconstructPath]: the loop runs while [current] is an object; each
    round consumes one unit of fuel, and [None] means the fuel ran out. *)
Fixpoint reconstruct_loop (fuel : nat) (cameFrom : gmap string (option Coord))
    (startKey : string) (current : option Coord) (path : list Coord)
    : option (list Coord) :=
  match current with
  | None => Some path
  | Some c =>
      match fuel with
      | O => None
      | S fuel' =>
          let path := c :: path in
          let currentKey := hash c in
          if decide (currentKey = startKey) then Some path
          else reconstruct_loop fuel' cameFrom startKey
                 (mjoin (cameFrom !! currentKey)) path
      end
  end.

Definition reconstructPath (fuel : nat) (cameFrom : gmap string (option Coord))
    (start goal : Coord) : option (list Coord) :=
  reconstruct_loop fuel cameFrom (hash start) (Some goal) [].

(** The main loop of [findPath], one unit of fuel per round.  The loop ends
    when the queue [isEmpty], which is when [dequeue] has no item to give.
    The outer [option] is [None] when the fuel ran out; the inner one is the
    returned value, [None] for [null]. *)
Fixpoint search_loop (fuel : nat) (grid : Grid) (heuristic costFn : Coord → Coord → Q)
    (start goal : Coord) (st : Search) : option (option (list Coord)) :=
  match fuel with
  | O => None
  | S fuel' =>
      match dequeue (frontier st) with
      | (None, _) => Some None
      | (Some current, rest) =>
          let currentKey := hash current in
          if decide (currentKey = hash goal) then
            Some <$> reconstructPath (S fuel') (cameFrom st) start goal
          else
            let neighbors := getNeighbors grid current true in
            let st := {| frontier := rest; cameFrom := cameFrom st;
                         costSoFar := costSoFar st |} in
            search_loop fuel' grid heuristic costFn start goal
              (foldl (relax heuristic costFn goal current) st neighbors)
      end
  end.

Definition findPath (fuel : nat) (grid : Grid) (start goal : Coord) (options : Options)
    : option (option (list Coord)) :=
  let heuristic := default defaultHeuristic (heuristic options) in
  let costFn := default defaultCostFn (costFn options) in
  if equals start goal then Some (Some [start])
  else
    let frontier := enqueue [] start 0 in
    let startKey := hash start in
    let cameFrom := <[startKey := None]> (∅ : gmap string (option Coord)) in
    let costSoFar := <[startKey := 0%Q]> (∅ : gmap string Q) in
    search_loop fuel grid heuristic costFn start goal
      {| frontier := frontier; cameFrom := cameFrom; costSoFar := costSoFar |}.

Fixpoint getPathCost (path : list Coord) (costFn : Coord → Coord → Q) : Q :=
  match path with
  | a :: (b :: _) as rest => (costFn a b + getPathCost rest costFn)%Q
  | _ => 0%Q
  end.

Definition getPathLength (path : option (list Coord)) : nat :=
  match path with
  | Some p => length p
  | None => 0%nat
  end.

(** ** Passable hops

    One move of the path finder and of the flood fill: a step to a neighbour
    that is in the grid and passable. *)

Definition hop (grid : Grid) (a b : Coord) : Prop := b ∈ getNeighbors grid a true.

(** [hops grid n a b]: [b] is reached from [a] by [n] passable hops. *)
Inductive hops (grid : Grid) : nat → Coord → Coord → Prop :=
  | hops_O a : hops grid 0 a a
  | hops_S n a b c : hops grid n a b → hop grid b c → hops grid (S n) a c.

(** [n] is the shortest passable-hop count from [a] to [b]. *)
Definition hop_distance (grid : Grid) (a b : Coord) (n : nat) : Prop :=
  hops grid n a b ∧ ∀ m, hops grid m a b → (n ≤ m)%nat.

(** A path as the finder returns it: the cells from [a] to [b], each one a
    passable hop from the one before. *)
Fixpoint is_path (grid : Grid) (a b : Coord) (path : list Coord) : Prop :=
  match path with
  | [] => False
  | [c] => c = a ∧ c = b
  | c :: ((c' :: _) as rest) => c = a ∧ hop grid c c' ∧ is_path grid c' b rest
  end.

(** ** Auxiliary notions used in the statements and proofs *)

(** A string without a comma: what the decimal printer produces. *)
Fixpoint comma_free (s : string) : Prop :=
  match s with
  | EmptyString => True
  | String a s' => a ≠ ","%char ∧ comma_free s'
  end.

(** Twice the distance, as an integer. *)
Definition span (a b : Coord) : Z :=
  Z.abs (x a - x b) + Z.abs (y a - y b) + Z.abs (z a - z b).

(** Linear arithmetic over [Q] that sees through a division by two. *)
Ltac lra2 := unfold Qdiv in *; change (/ 2)%Q with (1 # 2)%Q in *; lra.

(** The rounding error of one axis. *)
Definition round_error (q : Q) : Q := Qabs (inject_Z (Math_round q) - q).

(** The three possible results of [round]: one axis recomputed from the
    other two, which keep their rounded values. *)
Definition recompute_x (c : FCoord) : Coord :=
  {| x := - Math_round (fy c) - Math_round (fz c);
     y := Math_round (fy c); z := Math_round (fz c) |}.

Definition recompute_y (c : FCoord) : Coord :=
  {| x := Math_round (fx c);
     y := - Math_round (fx c) - Math_round (fz c); z := Math_round (fz c) |}.

Definition recompute_z (c : FCoord) : Coord :=
  {| x := Math_round (fx c); y := Math_round (fy c);
     z := - Math_round (fx c) - Math_round (fy c) |}.

(** [e] is strictly greater than both other errors. *)
Definition strictly_greatest (e e1 e2 : Q) : Prop := (e1 < e)%Q ∧ (e2 < e)%Q.

(** The precedence of [round] in the words of the specification: recompute
    x if its error is strictly greatest, else y if its error is strictly
    greatest, else z. *)
Definition precedence_as_specified (c : FCoord) : Prop :=
  let ex := round_error (fx c) in
  let ey := round_error (fy c) in
  let ez := round_error (fz c) in
  (strictly_greatest ex ey ez → round c = recompute_x c) ∧
  (¬ strictly_greatest ex ey ez → strictly_greatest ey ex ez →
     round c = recompute_y c) ∧
  (¬ strictly_greatest ex ey ez → ¬ strictly_greatest ey ex ez →
     round c = recompute_z c).

(** The calls that hand back the grid they were given: the guarded mutators
    on a coordinate that is absent, and [setCellData] without entities. *)
Definition is_noop (m : Mutation) (grid : Grid) : bool :=
  match m with
  | CallUpdateCell c _ | CallSetPassable c _ => negb (hasCell grid c)
  | CallSetCellData c entities =>
      negb (hasCell grid c) || match entities with [] => true | _ => false end
  | CallSetCell _ _ | CallRemoveCell _ | CallMapCells _ => false
  end.

(** The mutators that store their result through [setCell]. *)
Definition writes_through_setCell (m : Mutation) : bool :=
  match m with
  | CallSetCell _ _ | CallUpdateCell _ _ | CallSetPassable _ _
  | CallSetCellData _ _ => true
  | CallRemoveCell _ | CallMapCells _ => false
  end.

(** "The call returns a new Grid": the grid handed back was created by the
    call. *)
Definition returns_new_grid (m : Mutation) (h : Store.Heap) (g : Store.GridObj) : Prop :=
  Store.fresh h (run m g h).1.

(** A grid of two adjacent cells, and the object that denotes it in the
    heap [[sample_map]]; they serve as concrete instances of the theorems. *)
Definition sample_map : JSMap Cell :=
  [ (hash (mkCoord 0 0 0), mkCell (mkCoord 0 0 0) true []);
    (hash (mkCoord 1 (-1) 0), mkCell (mkCoord 1 (-1) 0) true []) ].

Definition sample_grid : Grid := mkGrid sample_map pointy (HexSize 1).

Definition sample_obj : Store.GridObj := Store.mkGridObj 0 pointy (HexSize 1).

(** A decision procedure for [hops]: try every neighbour. *)
Fixpoint hopsb (grid : Grid) (n : nat) (a b : Coord) : bool :=
  match n with
  | O => bool_decide (a = b)
  | S n' => existsb (λ a', hopsb grid n' a' b) (getNeighbors grid a true)
  end.

(** The state of the flood fill after [n] layers: layer [i] holds exactly
    the coordinates at [i] shortest hops from the start, and the visited keys
    are those of the layers. *)
Definition flood_inv (grid : Grid) (start : Coord) (n : nat) (st : Flood) : Prop :=
  length (fringes st) = S n ∧
  fringes st !! 0%nat = Some [start] ∧
  (∀ i layer, fringes st !! i = Some layer →
     ∀ c, c ∈ layer ↔ hop_distance grid start c i) ∧
  (∀ key, key ∈ visited st ↔
     ∃ c i, (i ≤ n)%nat ∧ hop_distance grid start c i ∧ key = hash c).

(** ** The invariant of the search *)

(** Ascending priorities, as [sort] leaves them. *)
Definition sorted_items (items : PriorityQueue) : Prop :=
  StronglySorted (λ a b, (priority a <= priority b)%Q) items.

(** The cost recorded for [v] is the integer [n]. *)
Definition gcost (costSoFar : gmap string Q) (v : Coord) (n : nat) : Prop :=
  ∃ q, costSoFar !! hash v = Some q ∧ (q == inject_Z (Z.of_nat n))%Q.

(** The keys a search can ever record: the start and the cells of the grid. *)
Definition search_keys (grid : Grid) (start : Coord) : list string :=
  remove_dups (hash start :: Map_keys (cells grid)).

(** What the key [k] still contributes to the length of the search. *)
Definition potential (bound : nat) (costSoFar : gmap string Q) (k : string) : nat :=
  match costSoFar !! k with
  | None => bound
  | Some q => Z.to_nat (Qfloor q)
  end.

(** A bound on the number of rounds the main loop still makes. *)
Definition rounds_left (grid : Grid) (start : Coord) (st : Search) : nat :=
  let keys := search_keys grid start in
  (length (frontier st) +
   sum_list (potential (S (length keys)) (costSoFar st) <$> keys))%nat.

(** The state of a search with the default cost and heuristic, while the
    neighbours in [done] of the cell [current] have been looked at.  Between
    two rounds of the main loop there is no such cell ([current = None]). *)
Record search_inv (grid : Grid) (start goal : Coord)
    (current : option Coord) (done : list Coord) (st : Search) : Prop := {
  inv_distinct : start ≠ goal;
  inv_start : costSoFar st !! hash start = Some 0%Q;
  (* every recorded cost is the length of a walk from the start *)
  inv_walk : ∀ k q, costSoFar st !! k = Some q →
    ∃ v n, k = hash v ∧ (q == inject_Z (Z.of_nat n))%Q ∧ hops grid n start v;
  (* the predecessor links lead one hop back to a cell of lesser cost *)
  inv_cameFrom : ∀ v n, v ≠ start → gcost (costSoFar st) v n →
    ∃ u m, cameFrom st !! hash v = Some (Some u) ∧ hop grid u v ∧
           gcost (costSoFar st) u m ∧ (m + 1 ≤ n)%nat;
  (* queued cells have a cost; the goal is queued at no less than its cost *)
  inv_queued : ∀ e, e ∈ frontier st →
    ∃ n, gcost (costSoFar st) (item e) n ∧
         (item e = goal → (inject_Z (Z.of_nat n) <= priority e)%Q);
  inv_sorted : sorted_items (frontier st);
  (* a cell whose cost is its true distance is queued at no more than that
     distance plus the heuristic, or its neighbours are within one step *)
  inv_open : ∀ v n, gcost (costSoFar st) v n → hop_distance grid start v n →
    (∃ e, e ∈ frontier st ∧ item e = v ∧
          (priority e <= inject_Z (Z.of_nat n) + distance v goal)%Q) ∨
    (∀ w, hop grid v w → (current = Some v → w ∈ done) →
          ∃ m, gcost (costSoFar st) w m ∧ (m ≤ n + 1)%nat);
  (* a goal that has a cost is still queued *)
  inv_goal : ∀ n, gcost (costSoFar st) goal n → ∃ e, e ∈ frontier st ∧ item e = goal;
  inv_current : ∀ c, current = Some c → ∃ n, gcost (costSoFar st) c n;
  inv_keys : ∀ k, is_Some (costSoFar st !! k) → k ∈ search_keys grid start;
  inv_bound : ∀ v n, gcost (costSoFar st) v n → (n + 1 ≤ base.size (costSoFar st))%nat
}.

(** What [findPath] may return: a shortest path, or null when there is no
    path at all. *)
Definition shortest_or_none (grid : Grid) (start goal : Coord)
    (result : option (list Coord)) : Prop :=
  match result with
  | Some path =>
      is_path grid start goal path ∧
      hop_distance grid start goal (length path - 1)
  | None => ∀ n, ¬ hops grid n start goal
  end.

(** "A path whose length equals the shortest passable-hop count", with the
    length of a path as [getPathLength] gives it. *)
Definition length_is_hop_count (grid : Grid) (start goal : Coord) : Prop :=
  ∀ fuel path, findPath fuel grid start goal noOptions = Some (Some path) →
    hop_distance grid start goal (getPathLength (Some path)).

(** Coordinates whose components, and the differences of whose components,
    are integers that doubles hold exactly. *)
Definition in_range (c : Coord) : Prop :=
  Z.abs (x c) < 2 ^ 52 ∧ Z.abs (y c) < 2 ^ 52 ∧ Z.abs (z c) < 2 ^ 52.

(** ** Passable hops, in the words of the specification

    A passable hop enters a neighbouring cell that is in the grid and
    passable.  Two coordinates are neighbours when their difference sums to
    zero and is two in absolute values, which leaves the six unit
    directions. *)
Definition adjacent (a b : Coord) : Prop :=
  (x b - x a) + (y b - y a) + (z b - z a) = 0 ∧
  Z.abs (x b - x a) + Z.abs (y b - y a) + Z.abs (z b - z a) = 2.

Definition passable_cell (grid : Grid) (c : Coord) : Prop :=
  ∃ cell, Map_get (cells grid) (hash c) = Some cell ∧ passable cell = true.

Definition passable_hop (grid : Grid) (a b : Coord) : Prop :=
  adjacent a b ∧ passable_cell grid b.

(** ** Further functions of the library *)

(** [key.split(",")] *)
Fixpoint split_commas (s : string) : list string :=
  match s with
  | EmptyString => [EmptyString]
  | String a s' =>
      if decide (a = ","%char) then EmptyString :: split_commas s'
      else match split_commas s' with
           | [] => [String a EmptyString]
           | w :: ws => String a w :: ws
           end
  end.

Definition digit_value (a : ascii) : option N :=
  (if decide (a = "0"%char) then Some 0
   else if decide (a = "1"%char) then Some 1
   else if decide (a = "2"%char) then Some 2
   else if decide (a = "3"%char) then Some 3
   else if decide (a = "4"%char) then Some 4
   else if decide (a = "5"%char) then Some 5
   else if decide (a = "6"%char) then Some 6
   else if decide (a = "7"%char) then Some 7
   else if decide (a = "8"%char) then Some 8
   else if decide (a = "9"%char) then Some 9
   else None)%N.

Fixpoint digits_value (acc : N) (s : string) : option N :=
  match s with
  | EmptyString => Some acc
  | String a s' =>
      match digit_value a with
      | Some d => digits_value (10 * acc + d) s'
      | None => None
      end
  end.

(** [Number(s)] on a string that is empty or a decimal integer numeral with
    an optional sign.  On any other string the conversion gives NaN or a
    number written in another way (a fraction, an exponent, a radix prefix,
    surrounding blanks); these are not represented and yield [None]. *)
Definition Number (s : string) : option Z :=
  match s with
  | EmptyString => Some 0
  | String a s' =>
      if decide (a = "-"%char) then
        match s' with
        | EmptyString => None
        | _ => (λ n, - Z.of_N n) <$> digits_value 0 s'
        end
      else if decide (a = "+"%char) then
        match s' with
        | EmptyString => None
        | _ => Z.of_N <$> digits_value 0 s'
        end
      else Z.of_N <$> digits_value 0 s
  end.

(** [unhash]: the first three comma-separated parts of the key as numbers.
    A missing part is [undefined], which is [None] as well. *)
Definition unhash (key : string) : option Coord :=
  match Number <$> split_commas key with
  | Some x :: Some y :: Some z :: _ => Some {| x := x; y := y; z := z |}
  | _ => None
  end.

(** The loop of [hasLineOfSight] over the sampled coordinates. *)
Fixpoint clear_line (grid : Grid) (line : list Coord) : bool :=
  match line with
  | [] => true
  | coord :: rest =>
      if negb (hasCell grid coord) then false
      else if negb (isPassable grid coord) then false
      else clear_line grid rest
  end.

Definition hasLineOfSight (grid : Grid) (coordA coordB : Coord) : bool :=
  let line := getLine coordA coordB in
  clear_line grid line.

(** [maxRange] defaults to [Infinity], which is [None]. *)
Definition getVisibleCells (grid : Grid) (origin : Coord) (maxRange : option Q)
    : list Coord :=
  foldl (λ visible e,
    let dist := distance origin (coord e.2) in
    if match maxRange with Some r => Qgtb dist r | None => false end then visible
    else if hasLineOfSight grid origin (coord e.2) then visible ++ [coord e.2]
    else visible)
    [] (cells grid).

(** [createEntity(components)], with the counter [nextId] passed along:
    the new entity and the counter after the call.  An absent argument is
    [VUndefined], which spreads to nothing, like the default [{}]. *)
Definition createEntity (components : Value) (nextId : nat) : Obj * nat :=
  let id := "entity-" +:+ pretty nextId in
  (Object_assign [("id", VStr id)] components, S nextId).

Definition resetIds (nextId : nat) : nat := 0%nat.

(** ** Invariants of the search for arbitrary options *)

(** [c] waits in the queue. *)
Definition queued (st : Search) (c : Coord) : Prop := c ∈ item <$> frontier st.

(** Every parent recorded in [cameFrom] is one passable hop before its
    child and has an entry of its own; so has every queued coordinate; the
    entry [null] is that of the start. *)
Definition parents_ok (grid : Grid) (start : Coord) (st : Search) : Prop :=
  (∀ k p, cameFrom st !! k = Some (Some p) →
     ∃ c, k = hash c ∧ hop grid p c ∧ is_Some (cameFrom st !! hash p)) ∧
  (∀ c, queued st c → is_Some (cameFrom st !! hash c)) ∧
  (∀ k, cameFrom st !! k = Some None → k = hash start).

(** Every coordinate that has a cost either waits in the queue or has had
    all its passable neighbours costed; the goal, once costed, waits in the
    queue. *)
Definition closed_or_queued (grid : Grid) (start goal : Coord) (st : Search) : Prop :=
  is_Some (costSoFar st !! hash start) ∧
  (∀ c, is_Some (costSoFar st !! hash c) →
     queued st c ∨ ∀ b, hop grid c b → is_Some (costSoFar st !! hash b)) ∧
  (is_Some (costSoFar st !! hash goal) → queued st goal).

(** What [findPath] may return under any options: a path of passable hops
    from the start to the goal, or null when there is none. *)
Definition path_or_none (grid : Grid) (start goal : Coord)
    (result : option (list Coord)) : Prop :=
  match result with
  | Some path => is_path grid start goal path
  | None => ∀ n, ¬ hops grid n start goal
  end.

(** The recorded costs of a search with the default cost function, under
    any heuristic: whole numbers that decrease along the recorded parents
    and stay below the number of recorded keys. *)
Definition cost_inv (grid : Grid) (start : Coord) (st : Search) : Prop :=
  costSoFar st !! hash start = Some 0%Q ∧
  (∀ k q, costSoFar st !! k = Some q →
     ∃ v n, k = hash v ∧ (q == inject_Z (Z.of_nat n))%Q) ∧
  (∀ v n, v ≠ start → gcost (costSoFar st) v n →
     ∃ u m, cameFrom st !! hash v = Some (Some u) ∧
            gcost (costSoFar st) u m ∧ (m + 1 ≤ n)%nat) ∧
  (∀ e, e ∈ frontier st → ∃ n, gcost (costSoFar st) (item e) n) ∧
  (∀ k, is_Some (costSoFar st !! k) → k ∈ search_keys grid start) ∧
  (∀ v n, gcost (costSoFar st) v n → (n + 1 ≤ base.size (costSoFar st))%nat).

(** * Properties of the coordinate arithmetic *)

(** ** The hash is injective *)

Lemma pretty_N_char_not_comma n : pretty_N_char n ≠ ","%char.
Proof. unfold pretty_N_char. repeat case_match; discriminate. Qed.

Lemma pretty_N_go_comma_free n s : comma_free s → comma_free (pretty_N_go n s).
Proof.
  revert s. induction (N.lt_wf_0 n) as [n _ IH]. intros s Hs.
  destruct (decide (n = 0%N)) as [->|Hn].
  - by rewrite pretty_N_go_0.
  - rewrite pretty_N_go_step by lia. apply IH.
    + apply N.div_lt; lia.
    + split; [apply pretty_N_char_not_comma | done].
Qed.

Lemma pretty_N_comma_free (n : N) : comma_free (pretty n).
Proof.
  unfold pretty, pretty_N. case_decide; [by cbn|].
  by apply pretty_N_go_comma_free.
Qed.

Lemma pretty_Z_comma_free (n : Z) : comma_free (pretty n).
Proof.
  destruct n as [|p|p]; unfold pretty, pretty_Z.
  - by cbn.
  - apply pretty_N_comma_free.
  - split; [discriminate | apply pretty_N_comma_free].
Qed.

Lemma comma_split s1 s2 r1 r2 :
  comma_free s1 → comma_free s2 →
  s1 +:+ String ","%char r1 = s2 +:+ String ","%char r2 → s1 = s2 ∧ r1 = r2.
Proof.
  revert s2. induction s1 as [|a s1 IH]; intros [|b s2] H1 H2 Heq; cbn in *.
  - by injection Heq.
  - injection Heq as Hb _. destruct H2 as [H2 _]. by subst.
  - injection Heq as Ha _. destruct H1 as [H1 _]. by subst.
  - injection Heq as -> Heq. destruct H1, H2.
    destruct (IH s2) as [-> ->]; auto.
Qed.

Lemma hash_inj a b : hash a = hash b → a = b.
Proof.
  destruct a as [ax ay az], b as [bx b_y bz]. unfold hash; cbn [x y z].
  intros H.
  apply comma_split in H as [Hx H]; try apply pretty_Z_comma_free.
  apply comma_split in H as [Hy Hz]; try apply pretty_Z_comma_free.
  apply (inj pretty) in Hx, Hy, Hz. by subst.
Qed.

Lemma hash_eq_iff a b : hash a = hash b ↔ a = b.
Proof. split; [apply hash_inj | by intros ->]. Qed.

Lemma equals_spec a b : equals a b = true ↔ a = b.
Proof.
  destruct a, b. unfold equals; cbn.
  rewrite !andb_true_iff, !Z.eqb_eq. split; [intros [[-> ->] ->]; done | by intros [= -> -> ->]].
Qed.

Lemma equals_refl a : equals a a = true.
Proof. by apply equals_spec. Qed.

(** ** Distance *)

Lemma inject_Z_abs_sub n m :
  (inject_Z (Z.abs (n - m)) == Qabs (inject_Z n - inject_Z m))%Q.
Proof.
  assert (inject_Z n - inject_Z m == inject_Z (n - m))%Q as ->.
  { unfold Z.sub. rewrite inject_Z_plus, inject_Z_opp. reflexivity. }
  unfold inject_Z. apply Zabs_Qabs.
Qed.

Lemma distance_fdistance a b : (distance a b == fdistance (toF a) (toF b))%Q.
Proof.
  unfold distance, fdistance, toF; cbn [fx fy fz].
  rewrite !inject_Z_plus, !inject_Z_abs_sub. reflexivity.
Qed.


Lemma Qabs_zero q : (Qabs q == 0)%Q ↔ (q == 0)%Q.
Proof.
  split.
  - apply Qabs_case; intros; lra.
  - intros ->. reflexivity.
Qed.

Lemma fdistance_zero a b : (fdistance a b == 0)%Q ↔ equalsF a b.
Proof.
  unfold fdistance, equalsF.
  pose proof (Qabs_nonneg (fx a - fx b)).
  pose proof (Qabs_nonneg (fy a - fy b)).
  pose proof (Qabs_nonneg (fz a - fz b)).
  split.
  - intros H2.
    assert (Qabs (fx a - fx b) == 0)%Q as Hx by lra2.
    assert (Qabs (fy a - fy b) == 0)%Q as Hy by lra2.
    assert (Qabs (fz a - fz b) == 0)%Q as Hz by lra2.
    apply (proj1 (Qabs_zero _)) in Hx, Hy, Hz. clear H2. split; [|split]; lra.
  - intros (Hx & Hy & Hz).
    assert (Qabs (fx a - fx b) == 0)%Q as -> by (apply Qabs_zero; lra).
    assert (Qabs (fy a - fy b) == 0)%Q as -> by (apply Qabs_zero; lra).
    assert (Qabs (fz a - fz b) == 0)%Q as -> by (apply Qabs_zero; lra).
    reflexivity.
Qed.

Lemma Qabs_minus_triangle p q r : (Qabs (p - r) <= Qabs (p - q) + Qabs (q - r))%Q.
Proof.
  assert (p - r == (p - q) + (q - r))%Q as -> by ring.
  apply Qabs_triangle.
Qed.

Lemma fdistance_triangle a b c : (fdistance a c <= fdistance a b + fdistance b c)%Q.
Proof.
  unfold fdistance.
  pose proof (Qabs_minus_triangle (fx a) (fx b) (fx c)).
  pose proof (Qabs_minus_triangle (fy a) (fy b) (fy c)).
  pose proof (Qabs_minus_triangle (fz a) (fz b) (fz c)).
  lra2.
Qed.

Lemma distance_span a b : (distance a b == inject_Z (span a b) / 2)%Q.
Proof. reflexivity. Qed.

Lemma distance_le_iff a b n : (distance a b <= inject_Z n)%Q ↔ span a b ≤ 2 * n.
Proof.
  rewrite distance_span, Zle_Qle, inject_Z_mult.
  change (inject_Z 2) with 2%Q. split; intros H; lra2.
Qed.

Lemma distance_eq_iff a b n : (distance a b == inject_Z n)%Q ↔ span a b = 2 * n.
Proof.
  rewrite distance_span, <- inject_Z_injective, inject_Z_mult.
  change (inject_Z 2) with 2%Q. split; intros H; lra2.
Qed.


Lemma distance_triangle a b c : (distance a c <= distance a b + distance b c)%Q.
Proof. rewrite !distance_fdistance. apply fdistance_triangle. Qed.

Lemma distance_zero a b : (distance a b == 0)%Q ↔ a = b.
Proof.
  change 0%Q with (inject_Z 0). rewrite distance_eq_iff. unfold span.
  destruct a as [ax ay az], b as [bx b_y bz]; cbn [x y z]. split.
  - intros H. f_equal; lia.
  - intros [= -> -> ->]. lia.
Qed.

Lemma distance_nonneg a b : (0 <= distance a b)%Q.
Proof.
  rewrite distance_span.
  assert (0 ≤ span a b) as H by (unfold span; lia).
  rewrite Zle_Qle in H. change (inject_Z 0) with 0%Q in H. lra2.
Qed.

(** For two valid cube coordinates the three differences sum to zero, so
    the sum of their absolute values is even. *)
Lemma span_even a b : valid a → valid b →
  ∃ n, 0 ≤ n ∧ span a b = 2 * n.
Proof.
  unfold valid, span. intros Ha Hb.
  exists (Z.max (Z.abs (x a - x b)) (Z.max (Z.abs (y a - y b)) (Z.abs (z a - z b)))).
  lia.
Qed.

Lemma distance_integer a b : valid a → valid b →
  ∃ n, 0 ≤ n ∧ (distance a b == inject_Z n)%Q.
Proof.
  intros Ha Hb. destruct (span_even a b Ha Hb) as (n & Hn & Hs).
  exists n. split; [done|]. by apply distance_eq_iff.
Qed.

(** A step in one of the six directions is at distance one. *)
Lemma distance_direction a d : d ∈ DIRECTIONS → (distance a (add a d) == 1)%Q.
Proof.
  intros Hd. change 1%Q with (inject_Z 1). apply distance_eq_iff.
  unfold DIRECTIONS in Hd. unfold span, add; cbn [x y z].
  repeat (apply elem_of_cons in Hd as [->|Hd]; [cbn; lia|]).
  by apply elem_of_nil in Hd.
Qed.

Lemma add_direction_ne a d : d ∈ DIRECTIONS → add a d ≠ a.
Proof.
  intros Hd Heq. apply (distance_direction a) in Hd. rewrite Heq in Hd.
  assert (distance a a == 0)%Q by (by apply distance_zero). lra.
Qed.

Lemma add_direction_valid a d : d ∈ DIRECTIONS → valid a → valid (add a d).
Proof.
  intros Hd. unfold DIRECTIONS in Hd. unfold valid, add; cbn [x y z].
  repeat (apply elem_of_cons in Hd as [->|Hd]; [cbn; lia|]).
  by apply elem_of_nil in Hd.
Qed.

(** ** Rounding *)

Lemma Qgtb_spec a b : Qgtb a b = true ↔ (b < a)%Q.
Proof.
  unfold Qgtb. rewrite negb_true_iff, <- not_true_iff_false, Qle_bool_iff.
  split; [apply Qnot_le_lt | apply Qlt_not_le].
Qed.

Lemma Qgtb_false a b : Qgtb a b = false ↔ (a <= b)%Q.
Proof. unfold Qgtb. rewrite negb_false_iff. apply Qle_bool_iff. Qed.

Lemma Math_round_bounds q :
  (inject_Z (Math_round q) - (1 # 2) <= q)%Q ∧ (q < inject_Z (Math_round q) + (1 # 2))%Q.
Proof.
  unfold Math_round.
  pose proof (Qfloor_le (q + (1 # 2))) as Hlo.
  pose proof (Qlt_floor (q + (1 # 2))) as Hhi.
  rewrite inject_Z_plus in Hhi. change (inject_Z 1) with 1%Q in Hhi.
  split; lra.
Qed.

Lemma Math_round_Z n : Math_round (inject_Z n) = n.
Proof.
  pose proof (Math_round_bounds (inject_Z n)) as [Hlo Hhi].
  assert (inject_Z (Math_round (inject_Z n)) <= inject_Z n + (1 # 2))%Q as H1 by lra.
  assert (inject_Z n < inject_Z (Math_round (inject_Z n)) + 1)%Q as H2 by lra.
  assert (inject_Z (Math_round (inject_Z n)) < inject_Z n + 1)%Q as H3 by lra.
  change 1%Q with (inject_Z 1) in H2, H3. rewrite <- inject_Z_plus in H2, H3.
  rewrite <- Zlt_Qlt in H2, H3. lia.
Qed.

(** [Math.round] yields an integer nearest to its argument. *)
Lemma Math_round_nearest q n : (round_error q <= Qabs (inject_Z n - q))%Q.
Proof.
  unfold round_error. destruct (Math_round_bounds q) as [Hlo Hhi].
  destruct (Z.lt_trichotomy n (Math_round q)) as [Hn|[->|Hn]].
  - assert (n + 1 ≤ Math_round q) as Hn' by lia.
    rewrite Zle_Qle, inject_Z_plus in Hn'. change (inject_Z 1) with 1%Q in Hn'.
    do 2 (apply Qabs_case; intros); lra.
  - apply Qle_refl.
  - assert (Math_round q + 1 ≤ n) as Hn' by lia.
    rewrite Zle_Qle, inject_Z_plus in Hn'. change (inject_Z 1) with 1%Q in Hn'.
    do 2 (apply Qabs_case; intros); lra.
Qed.

Lemma round_error_half q : (round_error q <= 1 # 2)%Q.
Proof.
  unfold round_error. destruct (Math_round_bounds q).
  apply Qabs_case; intros; lra.
Qed.

Lemma round_cases c :
  let ex := round_error (fx c) in
  let ey := round_error (fy c) in
  let ez := round_error (fz c) in
  (strictly_greatest ex ey ez → round c = recompute_x c) ∧
  (¬ strictly_greatest ex ey ez → (ez < ey)%Q → round c = recompute_y c) ∧
  (¬ strictly_greatest ex ey ez → ¬ (ez < ey)%Q → round c = recompute_z c).
Proof.
  cbn zeta. unfold strictly_greatest, round, round_error.
  set (ex := Qabs (inject_Z (Math_round (fx c)) - fx c)).
  set (ey := Qabs (inject_Z (Math_round (fy c)) - fy c)).
  set (ez := Qabs (inject_Z (Math_round (fz c)) - fz c)).
  destruct (Qgtb ex ey) eqn:Hxy;
    [apply Qgtb_spec in Hxy | apply Qgtb_false in Hxy];
    (destruct (Qgtb ex ez) eqn:Hxz;
      [apply Qgtb_spec in Hxz | apply Qgtb_false in Hxz]);
    (destruct (Qgtb ey ez) eqn:Hyz;
      [apply Qgtb_spec in Hyz | apply Qgtb_false in Hyz]);
    cbn [andb]; (split; [|split]); intros; try reflexivity;
    repeat match goal with H : _ ∧ _ |- _ => destruct H end;
    first [ lra
          | exfalso;
            match goal with H : ¬ _ |- _ => apply H; first [lra | split; lra] end ].
Qed.

Lemma round_sum_zero c : valid (round c).
Proof.
  unfold valid, round.
  repeat case_match; cbn [x y z]; lia.
Qed.

(** ** Offset coordinates *)

Lemma land_1_parity n : Z.land n 1 = n mod 2.
Proof. change 1 with (Z.ones 1). by rewrite Z.land_ones. Qed.

(** The parity correction divides exactly. *)
Lemma parity_correction_exact n : 2 * ((n - Z.land n 1) / 2) = n - Z.land n 1.
Proof.
  rewrite land_1_parity.
  pose proof (Z.div_mod n 2 ltac:(lia)) as H.
  assert (n - n mod 2 = (n / 2) * 2) as -> by lia.
  rewrite Z.div_mul by lia. lia.
Qed.

Lemma offsetToCube_cubeToOffset c layout :
  valid c → offsetToCube (cubeToOffset c layout) layout = c.
Proof.
  destruct c as [cx cy cz]. unfold valid; cbn [x y z]. intros H.
  destruct layout; unfold offsetToCube, cubeToOffset; cbn [col row x y z];
    f_equal; lia.
Qed.

Lemma offsetToCube_valid o layout : valid (offsetToCube o layout).
Proof. destruct layout; unfold valid, offsetToCube; cbn [x y z]; lia. Qed.

(** ** The coordinate claims *)

(** C4, as amended.  [round] rounds each axis to a nearest integer and
    replaces exactly one of the three rounded values by the negated sum of
    the other two, so the result always satisfies [x + y + z = 0].  The axis
    is chosen as follows: x when its rounding error is strictly greater than
    both others; otherwise y when its error is strictly greater than that of
    z (whether or not it also exceeds that of x); otherwise z. *)
Theorem round_cube_invariant_and_precedence (c : FCoord) :
  let ex := round_error (fx c) in
  let ey := round_error (fy c) in
  let ez := round_error (fz c) in
  x (round c) + y (round c) + z (round c) = 0 ∧
  (∀ q n, (round_error q <= Qabs (inject_Z n - q))%Q) ∧
  (strictly_greatest ex ey ez → round c = recompute_x c) ∧
  (¬ strictly_greatest ex ey ez → (ez < ey)%Q → round c = recompute_y c) ∧
  (¬ strictly_greatest ex ey ez → ¬ (ez < ey)%Q → round c = recompute_z c).
Proof.
  cbn zeta. split; [apply round_sum_zero|].
  split; [apply Math_round_nearest|]. apply round_cases.
Qed.

(** At the midpoint of the line from (0,0,0) to (1,1,-2) the errors of x
    and y tie above that of z, and y is recomputed. *)
Lemma round_cube_invariant_and_precedence_witness :
  round (mkFCoord (1 # 2) (1 # 2) (-1)) = recompute_y (mkFCoord (1 # 2) (1 # 2) (-1)).
Proof.
  refine (proj1 (proj2 (proj2 (proj2
    (round_cube_invariant_and_precedence (mkFCoord (1 # 2) (1 # 2) (-1)))))) _ _).
  - intros [H _]. vm_compute in H. discriminate H.
  - vm_compute. reflexivity.
Defined.

(** C4, as the specification words it, fails: with the errors of x and y
    tied above that of z, neither is strictly greatest, yet [round] does
    not recompute z. *)
Lemma round_precedence_counterexample :
  ¬ precedence_as_specified (mkFCoord (1 # 2) (1 # 2) (-1)).
Proof.
  intros (_ & _ & H).
  assert (round (mkFCoord (1 # 2) (1 # 2) (-1))
          = recompute_z (mkFCoord (1 # 2) (1 # 2) (-1))) as Heq.
  { apply H; intros [H1 H2]; vm_compute in H1; discriminate H1. }
  vm_compute in Heq. discriminate Heq.
Qed.

(** C5.  On an integer cube coordinate, converting to offset coordinates and
    back gives the coordinate again, in both layouts; the conversions are
    also inverse in the other order, and the parity correction divides
    exactly. *)
Theorem offset_roundtrip (c : Coord) (o : OffsetCoord) (layout : Layout) :
  valid c →
  offsetToCube (cubeToOffset c layout) layout = c ∧
  cubeToOffset (offsetToCube o layout) layout = o ∧
  ∀ n, 2 * ((n - Z.land n 1) / 2) = n - Z.land n 1.
Proof.
  intros Hc. split; [by apply offsetToCube_cubeToOffset|].
  split; [|apply parity_correction_exact].
  destruct o as [oc or]. destruct layout; unfold offsetToCube, cubeToOffset;
    cbn [col row x y z]; f_equal; lia.
Qed.

Lemma offset_roundtrip_witness :
  offsetToCube (cubeToOffset (mkCoord (-3) 5 (-2)) flat) flat = mkCoord (-3) 5 (-2).
Proof.
  apply (offset_roundtrip (mkCoord (-3) 5 (-2)) (mkOffset 0 0) flat).
  reflexivity.
Defined.




(** * Properties of the grid store *)

(** ** The [Map] operations *)

Section map_lemmas.
Context {V : Type}.
Implicit Types (m : JSMap V) (k : string) (v : V).

Lemma Map_get_set_eq m k v : Map_get (Map_set m k v) k = Some v.
Proof.
  induction m as [|[k' v'] m IH]; cbn.
  - by rewrite decide_True.
  - destruct (decide (k' = k)) as [->|Hne]; cbn.
    + by rewrite decide_True.
    + by rewrite decide_False.
Qed.

Lemma Map_get_set_ne m k k' v : k ≠ k' → Map_get (Map_set m k v) k' = Map_get m k'.
Proof.
  intros Hne. induction m as [|[k0 v0] m IH]; cbn.
  - by rewrite decide_False.
  - destruct (decide (k0 = k)) as [->|Hne0]; cbn.
    + by rewrite !decide_False.
    + by rewrite IH.
Qed.

Lemma Map_get_None m k : Map_get m k = None ↔ k ∉ Map_keys m.
Proof.
  unfold Map_keys. induction m as [|[k' v'] m IH]; cbn.
  - split; [intros _; apply not_elem_of_nil | done].
  - rewrite not_elem_of_cons. destruct (decide (k' = k)) as [->|Hne].
    + split; [done | by intros [? _]].
    + rewrite IH. split; [intros ?; split; [congruence | done] | by intros [_ ?]].
Qed.

Lemma Map_get_Some_elem m k v : Map_get m k = Some v → (k, v) ∈ m.
Proof.
  induction m as [|[k' v'] m IH]; cbn; [done|].
  destruct (decide (k' = k)) as [->|Hne].
  - intros [= ->]. apply elem_of_cons; by left.
  - intros H. apply elem_of_cons; right; auto.
Qed.

Lemma Map_elem_get m k v : Map_wf m → (k, v) ∈ m → Map_get m k = Some v.
Proof.
  unfold Map_wf, Map_keys. induction m as [|[k' v'] m IH]; cbn.
  - intros _ H. by apply elem_of_nil in H.
  - intros Hnd H. apply NoDup_cons in Hnd as [Hk' Hnd].
    apply elem_of_cons in H as [[= -> ->]|H].
    + by rewrite decide_True.
    + rewrite decide_False; [by apply IH|].
      intros ->. apply Hk'. apply list_elem_of_fmap. by exists (k, v).
Qed.

Lemma Map_has_true m k : Map_has m k = true ↔ is_Some (Map_get m k).
Proof.
  unfold Map_has. destruct (Map_get m k) as [v|].
  - split; [by eexists | done].
  - split; [done | by intros [? ?]].
Qed.

Lemma Map_has_false m k : Map_has m k = false ↔ Map_get m k = None.
Proof. unfold Map_has. by destruct (Map_get m k). Qed.

Lemma Map_keys_set m k v :
  Map_keys (Map_set m k v) =
    if Map_has m k then Map_keys m else Map_keys m ++ [k].
Proof.
  unfold Map_keys, Map_has. induction m as [|[k' v'] m IH]; cbn; [done|].
  destruct (decide (k' = k)) as [->|Hne]; cbn; [done|].
  rewrite IH. by destruct (Map_get m k).
Qed.

Lemma Map_set_wf m k v : Map_wf m → Map_wf (Map_set m k v).
Proof.
  unfold Map_wf. rewrite Map_keys_set. destruct (Map_has m k) eqn:Hk; [done|].
  intros Hnd. apply NoDup_app. split; [done|]. split; [|apply NoDup_singleton].
  intros k' Hin ->%list_elem_of_singleton.
  apply Map_has_false, Map_get_None in Hk. done.
Qed.

Lemma Map_delete_cons_eq m k v : Map_delete ((k, v) :: m) k = Map_delete m k.
Proof. unfold Map_delete. by rewrite filter_cons_False by (cbn; tauto). Qed.

Lemma Map_delete_cons_ne m k k' v :
  k' ≠ k → Map_delete ((k', v) :: m) k = (k', v) :: Map_delete m k.
Proof. intros Hne. unfold Map_delete. by rewrite filter_cons_True by done. Qed.

Lemma Map_delete_absent m k : Map_get m k = None → Map_delete m k = m.
Proof.
  induction m as [|[k' v'] m IH]; [done|]. cbn [Map_get].
  destruct (decide (k' = k)) as [->|Hne]; [done|]. intros H.
  rewrite Map_delete_cons_ne by done. by rewrite IH.
Qed.

Lemma Map_get_delete_eq m k : Map_get (Map_delete m k) k = None.
Proof.
  induction m as [|[k' v'] m IH]; [done|].
  destruct (decide (k' = k)) as [->|Hne].
  - by rewrite Map_delete_cons_eq.
  - rewrite Map_delete_cons_ne by done. cbn [Map_get]. by rewrite decide_False.
Qed.

Lemma Map_get_delete_ne m k k' : k ≠ k' → Map_get (Map_delete m k) k' = Map_get m k'.
Proof.
  intros Hne. induction m as [|[k0 v0] m IH]; [done|].
  destruct (decide (k0 = k)) as [->|Hne0].
  - rewrite Map_delete_cons_eq. cbn [Map_get]. by rewrite decide_False.
  - rewrite Map_delete_cons_ne by done. cbn [Map_get]. by rewrite IH.
Qed.

Lemma Map_delete_elem m k k' v' : (k', v') ∈ Map_delete m k → (k', v') ∈ m.
Proof. unfold Map_delete. by intros [_ H]%list_elem_of_filter. Qed.

Lemma Map_delete_wf m k : Map_wf m → Map_wf (Map_delete m k).
Proof.
  unfold Map_wf, Map_keys. induction m as [|[k' v'] m IH]; [done|].
  cbn [fmap list_fmap fst]. intros [Hk' Hnd]%NoDup_cons.
  destruct (decide (k' = k)) as [->|Hne].
  - rewrite Map_delete_cons_eq. auto.
  - rewrite Map_delete_cons_ne by done. cbn [fmap list_fmap fst].
    apply NoDup_cons. split; [|auto].
    intros ((k0 & v0) & Hk0 & Hin%Map_delete_elem)%list_elem_of_fmap.
    cbn in Hk0. subst k0. apply Hk'. apply list_elem_of_fmap. by exists (k', v0).
Qed.

Lemma Map_set_elem m k v k' v' :
  (k', v') ∈ Map_set m k v → (k', v') ∈ m ∨ (k' = k ∧ v' = v).
Proof.
  induction m as [|[k0 v0] m IH]; cbn.
  - intros [= -> ->]%list_elem_of_singleton. by right.
  - destruct (decide (k0 = k)) as [->|Hne].
    + intros [[= -> ->]|H]%elem_of_cons; [by right|].
      left. apply elem_of_cons. by right.
    + intros [[= -> ->]|H]%elem_of_cons.
      * left. apply elem_of_cons. by left.
      * destruct (IH H) as [?|?]; [left; apply elem_of_cons; by right | by right].
Qed.

End map_lemmas.

(** Rebuilding a map entry by entry with a function applied to the values,
    as [mapCells] does. *)
Lemma Map_rebuild_get {V} (fn : V → V) (m acc : JSMap V) k :
  Map_wf m →
  Map_get (foldl (λ newCells e, Map_set newCells e.1 (fn e.2)) acc m) k =
    match Map_get m k with
    | Some v => Some (fn v)
    | None => Map_get acc k
    end.
Proof.
  unfold Map_wf, Map_keys. revert acc.
  induction m as [|[k' v'] m IH]; intros acc Hnd; cbn; [done|].
  apply NoDup_cons in Hnd as [Hk' Hnd]. rewrite IH by done.
  destruct (decide (k' = k)) as [->|Hne].
  - assert (Map_get m k = None) as -> by (by apply Map_get_None).
    apply Map_get_set_eq.
  - destruct (Map_get m k); [done|]. by apply Map_get_set_ne.
Qed.

Lemma Map_rebuild_wf {V} (fn : V → V) (m acc : JSMap V) :
  Map_wf acc → Map_wf (foldl (λ newCells e, Map_set newCells e.1 (fn e.2)) acc m).
Proof.
  revert acc. induction m as [|[k' v'] m IH]; intros acc Hacc; cbn; [done|].
  apply IH. by apply Map_set_wf.
Qed.

(** ** Reading and writing cells *)

Lemma with_cells_id g : with_cells g (cells g) = g.
Proof. by destruct g. Qed.

Lemma hasCell_true g c : hasCell g c = true ↔ is_Some (getCell g c).
Proof. apply Map_has_true. Qed.

Lemma hasCell_false g c : hasCell g c = false ↔ getCell g c = None.
Proof. apply Map_has_false. Qed.

Lemma getCell_setCell_eq g c cell : getCell (setCell g c cell) c = Some (with_coord cell c).
Proof. apply Map_get_set_eq. Qed.

Lemma getCell_setCell_ne g c c' cell : c' ≠ c → getCell (setCell g c cell) c' = getCell g c'.
Proof.
  intros Hne. apply Map_get_set_ne. intros H. by apply hash_inj in H.
Qed.

Lemma getCell_removeCell_ne g c c' : c' ≠ c → getCell (removeCell g c) c' = getCell g c'.
Proof.
  intros Hne. apply Map_get_delete_ne. intros H. by apply hash_inj in H.
Qed.

Lemma getCell_removeCell_eq g c : getCell (removeCell g c) c = None.
Proof. apply Map_get_delete_eq. Qed.

Lemma getCell_updateCell_ne g c c' f : c' ≠ c → getCell (updateCell g c f) c' = getCell g c'.
Proof.
  intros Hne. unfold updateCell. destruct (getCell g c); [|done].
  by apply getCell_setCell_ne.
Qed.

Lemma getCell_setCellData_ne g c c' es :
  c' ≠ c → getCell (setCellData g c es) c' = getCell g c'.
Proof.
  intros Hne. unfold setCellData. destruct (getCell g c); [|done].
  destruct es; [done|]. by apply getCell_setCell_ne.
Qed.

Lemma getCell_mapCells g fn c :
  Map_wf (cells g) → getCell (mapCells g fn) c = fn <$> getCell g c.
Proof.
  intros Hwf. unfold getCell, mapCells; cbn [cells with_cells].
  rewrite Map_rebuild_get by done. by destruct (Map_get (cells g) (hash c)).
Qed.

Lemma updateCell_absent g c f : getCell g c = None → updateCell g c f = g.
Proof. unfold updateCell. by intros ->. Qed.

Lemma setCellData_absent g c es : getCell g c = None → setCellData g c es = g.
Proof. unfold setCellData. by intros ->. Qed.

Lemma removeCell_absent g c : getCell g c = None → removeCell g c = g.
Proof.
  unfold getCell, removeCell. intros H.
  rewrite Map_delete_absent by done. apply with_cells_id.
Qed.

(** ** Well-formed grids *)

Lemma setCell_wf g c cell : grid_wf g → grid_wf (setCell g c cell).
Proof.
  intros [Hnd Hk]. split; cbn [setCell cells with_cells].
  - by apply Map_set_wf.
  - intros k cell' [H|[-> ->]]%Map_set_elem; [by apply Hk | done].
Qed.

Lemma updateCell_wf g c f : grid_wf g → grid_wf (updateCell g c f).
Proof.
  intros Hwf. unfold updateCell. destruct (getCell g c); [|done].
  by apply setCell_wf.
Qed.

Lemma setPassable_wf g c p : grid_wf g → grid_wf (setPassable g c p).
Proof. apply updateCell_wf. Qed.

Lemma setCellData_wf g c es : grid_wf g → grid_wf (setCellData g c es).
Proof.
  intros Hwf. unfold setCellData. destruct (getCell g c); [|done].
  destruct es; [done|]. by apply setCell_wf.
Qed.

Lemma removeCell_wf g c : grid_wf g → grid_wf (removeCell g c).
Proof.
  intros [Hnd Hk]. split; cbn [removeCell cells with_cells].
  - by apply Map_delete_wf.
  - intros k cell' H%Map_delete_elem. by apply Hk.
Qed.

Lemma grid_wf_getCell g c cell : grid_wf g → getCell g c = Some cell → coord cell = c.
Proof.
  intros [_ Hk] H. apply Map_get_Some_elem, Hk in H. by apply hash_inj.
Qed.

Lemma grid_wf_elem g k cell :
  grid_wf g → (k, cell) ∈ cells g → getCell g (coord cell) = Some cell.
Proof.
  intros [Hnd Hk] H. unfold getCell. rewrite (Hk _ _ H). by apply Map_elem_get.
Qed.

(** ** The mutators on the heap *)

Lemma contents_app_new (h : Store.Heap) m : Store.contents (h ++ [m]) (length h) = m.
Proof. unfold Store.contents. by rewrite lookup_app_r, Nat.sub_diag by lia. Qed.

Lemma contents_app_old (h : Store.Heap) m l :
  (l < length h)%nat → Store.contents (h ++ [m]) l = Store.contents h l.
Proof. intros Hl. unfold Store.contents. by rewrite lookup_app_l. Qed.

Lemma contents_app_empty (h : Store.Heap) l :
  Store.contents (h ++ [[]]) l = Store.contents h l.
Proof.
  unfold Store.contents. destruct (decide (l < length h)%nat) as [Hl|Hl].
  - by rewrite lookup_app_l.
  - rewrite lookup_app_r by lia. rewrite (lookup_ge_None_2 h l) by lia.
    by destruct (l - length h)%nat as [|[|n]].
Qed.

Lemma preserved_app (h : Store.Heap) m : Store.preserved h (h ++ [m]).
Proof. intros l Hl. by apply lookup_app_l. Qed.

Lemma preserved_refl (h : Store.Heap) : Store.preserved h h.
Proof. by intros l Hl. Qed.

Lemma preserved_contents (h h' : Store.Heap) l :
  Store.preserved h h' → (l < length h)%nat → Store.contents h' l = Store.contents h l.
Proof. intros Hp Hl. unfold Store.contents. by rewrite Hp. Qed.

Lemma alter_new (h : Store.Heap) f m : alter f (length h) (h ++ [m]) = h ++ [f m].
Proof.
  induction h as [|m0 h IH]; cbn; [done|]. f_equal. exact IH.
Qed.

Lemma run_setCell g c cell (h : Store.Heap) :
  Store.setCell g c cell h =
    (Store.with_cells g (length h),
     h ++ [Map_set (Store.contents h (Store.cellsRef g)) (hash c) (with_coord cell c)]).
Proof.
  unfold Store.setCell, Store.bind, Store.Map_copy, Store.set, Store.ret.
  by rewrite alter_new.
Qed.

Lemma run_removeCell g c (h : Store.Heap) :
  Store.removeCell g c h =
    (Store.with_cells g (length h),
     h ++ [Map_delete (Store.contents h (Store.cellsRef g)) (hash c)]).
Proof.
  unfold Store.removeCell, Store.bind, Store.Map_copy, Store.delete, Store.ret.
  by rewrite alter_new.
Qed.

Lemma run_updateCell g c f (h : Store.Heap) :
  Store.updateCell g c f h =
    match getCell (Store.view h g) c with
    | None => (g, h)
    | Some cell => Store.setCell g c (f cell) h
    end.
Proof.
  unfold Store.updateCell, Store.bind, Store.getCell, Store.get, getCell, Store.view.
  cbn [cells]. by destruct (Map_get _ _).
Qed.

Lemma run_setCellData g c es (h : Store.Heap) :
  Store.setCellData g c es h =
    match getCell (Store.view h g) c with
    | None => (g, h)
    | Some cell =>
        match es with
        | [] => (g, h)
        | _ => Store.setCell g c (with_data cell (foldl merge_entity (data cell) es)) h
        end
    end.
Proof.
  unfold Store.setCellData, Store.bind, Store.getCell, Store.get, getCell, Store.view.
  cbn [cells]. destruct (Map_get _ _); [|done]. by destruct es.
Qed.

Lemma run_for_each_set (fn : Cell → Cell) (h : Store.Heap) es acc :
  Store.for_each es (λ e, Store.set (length h) e.1 (fn e.2)) (h ++ [acc]) =
    (tt, h ++ [foldl (λ newCells e, Map_set newCells e.1 (fn e.2)) acc es]).
Proof.
  revert acc. induction es as [|e es IH]; intros acc; cbn; [done|].
  unfold Store.bind, Store.set at 1. rewrite alter_new. apply IH.
Qed.

Lemma run_mapCells g fn (h : Store.Heap) :
  Store.mapCells g fn h =
    (Store.with_cells g (length h),
     h ++ [foldl (λ newCells e, Map_set newCells e.1 (fn e.2)) []
             (Store.contents h (Store.cellsRef g))]).
Proof.
  unfold Store.mapCells, Store.bind at 1 2 3, Store.Map_new, Store.entries.
  rewrite run_for_each_set. unfold Store.ret. by rewrite contents_app_empty.
Qed.

Lemma view_with_cells_new (h : Store.Heap) g m :
  Store.view (h ++ [m]) (Store.with_cells g (length h)) = with_cells (Store.view h g) m.
Proof.
  unfold Store.view, Store.with_cells, with_cells. cbn. by rewrite contents_app_new.
Qed.

(** Each heap-level mutator leaves every existing [Map] alone and returns
    the grid that the value-level mutator computes. *)
Lemma run_call m g (h : Store.Heap) :
  Store.preserved h (run m g h).2 ∧
  Store.view (run m g h).2 (run m g h).1 = call m (Store.view h g) ∧
  (if is_noop m (Store.view h g) then (run m g h).1 = g
   else Store.fresh h (run m g h).1 ∧ Store.allocated (run m g h).2 (run m g h).1).
Proof.
  assert (∀ c cell,
    Store.preserved h (Store.setCell g c cell h).2 ∧
    Store.view (Store.setCell g c cell h).2 (Store.setCell g c cell h).1
      = setCell (Store.view h g) c cell ∧
    Store.fresh h (Store.setCell g c cell h).1 ∧
    Store.allocated (Store.setCell g c cell h).2 (Store.setCell g c cell h).1) as Hset.
  { intros c cell. rewrite run_setCell. cbn [fst snd].
    split; [apply preserved_app|]. split; [apply view_with_cells_new|].
    unfold Store.fresh, Store.allocated. cbn. rewrite length_app. cbn. lia. }
  destruct m as [c cell|c f|c|c p|c es|fn]; cbn [run call is_noop].
  - destruct (Hset c cell) as (? & ? & ? & ?). done.
  - rewrite run_updateCell. unfold updateCell, hasCell, Map_has.
    fold (getCell (Store.view h g) c).
    destruct (getCell (Store.view h g) c) as [cell|]; cbn [negb fst snd].
    + destruct (Hset c (f cell)) as (? & ? & ? & ?). done.
    + split; [apply preserved_refl | done].
  - rewrite run_removeCell. cbn [fst snd].
    split; [apply preserved_app|]. split; [apply view_with_cells_new|].
    unfold Store.fresh, Store.allocated. cbn. rewrite length_app. cbn. lia.
  - unfold Store.setPassable, setPassable. rewrite run_updateCell.
    unfold updateCell, hasCell, Map_has. fold (getCell (Store.view h g) c).
    destruct (getCell (Store.view h g) c) as [cell|]; cbn [negb fst snd].
    + destruct (Hset c (with_passable cell p)) as (? & ? & ? & ?). done.
    + split; [apply preserved_refl | done].
  - rewrite run_setCellData. unfold setCellData, hasCell, Map_has.
    fold (getCell (Store.view h g) c).
    destruct (getCell (Store.view h g) c) as [cell|]; cbn [negb orb fst snd].
    + destruct es as [|e es]; cbn [fst snd].
      * split; [apply preserved_refl | done].
      * destruct (Hset c (with_data cell (foldl merge_entity (data cell) (e :: es))))
          as (? & ? & ? & ?). done.
    + split; [apply preserved_refl | done].
  - rewrite run_mapCells. cbn [fst snd].
    split; [apply preserved_app|]. split; [apply view_with_cells_new|].
    unfold Store.fresh, Store.allocated. cbn. rewrite length_app. cbn. lia.
Qed.

(** What a call does to the cells, on grid values. *)
Lemma call_frame m g t c :
  target m = Some t → c ≠ t → getCell (call m g) c = getCell g c.
Proof.
  destruct m as [c0 cell|c0 f|c0|c0 p|c0 es|fn]; cbn [target call];
    intros [= <-] Hne.
  - by apply getCell_setCell_ne.
  - by apply getCell_updateCell_ne.
  - by apply getCell_removeCell_ne.
  - by apply getCell_updateCell_ne.
  - by apply getCell_setCellData_ne.
Qed.

Lemma call_noop m g : is_noop m g = true → call m g = g.
Proof.
  destruct m as [c0 cell|c0 f|c0|c0 p|c0 es|fn]; cbn [is_noop call]; try done.
  - intros H%negb_true_iff%hasCell_false. by apply updateCell_absent.
  - intros H%negb_true_iff%hasCell_false. by apply updateCell_absent.
  - intros [H%negb_true_iff%hasCell_false|H]%orb_true_iff.
    + by apply setCellData_absent.
    + destruct es; [|done]. unfold setCellData. by destruct (getCell g c0).
Qed.

Lemma view_preserved (h h' : Store.Heap) g :
  Store.allocated h g → Store.preserved h h' → Store.view h' g = Store.view h g.
Proof.
  intros Ha Hp. unfold Store.view. by rewrite (preserved_contents h h').
Qed.

(** A heap of proper [Map]s stays one. *)
Lemma run_call_wf m g (h : Store.Heap) :
  Forall Map_wf h → Forall Map_wf (run m g h).2.
Proof.
  intros Hh.
  assert (Map_wf (Store.contents h (Store.cellsRef g))) as Hg.
  { unfold Store.contents. destruct (h !! Store.cellsRef g) as [entries|] eqn:Hl.
    - by eapply Forall_lookup_1 in Hh.
    - apply NoDup_nil_2. }
  assert (∀ c cell, Forall Map_wf (Store.setCell g c cell h).2) as Hset.
  { intros c cell. rewrite run_setCell. cbn [snd]. apply Forall_app. split; [done|].
    apply Forall_singleton. by apply Map_set_wf. }
  destruct m as [c cell|c f|c|c p|c es|fn]; cbn [run].
  - apply Hset.
  - rewrite run_updateCell. destruct (getCell _ _); [apply Hset | done].
  - rewrite run_removeCell. cbn [snd]. apply Forall_app. split; [done|].
    apply Forall_singleton. by apply Map_delete_wf.
  - unfold Store.setPassable. rewrite run_updateCell.
    destruct (getCell _ _); [apply Hset | done].
  - rewrite run_setCellData. destruct (getCell _ _); [|done].
    destruct es; [done | apply Hset].
  - rewrite run_mapCells. cbn [snd]. apply Forall_app. split; [done|].
    apply Forall_singleton. apply Map_rebuild_wf. apply NoDup_nil_2.
Qed.

(** ** The grid store claims *)

(** C3, as amended.  A mutator call never changes a [Map] that existed
    before it: the original grid reads the same at every coordinate before
    and after.  The grid it returns is the one the value-level mutator
    computes.  It is a new grid, except that [updateCell], [setPassable] and
    [setCellData] on an absent coordinate, and [setCellData] without
    entities, return the very grid they were given.  In the returned grid
    every coordinate other than the targeted one reads as in the original;
    [mapCells], which has no single target, reads [fn] of the original cell
    at every coordinate. *)
Theorem mutators_copy_on_write (m : Mutation) (h : Store.Heap) (g : Store.GridObj) :
  Store.allocated h g →
  Map_wf (Store.contents h (Store.cellsRef g)) →
  let g' := (run m g h).1 in
  let h' := (run m g h).2 in
  Store.preserved h h' ∧
  (∀ c, getCell (Store.view h' g) c = getCell (Store.view h g) c) ∧
  Store.view h' g' = call m (Store.view h g) ∧
  (if is_noop m (Store.view h g) then g' = g
   else Store.fresh h g' ∧ Store.allocated h' g') ∧
  (∀ t c, target m = Some t → c ≠ t →
     getCell (Store.view h' g') c = getCell (Store.view h g) c) ∧
  (∀ fn c, m = CallMapCells fn →
     getCell (Store.view h' g') c = fn <$> getCell (Store.view h g) c).
Proof.
  intros Ha Hwf g' h'. destruct (run_call m g h) as (Hp & Hv & Hn).
  fold g' h' in Hp, Hv, Hn.
  split; [done|]. split; [by intros c; rewrite (view_preserved h h')|].
  split; [done|]. split; [done|]. split.
  - intros t c Ht Hne. rewrite Hv. by apply (call_frame m _ t).
  - intros fn c ->. rewrite Hv. by apply getCell_mapCells.
Qed.

Lemma mutators_copy_on_write_witness :
  Store.preserved [sample_map]
    (run (CallSetPassable (mkCoord 1 (-1) 0) false) sample_obj [sample_map]).2.
Proof.
  refine (proj1 (mutators_copy_on_write
    (CallSetPassable (mkCoord 1 (-1) 0) false) [sample_map] sample_obj _ _)).
  - unfold Store.allocated. cbn. lia.
  - unfold Map_wf, Map_keys. refine (@bool_decide_unpack _ (NoDup_dec _) _).
    vm_compute. exact I.
Defined.

(** C3, as stated, fails: setting the passability of a coordinate that is
    not in the grid returns the grid it was given, not a new one. *)
Lemma mutators_return_new_grid_counterexample :
  ¬ returns_new_grid (CallSetPassable (mkCoord 5 (-5) 0) false) [sample_map] sample_obj.
Proof. unfold returns_new_grid, Store.fresh. vm_compute. lia. Qed.

(** C7.  At a coordinate absent from the grid, [getCell] returns null, and
    [updateCell], [setCellData] and [removeCell] return a grid equal to the
    one they were given. *)
Theorem absent_coordinate_is_noop (g : Grid) (c : Coord) :
  hasCell g c = false →
  getCell g c = None ∧
  (∀ updater, updateCell g c updater = g) ∧
  (∀ entities, setCellData g c entities = g) ∧
  removeCell g c = g.
Proof.
  intros H%hasCell_false. split; [done|].
  split; [by intros; apply updateCell_absent|].
  split; [by intros; apply setCellData_absent|].
  by apply removeCell_absent.
Qed.

Lemma absent_coordinate_is_noop_witness :
  removeCell sample_grid (mkCoord 5 (-5) 0) = sample_grid.
Proof.
  refine (proj2 (proj2 (proj2
    (absent_coordinate_is_noop sample_grid (mkCoord 5 (-5) 0) _)))).
  vm_compute. reflexivity.
Defined.

(** C10.  [setCell] stores the cell under the hash of the coordinate with
    its [coord] field set to that coordinate, whatever the field held, and
    its other fields as given; [getCell] then yields that cell.  Hence every entry that [setCell],
    [updateCell], [setPassable] or [setCellData] adds or changes is stored
    under the hash of its own coordinate, and these calls keep a grid in
    which every entry is so stored. *)
Theorem setCell_keys_by_coordinate (g : Grid) (c : Coord) (cell : Cell) (m : Mutation) :
  writes_through_setCell m = true →
  Map_get (cells (setCell g c cell)) (hash c) = Some (with_coord cell c) ∧
  getCell (setCell g c cell) c = Some (with_coord cell c) ∧
  coord (with_coord cell c) = c ∧
  getCell (setCell g c cell) c =
    Some {| coord := c; passable := passable cell; data := data cell |} ∧
  (∀ k cell', (k, cell') ∈ cells (call m g) →
     (k, cell') ∈ cells g ∨ (hash (coord cell') = k ∧ target m = Some (coord cell'))) ∧
  (grid_wf g → grid_wf (call m g)).
Proof.
  intros Hm. split; [apply Map_get_set_eq|]. split; [apply getCell_setCell_eq|].
  split; [done|]. split; [apply getCell_setCell_eq|].
  assert (∀ c0 cell0 k cell', (k, cell') ∈ cells (setCell g c0 cell0) →
    (k, cell') ∈ cells g ∨ (hash (coord cell') = k ∧ Some c0 = Some (coord cell')))
    as Hset.
  { intros c0 cell0 k cell' [H|[-> ->]]%Map_set_elem; [by left | by right]. }
  split.
  - intros k cell'.
    destruct m as [c0 cell0|c0 f|c0|c0 p|c0 es|fn]; try discriminate Hm;
      cbn [call target].
    + apply Hset.
    + unfold updateCell. destruct (getCell g c0); [apply Hset | by left].
    + unfold setPassable, updateCell. destruct (getCell g c0); [apply Hset | by left].
    + unfold setCellData. destruct (getCell g c0); [|by left].
      destruct es; [by left | apply Hset].
  - destruct m as [c0 cell0|c0 f|c0|c0 p|c0 es|fn]; try discriminate Hm;
      cbn [call].
    + apply setCell_wf.
    + apply updateCell_wf.
    + apply setPassable_wf.
    + apply setCellData_wf.
Qed.

Lemma setCell_keys_by_coordinate_witness :
  getCell (setCell sample_grid (mkCoord 0 1 (-1)) (mkCell (mkCoord 7 7 7) false []))
    (mkCoord 0 1 (-1))
  = Some (with_coord (mkCell (mkCoord 7 7 7) false []) (mkCoord 0 1 (-1))).
Proof.
  refine (proj1 (proj2 (setCell_keys_by_coordinate sample_grid (mkCoord 0 1 (-1))
    (mkCell (mkCoord 7 7 7) false []) (CallSetPassable (mkCoord 0 0 0) false) _))).
  reflexivity.
Defined.

(** * Properties of the spatial queries *)

(** ** Loops that push onto an array *)

Lemma foldl_push_filter {A B} (P : A → bool) (f : A → B) (l : list A) (acc : list B) :
  foldl (λ results e, if P e then results ++ [f e] else results) acc l =
    acc ++ (f <$> filter (λ e, P e = true) l).
Proof.
  revert acc. induction l as [|e l IH]; intros acc; cbn [foldl].
  - by rewrite app_nil_r.
  - rewrite IH. destruct (P e) eqn:He.
    + rewrite filter_cons_True by done. cbn. by rewrite <- app_assoc.
    + rewrite filter_cons_False by (by rewrite He). done.
Qed.

Lemma foldl_push_all {A B} (f : A → list B) (l : list A) (acc : list B) :
  foldl (λ results a, results ++ f a) acc l = acc ++ concat (f <$> l).
Proof.
  revert acc. induction l as [|a l IH]; intros acc; cbn [foldl].
  - by rewrite app_nil_r.
  - rewrite IH. cbn. by rewrite app_assoc.
Qed.

Lemma elem_of_concat {A} (a : A) (ls : list (list A)) :
  a ∈ concat ls ↔ ∃ l, a ∈ l ∧ l ∈ ls.
Proof.
  induction ls as [|l ls IH]; cbn [concat].
  - split; [intros H; by apply elem_of_nil in H|].
    intros (l & _ & H). by apply elem_of_nil in H.
  - rewrite elem_of_app, IH. split.
    + intros [H|(l' & Ha & Hl')].
      * exists l. split; [done|]. apply elem_of_cons. by left.
      * exists l'. split; [done|]. apply elem_of_cons. by right.
    + intros (l' & Ha & [->|Hl']%elem_of_cons); [by left|].
      right. by exists l'.
Qed.

(** ** Rings and spirals *)

Lemma getRing_filter g c radius :
  getRing g c radius =
    (λ e, coord e.2) <$>
      filter (λ e, Qeq_bool (distance c (coord e.2)) radius = true) (cells g).
Proof.
  unfold getRing.
  by rewrite (foldl_push_filter
    (λ e, Qeq_bool (distance c (coord e.2)) radius) (λ e, coord e.2)).
Qed.

Lemma getRange_filter g c range :
  getRange g c range =
    (λ e, coord e.2) <$>
      filter (λ e, Qle_bool (distance c (coord e.2)) range = true) (cells g).
Proof.
  unfold getRange.
  by rewrite (foldl_push_filter
    (λ e, Qle_bool (distance c (coord e.2)) range) (λ e, coord e.2)).
Qed.

Lemma elem_of_getRing g c radius c' :
  c' ∈ getRing g c radius ↔
  ∃ k cell, (k, cell) ∈ cells g ∧ coord cell = c' ∧ (distance c c' == radius)%Q.
Proof.
  rewrite getRing_filter, list_elem_of_fmap. split.
  - intros ([k cell] & -> & [Hd Hin]%list_elem_of_filter). cbn in *.
    exists k, cell. by apply Qeq_bool_iff in Hd.
  - intros (k & cell & Hin & <- & Hd). exists (k, cell). split; [done|].
    apply list_elem_of_filter. split; [|done]. cbn. by apply Qeq_bool_iff.
Qed.

Lemma ring_zero_entries (m : JSMap Cell) center :
  Map_wf m → (∀ k cell, (k, cell) ∈ m → hash (coord cell) = k) →
  (λ e : string * Cell, coord e.2) <$>
    filter (λ e, Qeq_bool (distance center (coord e.2)) 0 = true) m
  = if Map_has m (hash center) then [center] else [].
Proof.
  unfold Map_wf, Map_keys, Map_has.
  induction m as [|[k cell] m IH]; intros Hnd Hk; [done|].
  cbn [fmap list_fmap fst] in Hnd. apply NoDup_cons in Hnd as [Hnk Hnd].
  assert (hash (coord cell) = k) as Hcell by (apply Hk, elem_of_cons; by left).
  assert (∀ k' cell', (k', cell') ∈ m → hash (coord cell') = k') as Hk'.
  { intros k' cell' Hin. apply Hk, elem_of_cons. by right. }
  specialize (IH Hnd Hk'). cbn [Map_get].
  destruct (decide (k = hash center)) as [->|Hne].
  - apply hash_inj in Hcell.
    rewrite filter_cons_True
      by (cbn; apply Qeq_bool_iff, distance_zero; by rewrite Hcell).
    cbn [fmap list_fmap snd]. rewrite IH, Hcell.
    assert (Map_get m (hash center) = None) as -> by (by apply Map_get_None).
    done.
  - rewrite filter_cons_False; [exact IH|].
    cbn. intros Hd%Qeq_bool_iff%distance_zero. apply Hne. by rewrite <- Hcell, Hd.
Qed.

Lemma getRing_zero g center :
  grid_wf g → getRing g center 0 = if hasCell g center then [center] else [].
Proof.
  intros [Hnd Hk]. rewrite getRing_filter. by apply ring_zero_entries.
Qed.

Lemma getSpiral_rings g center maxRadius :
  getSpiral g center maxRadius =
    [center] ++
    concat ((λ r, getRing g center (inject_Z r)) <$> upto 1 (Qfloor maxRadius)).
Proof.
  unfold getSpiral.
  by rewrite (foldl_push_all (λ r, getRing g center (inject_Z r))).
Qed.

(** ** Neighbours and passable hops *)

Lemma isPassable_hasCell g c : isPassable g c = true → hasCell g c = true.
Proof.
  unfold isPassable. intros H. apply hasCell_true.
  destruct (getCell g c); [by eexists | done].
Qed.

Lemma getNeighbors_filter g c passableOnly :
  getNeighbors g c passableOnly =
    filter (λ n, (hasCell g n && (negb passableOnly || isPassable g n)) = true)
      (add c <$> DIRECTIONS).
Proof.
  unfold getNeighbors, getDirections.
  assert (∀ l acc,
    foldl (λ neighbors direction,
      let neighbor := add c direction in
      if negb (hasCell g neighbor) then neighbors
      else if passableOnly && negb (isPassable g neighbor) then neighbors
      else neighbors ++ [neighbor]) acc l
    = acc ++ filter (λ n, (hasCell g n && (negb passableOnly || isPassable g n)) = true)
               (add c <$> l)) as H.
  { induction l as [|d l IH]; intros acc; cbn [foldl fmap list_fmap].
    - by rewrite app_nil_r.
    - rewrite IH.
      destruct (hasCell g (add c d)) eqn:Hh, passableOnly,
        (isPassable g (add c d)) eqn:Hp; cbn [negb andb orb];
        first [ rewrite filter_cons_True by (by rewrite Hh, ?Hp);
                by rewrite <- app_assoc
              | by rewrite filter_cons_False by (by rewrite Hh, ?Hp) ]. }
  apply (H DIRECTIONS []).
Qed.

Lemma hop_iff g a b :
  hop g a b ↔ ∃ d, d ∈ DIRECTIONS ∧ b = add a d ∧ isPassable g b = true.
Proof.
  unfold hop. rewrite getNeighbors_filter, list_elem_of_filter, list_elem_of_fmap.
  cbn [negb orb]. split.
  - intros [[_ Hp]%andb_true_iff (d & -> & Hd)]. by exists d.
  - intros (d & Hd & -> & Hp). split; [|by exists d].
    by rewrite Hp, (isPassable_hasCell _ _ Hp).
Qed.

(** The hops of the code are the passable hops of the specification. *)
Lemma adjacent_iff a b : adjacent a b ↔ ∃ d, d ∈ DIRECTIONS ∧ b = add a d.
Proof.
  unfold adjacent. split.
  - intros [Hs Ha].
    exists (mkCoord (x b - x a) (y b - y a) (z b - z a)). split.
    + assert (∀ dx dy dz, dx + dy + dz = 0 → Z.abs dx + Z.abs dy + Z.abs dz = 2 →
        mkCoord dx dy dz ∈ DIRECTIONS) as H; [|by apply H].
      intros dx dy dz H0 H2. unfold DIRECTIONS.
      assert (dz = - dx - dy) as -> by lia.
      assert (dx = -1 ∨ dx = 0 ∨ dx = 1) as Hdx by lia.
      assert (dy = -1 ∨ dy = 0 ∨ dy = 1) as Hdy by lia.
      destruct Hdx as [-> | [-> | ->]], Hdy as [-> | [-> | ->]]; try (exfalso; lia);
        cbn; repeat (first [by apply list_elem_of_here | apply list_elem_of_further]).
    + destruct a as [ax ay az], b as [bx b_y bz]. unfold add; cbn [x y z].
      f_equal; lia.
  - intros (d & Hd & ->). unfold DIRECTIONS in Hd. unfold add; cbn [x y z].
    repeat (apply elem_of_cons in Hd as [->|Hd]; [cbn [x y z]; lia|]).
    by apply elem_of_nil in Hd.
Qed.

Lemma passable_cell_iff g c : passable_cell g c ↔ isPassable g c = true.
Proof.
  unfold passable_cell, isPassable, getCell. split.
  - intros (cell & -> & Hp). done.
  - destruct (Map_get (cells g) (hash c)) as [cell|]; [|done].
    intros Hp. by exists cell.
Qed.

Lemma hop_passable_hop g a b : hop g a b ↔ passable_hop g a b.
Proof.
  rewrite hop_iff. unfold passable_hop. rewrite adjacent_iff, passable_cell_iff.
  split.
  - intros (d & Hd & -> & Hp). split; [by exists d | done].
  - intros [(d & Hd & ->) Hp]. by exists d.
Qed.

Lemma hop_hasCell g a b : hop g a b → hasCell g b = true.
Proof. intros (d & _ & _ & Hp)%hop_iff. by apply isPassable_hasCell. Qed.

Lemma hop_key g a b : hop g a b → hash b ∈ Map_keys (cells g).
Proof.
  intros H%hop_hasCell. unfold hasCell in H.
  destruct (decide (hash b ∈ Map_keys (cells g))) as [|Hn]; [done|].
  apply Map_get_None in Hn. apply Map_has_false in Hn. congruence.
Qed.

Lemma hop_distance_one g a b : hop g a b → (distance a b == 1)%Q.
Proof. intros (d & Hd & -> & _)%hop_iff. by apply distance_direction. Qed.

Lemma hop_ne g a b : hop g a b → a ≠ b.
Proof. intros (d & Hd & -> & _)%hop_iff Heq. by apply (add_direction_ne a d). Qed.

Lemma hop_dec g a b : Decision (hop g a b).
Proof. unfold hop. apply _. Qed.

(** The straight-line distance never exceeds the number of hops. *)
Lemma hops_distance g n a b : hops g n a b → (distance a b <= inject_Z (Z.of_nat n))%Q.
Proof.
  induction 1 as [a|n a b c _ IH Hh].
  - assert (distance a a == 0)%Q as -> by (by apply distance_zero). apply Qle_refl.
  - pose proof (distance_triangle a b c) as Ht.
    apply hop_distance_one in Hh.
    rewrite Nat2Z.inj_succ. unfold Z.succ. rewrite inject_Z_plus.
    change (inject_Z 1) with 1%Q. lra.
Qed.

Lemma hops_app g n m a b c : hops g n a b → hops g m b c → hops g (n + m) a c.
Proof.
  intros Hab Hbc. induction Hbc as [b|m b c d _ IH Hh].
  - by rewrite Nat.add_0_r.
  - rewrite Nat.add_succ_r. eapply hops_S; eauto.
Qed.

Lemma hops_first g n a c :
  hops g (S n) a c → ∃ b, hop g a b ∧ hops g n b c.
Proof.
  revert c. induction n as [|n IH]; intros c H.
  - inversion H as [|n' a' b c' Hab Hbc]; subst. inversion Hab; subst.
    exists c. split; [done | constructor].
  - inversion H as [|n' a' b c' Hab Hbc]; subst.
    destruct (IH _ Hab) as (b' & Hh & Hrest). exists b'. split; [done|].
    by eapply hops_S.
Qed.

Lemma hops_cons g n a b c : hop g a b → hops g n b c → hops g (S n) a c.
Proof.
  intros Hab Hbc. change (S n) with (1 + n)%nat.
  eapply hops_app; [|done]. eapply hops_S; [constructor | done].
Qed.

Lemma hopsb_spec g n a b : hopsb g n a b = true ↔ hops g n a b.
Proof.
  revert a. induction n as [|n IH]; intros a; cbn [hopsb].
  - rewrite bool_decide_eq_true. split.
    + intros ->. constructor.
    + by inversion 1.
  - rewrite existsb_exists. split.
    + intros (a' & Hin%list_elem_of_In & Hr). apply IH in Hr.
      by apply (hops_cons g n a a' b).
    + intros (a' & Hh & Hr)%hops_first. exists a'. split.
      * by apply list_elem_of_In.
      * by apply IH.
Qed.

#[global] Instance hops_dec g n a b : Decision (hops g n a b).
Proof.
  destruct (hopsb g n a b) eqn:H.
  - left. by apply hopsb_spec.
  - right. intros Hn%hopsb_spec. congruence.
Defined.

(** A decidable property that holds somewhere holds at a least number. *)
Lemma least_witness (P : nat → Prop) `{∀ n, Decision (P n)} n :
  P n → ∃ m, P m ∧ (m ≤ n)%nat ∧ ∀ k, P k → (m ≤ k)%nat.
Proof.
  induction n as [n IH] using lt_wf_ind. intros Hn.
  destruct (decide (Exists P (seq 0 n))) as [(m & Hlt & Hm)%Exists_exists|Hmin].
  - apply elem_of_seq in Hlt.
    destruct (IH m ltac:(lia) Hm) as (m' & Hm' & Hle & Hleast).
    exists m'. split; [done|]. split; [lia | done].
  - exists n. split; [done|]. split; [done|]. intros k Hk.
    destruct (decide (n ≤ k)%nat); [done|]. exfalso. apply Hmin.
    apply Exists_exists. exists k. split; [apply elem_of_seq; lia | done].
Qed.

(** Among the hop counts of the walks from [a] to [b] there is a least. *)
Lemma hop_distance_exists g n a b :
  hops g n a b → ∃ m, hop_distance g a b m ∧ (m ≤ n)%nat.
Proof.
  intros Hn. destruct (least_witness (λ m, hops g m a b) n Hn) as (m & Hm & Hle & Hl).
  exists m. by split.
Qed.

Lemma hop_distance_unique g a b n m :
  hop_distance g a b n → hop_distance g a b m → n = m.
Proof.
  intros [Hn Hln] [Hm Hlm]. specialize (Hln _ Hm). specialize (Hlm _ Hn). lia.
Qed.

Lemma hop_distance_start g a : hop_distance g a a 0.
Proof. split; [constructor | lia]. Qed.

Lemma hop_distance_zero g a b : hop_distance g a b 0 → a = b.
Proof. intros [H _]. by inversion H. Qed.

(** The cell before last on a shortest walk is one hop closer. *)
Lemma hop_distance_pred g a c n :
  hop_distance g a c (S n) → ∃ b, hop_distance g a b n ∧ hop g b c.
Proof.
  intros [H Hl]. inversion H as [|n' a' b c' Hab Hbc]; subst.
  exists b. split; [|done]. split; [done|]. intros m Hm.
  specialize (Hl (S m) (hops_S _ _ _ _ _ Hm Hbc)). lia.
Qed.

Lemma hop_distance_step g a b c n m :
  hop_distance g a b n → hop g b c → hop_distance g a c m → (m ≤ S n)%nat.
Proof.
  intros [Hb _] Hh [_ Hl]. apply Hl. by eapply hops_S.
Qed.

(** ** The flood fill *)

(** One pass of the innermost loop over candidate neighbours: the fresh
    ones are appended to layer [k], in order and once each. *)
Lemma flood_neighbors_spec k cands st layer :
  fringes st !! k = Some layer →
  ∃ added,
    fringes (foldl (flood_neighbor k) st cands) = <[k := layer ++ added]> (fringes st) ∧
    (∀ key, key ∈ visited (foldl (flood_neighbor k) st cands) ↔
       key ∈ visited st ∨ ∃ c, c ∈ cands ∧ key = hash c) ∧
    (∀ c, c ∈ added ↔ c ∈ cands ∧ hash c ∉ visited st).
Proof.
  revert st layer. induction cands as [|c cands IH]; intros st layer Hk; cbn [foldl].
  - exists []. rewrite app_nil_r, list_insert_id by done. split; [done|]. split.
    + intros key. split; [by left|]. intros [?|(c & Hc & _)]; [done|].
      by apply elem_of_nil in Hc.
    + intros c. split; [intros Hc | intros [Hc _]]; by apply elem_of_nil in Hc.
  - unfold flood_neighbor at 2 4. destruct (decide (hash c ∈ visited st)) as [Hv|Hv].
    + destruct (IH st layer Hk) as (added & Hf & Hvis & Hadd).
      exists added. split; [done|]. split.
      * intros key. rewrite Hvis. split.
        -- intros [?|(c' & Hc' & ->)]; [by left|]. right. exists c'.
           split; [|done]. apply elem_of_cons. by right.
        -- intros [?|(c' & [->|Hc']%elem_of_cons & ->)]; [by left | by left |].
           right. by exists c'.
      * intros c'. rewrite Hadd. split.
        -- intros [Hc' Hn]. split; [|done]. apply elem_of_cons. by right.
        -- intros [[->|Hc']%elem_of_cons Hn]; [done | by split].
    + set (st1 := {| visited := {[hash c]} ∪ visited st;
                     fringes := alter (λ fringe, fringe ++ [c]) k (fringes st) |}).
      assert (fringes st1 !! k = Some (layer ++ [c])) as Hk1.
      { cbn. by rewrite list_lookup_alter_eq, Hk. }
      destruct (IH st1 (layer ++ [c]) Hk1) as (added & Hf & Hvis & Hadd).
      exists (c :: added). split; [|split].
      * rewrite Hf. cbn [fringes st1].
        assert (alter (λ fringe, fringe ++ [c]) k (fringes st)
                = <[k := layer ++ [c]]> (fringes st)) as ->.
        { apply list_eq. intros i. destruct (decide (i = k)) as [->|Hne].
          - rewrite list_lookup_alter_eq, Hk.
            by rewrite list_lookup_insert_eq by (by eapply lookup_lt_Some).
          - by rewrite list_lookup_alter_ne, list_lookup_insert_ne. }
        rewrite list_insert_insert_eq. by rewrite <- app_assoc.
      * intros key. rewrite Hvis. cbn [visited st1].
        rewrite elem_of_union, elem_of_singleton. split.
        -- intros [[->|?]|(c' & Hc' & ->)].
           ++ right. exists c. split; [|done]. apply elem_of_cons. by left.
           ++ by left.
           ++ right. exists c'. split; [|done]. apply elem_of_cons. by right.
        -- intros [?|(c' & [->|Hc']%elem_of_cons & ->)].
           ++ left. by right.
           ++ left. by left.
           ++ right. by exists c'.
      * intros c'. rewrite elem_of_cons, Hadd. cbn [visited st1].
        rewrite not_elem_of_union, not_elem_of_singleton. split.
        -- intros [->|[Hc' [_ Hn]]].
           ++ split; [|done]. apply elem_of_cons. by left.
           ++ split; [|done]. apply elem_of_cons. by right.
        -- intros [[->|Hc']%elem_of_cons Hn]; [by left|].
           destruct (decide (c' = c)) as [->|Hne]; [by left|].
           right. split; [done|]. split; [|done].
           intros H%hash_inj. done.
Qed.

Lemma flood_coords_flatten g k coords st :
  foldl (flood_coord g k) st coords =
    foldl (flood_neighbor k) st (concat ((λ b, getNeighbors g b true) <$> coords)).
Proof.
  revert st. induction coords as [|b coords IH]; intros st; cbn [foldl]; [done|].
  cbn [fmap list_fmap concat]. rewrite foldl_app. apply IH.
Qed.

Lemma flood_inv_init g start :
  flood_inv g start 0 {| visited := {[hash start]}; fringes := [[start]] |}.
Proof.
  split; [done|]. split; [done|]. split.
  - intros [|i] layer; [|done]. intros [= <-] c.
    rewrite list_elem_of_singleton. split.
    + intros ->. apply hop_distance_start.
    + intros H. symmetry. by apply hop_distance_zero in H.
  - intros key. cbn [visited]. rewrite elem_of_singleton. split.
    + intros ->. exists start, 0%nat. split; [lia|]. split; [apply hop_distance_start | done].
    + intros (c & i & Hi & Hd & ->). assert (i = 0)%nat as -> by lia.
      by apply hop_distance_zero in Hd as ->.
Qed.

Lemma flood_inv_step g start n st :
  flood_inv g start n st →
  flood_inv g start (S n) (flood_layer g st (Z.of_nat (S n))).
Proof.
  intros (Hlen & H0 & Hlayers & Hvis). unfold flood_layer.
  replace (Z.to_nat (Z.of_nat (S n) - 1)) with n by lia. rewrite Nat2Z.id.
  cbn [fringes visited].
  destruct (lookup_lt_is_Some_2 (fringes st) n ltac:(lia)) as [prev Hprev].
  rewrite lookup_app_l by lia. rewrite Hprev. cbn [default from_option id].
  rewrite flood_coords_flatten.
  set (cands := concat ((λ b, getNeighbors g b true) <$> prev)).
  set (st0 := {| visited := visited st; fringes := fringes st ++ [[]] |}).
  assert (fringes st0 !! S n = Some []) as Hnew.
  { cbn. rewrite lookup_app_r by lia. by rewrite Hlen, Nat.sub_diag. }
  destruct (flood_neighbors_spec (S n) cands st0 [] Hnew) as (added & Hf & Hv & Hadd).
  cbn [app] in Hf. cbn [visited st0] in Hv, Hadd.
  assert (fringes (foldl (flood_neighbor (S n)) st0 cands) = fringes st ++ [added]) as Hf'.
  { rewrite Hf. cbn [fringes st0]. rewrite <- Hlen.
    replace (length (fringes st)) with (length (fringes st) + 0)%nat by lia.
    by rewrite insert_app_r. }
  assert (∀ c, c ∈ cands ↔ ∃ b, hop_distance g start b n ∧ hop g b c) as Hcands.
  { intros c. unfold cands. rewrite elem_of_concat. split.
    - intros (l & Hc & (b & -> & Hb)%list_elem_of_fmap).
      exists b. split; [by apply (Hlayers n prev) | done].
    - intros (b & Hb & Hh). exists (getNeighbors g b true). split; [done|].
      apply list_elem_of_fmap. exists b. split; [done|]. by apply (Hlayers n prev). }
  assert (∀ c, c ∈ added ↔ hop_distance g start c (S n)) as Hexact.
  { intros c. rewrite Hadd, Hcands, Hvis. split.
    - intros [(b & [Hb _] & Hh) Hnv]. split; [by eapply hops_S|].
      intros m Hm. destruct (hop_distance_exists g m start c Hm) as (m' & Hd & Hle).
      destruct (decide (S n ≤ m)%nat); [done|]. exfalso. apply Hnv.
      exists c, m'. split; [lia | done].
    - intros Hd. split; [by apply hop_distance_pred|].
      intros (c' & i & Hi & Hd' & ->%hash_inj).
      pose proof (hop_distance_unique _ _ _ _ _ Hd Hd'). lia. }
  split; [|split; [|split]].
  - rewrite Hf', length_app. cbn. lia.
  - rewrite Hf'. rewrite lookup_app_l by lia. done.
  - intros i layer. rewrite Hf'. intros Hi c.
    destruct (decide (i < length (fringes st))%nat) as [Hlt|Hge].
    + rewrite lookup_app_l in Hi by done. by apply Hlayers.
    + rewrite lookup_app_r in Hi by lia.
      destruct (i - length (fringes st))%nat as [|j] eqn:Hj; [|done].
      injection Hi as <-. assert (i = S n) as -> by lia. apply Hexact.
  - intros key. rewrite Hv, Hvis. split.
    + intros [(c & i & Hi & Hd & ->)|(c & Hc & ->)].
      * exists c, i. split; [lia | done].
      * apply Hcands in Hc as (b & [Hb _] & Hh).
        destruct (hop_distance_exists g (S n) start c) as (m & Hd & Hle);
          [by eapply hops_S|].
        by exists c, m.
    + intros (c & i & Hi & Hd & ->).
      destruct (decide (i ≤ n)%nat) as [Hle|Hgt].
      * left. by exists c, i.
      * assert (i = S n) as -> by lia. right. exists c. split; [|done].
        apply Hexact in Hd. by apply Hadd in Hd as [? _].
Qed.

Lemma flood_inv_loop g start n :
  flood_inv g start n
    (foldl (flood_layer g) {| visited := {[hash start]}; fringes := [[start]] |}
       (upto 1 (Z.of_nat n))).
Proof.
  unfold upto. replace (Z.of_nat n - 1 + 1) with (Z.of_nat n) by lia.
  induction n as [|n IH].
  - apply flood_inv_init.
  - rewrite seqZ_S, foldl_app. cbn [foldl].
    replace (1 + Z.of_nat n) with (Z.of_nat (S n)) by lia.
    by apply flood_inv_step.
Qed.

Lemma Qfloor_ge z q : (inject_Z z <= q)%Q ↔ z ≤ Qfloor q.
Proof.
  split.
  - intros H%Qfloor_resp_le. by rewrite Qfloor_Z in H.
  - intros H. rewrite Zle_Qle in H. pose proof (Qfloor_le q). lra.
Qed.

Lemma getReachable_layers g start d :
  (0 <= d)%Q →
  ∃ st, flood_inv g start (Z.to_nat (Qfloor d)) st ∧
        getReachable g start d = concat (fringes st).
Proof.
  intros Hd. eexists. split; [|reflexivity].
  assert (0 ≤ Qfloor d) as Hfl by (by apply (Qfloor_ge 0)).
  rewrite <- (Z2Nat.id (Qfloor d)) at 2 by done. apply flood_inv_loop.
Qed.

(** ** The query claims *)

(** C2.  For a budget [d >= 0], [getReachable] holds exactly the coordinates
    whose shortest passable-hop count from the start is at most [d].  It is
    the concatenation of [d + 1] layers, layer [i] holding exactly the
    coordinates at [i] shortest hops, so the start comes first.  A hop
    enters a neighbouring cell that is in the grid and passable
    ([passable_hop]). *)
Theorem getReachable_exact (g : Grid) (start : Coord) (d : Q) :
  (0 <= d)%Q →
  (∀ c, c ∈ getReachable g start d ↔
     ∃ n, hop_distance g start c n ∧ (inject_Z (Z.of_nat n) <= d)%Q) ∧
  (∃ layers,
     getReachable g start d = concat layers ∧
     length layers = S (Z.to_nat (Qfloor d)) ∧
     ∀ i layer, layers !! i = Some layer →
       ∀ c, c ∈ layer ↔ hop_distance g start c i) ∧
  head (getReachable g start d) = Some start ∧
  (∀ a b, hop g a b ↔ passable_hop g a b).
Proof.
  intros Hd. destruct (getReachable_layers g start d Hd)
    as (st & (Hlen & H0 & Hlayers & _) & ->).
  assert (0 ≤ Qfloor d) as Hfl by (by apply (Qfloor_ge 0)).
  split; [|split; [|split; [|apply hop_passable_hop]]].
  - intros c. rewrite elem_of_concat. split.
    + intros (l & Hc & (i & Hi)%list_elem_of_lookup).
      exists i. split; [by apply (Hlayers i l)|].
      apply lookup_lt_Some in Hi. apply Qfloor_ge. lia.
    + intros (n & Hn & Hle%Qfloor_ge).
      destruct (lookup_lt_is_Some_2 (fringes st) n ltac:(lia)) as [l Hl].
      exists l. split; [by apply (Hlayers n l)|].
      apply list_elem_of_lookup. by exists n.
  - exists (fringes st). by split.
  - destruct (fringes st) as [|l ls]; [done|]. by injection H0 as ->.
Qed.

Lemma getReachable_exact_witness :
  head (getReachable sample_grid (mkCoord 0 0 0) 1) = Some (mkCoord 0 0 0).
Proof.
  refine (proj1 (proj2 (proj2 (getReachable_exact sample_grid (mkCoord 0 0 0) 1 _)))).
  by vm_compute.
Defined.

(** C8, as amended.  In a grid whose cells are stored under the hash of
    their own coordinate, the ring of radius 0 is [[center]] when the center
    is a cell of the grid and empty when it is not.  For every grid, the
    spiral is the center followed by the rings of radius 1 up to
    [maxRadius], in that order. *)
Theorem ring_zero_and_spiral (g : Grid) (center : Coord) (maxRadius : Q) :
  (grid_wf g → hasCell g center = true → getRing g center 0 = [center]) ∧
  (grid_wf g → hasCell g center = false → getRing g center 0 = []) ∧
  getSpiral g center maxRadius =
    [center] ++
    concat ((λ r, getRing g center (inject_Z r)) <$> upto 1 (Qfloor maxRadius)).
Proof.
  split; [|split].
  - intros Hwf Hc. by rewrite getRing_zero, Hc.
  - intros Hwf Hc. by rewrite getRing_zero, Hc.
  - apply getSpiral_rings.
Qed.

Lemma sample_grid_wf : grid_wf sample_grid.
Proof.
  split.
  - unfold Map_wf, Map_keys. refine (@bool_decide_unpack _ (NoDup_dec _) _).
    vm_compute. exact I.
  - intros k cell Hin. unfold sample_grid, sample_map in Hin. cbn [cells] in Hin.
    repeat (apply elem_of_cons in Hin as [[= -> ->]|Hin]; [reflexivity|]).
    by apply elem_of_nil in Hin.
Defined.

Lemma ring_zero_and_spiral_witness :
  getRing sample_grid (mkCoord 0 0 0) 0 = [mkCoord 0 0 0].
Proof.
  refine (proj1 (ring_zero_and_spiral sample_grid (mkCoord 0 0 0) 2) _ _).
  - exact sample_grid_wf.
  - vm_compute. reflexivity.
Defined.

(** C8, as stated, fails: the ring of radius 0 around a coordinate that is
    not a cell of the grid is empty. *)
Lemma ring_zero_counterexample :
  getRing (createHexGrid 1 pointy []) (mkCoord 5 (-5) 0) 0 ≠ [mkCoord 5 (-5) 0].
Proof. vm_compute. discriminate. Qed.

(** * Properties of the path finder *)

(** ** The priority queue *)

Lemma elem_of_insert_sorted e e' items :
  e' ∈ insert_sorted e items ↔ e' = e ∨ e' ∈ items.
Proof.
  induction items as [|e0 items IH]; cbn [insert_sorted].
  - rewrite list_elem_of_singleton. split; [by left|].
    intros [?|H]; [done | by apply elem_of_nil in H].
  - destruct (Qle_bool (priority e) (priority e0)).
    + by rewrite elem_of_cons.
    + rewrite !elem_of_cons, IH. tauto.
Qed.

Lemma elem_of_sort_items e items : e ∈ sort_items items ↔ e ∈ items.
Proof.
  unfold sort_items. induction items as [|e0 items IH]; cbn [foldr]; [done|].
  by rewrite elem_of_insert_sorted, elem_of_cons, IH.
Qed.

Lemma length_insert_sorted e items : length (insert_sorted e items) = S (length items).
Proof.
  induction items as [|e0 items IH]; cbn [insert_sorted]; [done|].
  destruct (Qle_bool (priority e) (priority e0)); cbn; [done | by rewrite IH].
Qed.

Lemma length_sort_items items : length (sort_items items) = length items.
Proof.
  unfold sort_items. induction items as [|e0 items IH]; cbn [foldr]; [done|].
  rewrite length_insert_sorted. cbn. by rewrite IH.
Qed.

Lemma insert_sorted_sorted e items :
  sorted_items items → sorted_items (insert_sorted e items).
Proof.
  unfold sorted_items. induction items as [|e0 items IH]; intros Hs; cbn [insert_sorted].
  - by repeat constructor.
  - apply StronglySorted_inv in Hs as [Hs Hall].
    destruct (Qle_bool (priority e) (priority e0)) eqn:Hle.
    + apply Qle_bool_iff in Hle. constructor; [by constructor|].
      constructor; [done|]. eapply Forall_impl; [exact Hall|].
      intros e1 H1. cbn in H1. lra.
    + assert (priority e0 <= priority e)%Q as Hge.
      { destruct (Qlt_le_dec (priority e) (priority e0)) as [Hlt|Hge]; [|done].
        apply Qlt_le_weak, Qle_bool_iff in Hlt. congruence. }
      constructor; [by apply IH|].
      apply Forall_forall. intros e1 [->|H1]%elem_of_insert_sorted; [done|].
      by eapply Forall_forall in Hall.
Qed.

Lemma sort_items_sorted items : sorted_items (sort_items items).
Proof.
  unfold sort_items. induction items as [|e0 items IH]; cbn [foldr].
  - constructor.
  - by apply insert_sorted_sorted.
Qed.

Lemma elem_of_enqueue e items c p :
  e ∈ enqueue items c p ↔ e ∈ items ∨ e = mkItem c p.
Proof.
  unfold enqueue. by rewrite elem_of_sort_items, elem_of_app, list_elem_of_singleton.
Qed.

Lemma length_enqueue items c p : length (enqueue items c p) = S (length items).
Proof. unfold enqueue. rewrite length_sort_items, length_app. cbn. lia. Qed.

Lemma enqueue_sorted items c p : sorted_items (enqueue items c p).
Proof. apply sort_items_sorted. Qed.

Lemma sorted_head_least e e' items :
  sorted_items (e :: items) → e' ∈ e :: items → (priority e <= priority e')%Q.
Proof.
  intros [_ Hall]%StronglySorted_inv [->|Hin]%elem_of_cons; [apply Qle_refl|].
  by eapply Forall_forall in Hall.
Qed.

Lemma sorted_tail e items : sorted_items (e :: items) → sorted_items items.
Proof. by intros [? _]%StronglySorted_inv. Qed.

(** ** Paths *)

Lemma is_path_snoc g a b c path :
  is_path g a b path → hop g b c → is_path g a c (path ++ [c]).
Proof.
  revert a. induction path as [|p path IH]; intros a Hp Hh; [done|].
  destruct path as [|p' path].
  - destruct Hp as [-> ->]. cbn. done.
  - destruct Hp as (-> & Hh' & Hp). cbn [app is_path].
    split; [done|]. split; [done|]. by apply (IH p').
Qed.

Lemma is_path_hops g a b path : is_path g a b path → hops g (length path - 1) a b.
Proof.
  revert a. induction path as [|p path IH]; intros a Hp; [done|].
  destruct path as [|p' path].
  - destruct Hp as [-> <-]. constructor.
  - destruct Hp as (-> & Hh & Hp). apply IH in Hp.
    cbn [length] in *. replace (S (S (length path)) - 1)%nat with (S (length path)) by lia.
    replace (S (length path) - 1)%nat with (length path) in Hp by lia.
    by eapply hops_cons.
Qed.

Lemma getPathCost_default path :
  (getPathCost path defaultCostFn == inject_Z (Z.of_nat (length path - 1)))%Q.
Proof.
  induction path as [|a path IH]; [reflexivity|].
  destruct path as [|b path]; [reflexivity|].
  cbn [getPathCost]. rewrite IH. unfold defaultCostFn. cbn [length].
  replace (S (S (length path)) - 1)%nat with (S (S (length path) - 1)) by lia.
  rewrite Nat2Z.inj_succ. unfold Z.succ. rewrite inject_Z_plus.
  change (inject_Z 1) with 1%Q. lra.
Qed.

(** ** Recorded costs *)

Lemma inject_nat_inj n m :
  (inject_Z (Z.of_nat n) == inject_Z (Z.of_nat m))%Q → n = m.
Proof. intros H. apply (proj1 (inject_Z_injective _ _)) in H. lia. Qed.

Lemma inject_nat_le n m :
  (inject_Z (Z.of_nat n) <= inject_Z (Z.of_nat m))%Q ↔ (n ≤ m)%nat.
Proof. rewrite <- Zle_Qle. lia. Qed.

Lemma inject_nat_lt n m :
  (inject_Z (Z.of_nat n) < inject_Z (Z.of_nat m))%Q ↔ (n < m)%nat.
Proof. rewrite <- Zlt_Qlt. lia. Qed.

Lemma inject_nat_succ n :
  (inject_Z (Z.of_nat (n + 1)) == inject_Z (Z.of_nat n) + 1)%Q.
Proof.
  rewrite Nat2Z.inj_add, inject_Z_plus. reflexivity.
Qed.

Lemma gcost_fun G v n m : gcost G v n → gcost G v m → n = m.
Proof.
  intros (q & Hq & Hn) (q' & Hq' & Hm). rewrite Hq in Hq'. injection Hq' as <-.
  apply inject_nat_inj. by rewrite <- Hn, <- Hm.
Qed.

Lemma gcost_insert_eq G v q n :
  (q == inject_Z (Z.of_nat n))%Q → gcost (<[hash v := q]> G) v n.
Proof. intros Hq. exists q. by rewrite lookup_insert_eq. Qed.

Lemma gcost_insert_ne G v w q n :
  v ≠ w → gcost (<[hash w := q]> G) v n ↔ gcost G v n.
Proof.
  intros Hne. unfold gcost. rewrite lookup_insert_ne; [done|].
  intros H%hash_inj. done.
Qed.

Lemma gcost_cost_of G v n : gcost G v n → (cost_of G (hash v) == inject_Z (Z.of_nat n))%Q.
Proof. intros (q & Hq & Hn). unfold cost_of. by rewrite Hq. Qed.

Lemma gcost_is_Some G v n : gcost G v n → is_Some (G !! hash v).
Proof. intros (q & Hq & _). by eexists. Qed.

Lemma Qltb_spec a b : Qltb a b = true ↔ (a < b)%Q.
Proof.
  unfold Qltb. rewrite negb_true_iff, <- not_true_iff_false, Qle_bool_iff.
  split; [apply Qnot_le_lt | apply Qlt_not_le].
Qed.

Lemma Qltb_false a b : Qltb a b = false ↔ (b <= a)%Q.
Proof. unfold Qltb. rewrite negb_false_iff. apply Qle_bool_iff. Qed.

(** ** One neighbour *)

(** With the default options, looking at the neighbour [x] of [current]
    either changes nothing, because [x] already has a cost within one step
    of that of [current], or records the cost of [current] plus one. *)
Lemma relax_cases g start goal current done st x nc :
  search_inv g start goal (Some current) done st →
  gcost (costSoFar st) current nc →
  (relax defaultHeuristic defaultCostFn goal current st x = st ∧
   ∃ nx, gcost (costSoFar st) x nx ∧ (nx ≤ nc + 1)%nat) ∨
  (∃ q p,
     relax defaultHeuristic defaultCostFn goal current st x =
       {| frontier := enqueue (frontier st) x p;
          cameFrom := <[hash x := Some current]> (cameFrom st);
          costSoFar := <[hash x := q]> (costSoFar st) |} ∧
     (q == inject_Z (Z.of_nat (nc + 1)))%Q ∧
     (p == inject_Z (Z.of_nat (nc + 1)) + distance x goal)%Q ∧
     (costSoFar st !! hash x = None ∨
      ∃ nx, gcost (costSoFar st) x nx ∧ (nc + 1 < nx)%nat)).
Proof.
  intros Hinv Hc. pose proof (gcost_cost_of _ _ _ Hc) as Hcost.
  remember (relax defaultHeuristic defaultCostFn goal current st x) as r eqn:Hr.
  unfold relax, defaultCostFn, defaultHeuristic in Hr.
  set (newCost := (cost_of (costSoFar st) (hash current) + 1)%Q) in Hr.
  assert (newCost == inject_Z (Z.of_nat (nc + 1)))%Q as Hnew.
  { unfold newCost. rewrite Hcost, inject_nat_succ. reflexivity. }
  destruct (costSoFar st !! hash x) as [qx|] eqn:Hx.
  - destruct (inv_walk _ _ _ _ _ _ Hinv _ _ Hx) as (v & nx & Hv%hash_inj & Hqx & _).
    subst v. assert (gcost (costSoFar st) x nx) as Hgx by (by exists qx).
    rewrite bool_decide_eq_true_2 in Hr by (by eexists). cbn [negb orb] in Hr.
    unfold cost_of in Hr. rewrite Hx in Hr. cbn [default from_option id] in Hr.
    destruct (Qltb newCost qx) eqn:Hlt.
    + right. exists newCost, (newCost + distance x goal)%Q.
      split; [done|]. split; [done|]. split; [by rewrite Hnew|].
      right. exists nx. split; [done|].
      apply Qltb_spec in Hlt. rewrite Hnew, Hqx in Hlt. by apply inject_nat_lt.
    + left. split; [done|]. exists nx. split; [done|].
      apply Qltb_false in Hlt. rewrite Hnew, Hqx in Hlt. by apply inject_nat_le.
  - rewrite bool_decide_eq_false_2 in Hr by (by intros [? ?]). cbn [negb orb] in Hr.
    right. exists newCost, (newCost + distance x goal)%Q.
    split; [done|]. split; [done|]. split; [by rewrite Hnew | by left].
Qed.

Lemma search_keys_nodup g start : NoDup (search_keys g start).
Proof. apply NoDup_remove_dups. Qed.

Lemma search_keys_start g start : hash start ∈ search_keys g start.
Proof. unfold search_keys. rewrite elem_of_remove_dups. apply elem_of_cons. by left. Qed.

Lemma search_keys_hop g start a b : hop g a b → hash b ∈ search_keys g start.
Proof.
  intros H%hop_key. unfold search_keys. rewrite elem_of_remove_dups.
  apply elem_of_cons. by right.
Qed.

Lemma search_size_bound g start goal current done st :
  search_inv g start goal current done st →
  (base.size (costSoFar st) ≤ length (search_keys g start))%nat.
Proof.
  intros Hinv.
  rewrite <- (size_dom (D := gset string)).
  rewrite <- (size_list_to_set (C := gset string) (search_keys g start))
    by apply search_keys_nodup.
  apply subseteq_size. intros k Hk%elem_of_dom.
  apply elem_of_list_to_set. by apply (inv_keys _ _ _ _ _ _ Hinv).
Qed.

(** The invariant survives one neighbour. *)
Lemma relax_inv g start goal current done st x :
  search_inv g start goal (Some current) done st →
  hop g current x →
  search_inv g start goal (Some current) (done ++ [x])
    (relax defaultHeuristic defaultCostFn goal current st x).
Proof.
  intros Hinv Hhop.
  destruct (inv_current _ _ _ _ _ _ Hinv current eq_refl) as [nc Hc].
  assert (current ≠ x) as Hcx by (by eapply hop_ne).
  destruct (relax_cases g start goal current done st x nc Hinv Hc)
    as [[-> (nx & Hx & Hle)]|(q & p & -> & Hq & Hp & Hwas)].
  - (* nothing changes *)
    destruct Hinv as [H1 H2 H3 H4 H5 H6 H7 H8 H9 H10 H11].
    split; try done.
    intros v n Hv Hd. destruct (H7 v n Hv Hd) as [Hleft|Hright]; [by left|].
    right. intros w Hw Hdone.
    destruct (decide (v = current)) as [->|Hne].
    + specialize (Hdone eq_refl). apply elem_of_app in Hdone as [Hdone|Hdone].
      * by apply Hright.
      * apply list_elem_of_singleton in Hdone as ->.
        rewrite (gcost_fun _ _ _ _ Hv Hc). by exists nx.
    + apply Hright; [done|]. by intros [= ->].
  - (* the cost of [x] is recorded or improved *)
    assert (x ≠ start) as Hxs.
    { intros ->. destruct Hwas as [Hnone|(nx & Hnx & Hlt)].
      - rewrite (inv_start _ _ _ _ _ _ Hinv) in Hnone. done.
      - assert (gcost (costSoFar st) start 0) as H0.
        { exists 0%Q. split; [apply (inv_start _ _ _ _ _ _ Hinv) | reflexivity]. }
        pose proof (gcost_fun _ _ _ _ Hnx H0). lia. }
    assert (gcost (<[hash x := q]> (costSoFar st)) x (nc + 1)) as Hgx
      by (by apply gcost_insert_eq).
    assert (∀ v n, gcost (costSoFar st) v n →
      ∃ n', gcost (<[hash x := q]> (costSoFar st)) v n' ∧ (n' ≤ n)%nat) as Hmono.
    { intros v n Hv. destruct (decide (v = x)) as [->|Hne].
      - exists (nc + 1)%nat. split; [done|].
        destruct Hwas as [Hnone|(nx & Hnx & Hlt)].
        + destruct Hv as (? & Hv & _). congruence.
        + rewrite (gcost_fun _ _ _ _ Hv Hnx). lia.
      - exists n. split; [by apply gcost_insert_ne | done]. }
    assert (hops g nc start current) as Hwalk.
    { destruct Hc as (qc & Hqc & Hnc).
      destruct (inv_walk _ _ _ _ _ _ Hinv _ _ Hqc) as (v & n & Hv%hash_inj & Hn & Hh).
      subst v. rewrite Hnc in Hn. apply inject_nat_inj in Hn. by subst n. }
    destruct Hinv as [H1 H2 H3 H4 H5 H6 H7 H8 H9 H10 H11].
    split; cbn [frontier cameFrom costSoFar].
    + done.
    + rewrite lookup_insert_ne; [done|]. intros H%hash_inj. done.
    + intros k q' Hk. destruct (decide (k = hash x)) as [->|Hne].
      * rewrite lookup_insert_eq in Hk. injection Hk as <-.
        exists x, (nc + 1)%nat. split; [done|]. split; [done|].
        rewrite Nat.add_1_r. by eapply hops_S.
      * rewrite lookup_insert_ne in Hk by done. by apply H3.
    + intros v n Hvs Hv. destruct (decide (v = x)) as [->|Hne].
      * rewrite (gcost_fun _ _ _ _ Hv Hgx). exists current, nc.
        rewrite lookup_insert_eq. split; [done|]. split; [done|].
        split; [by apply gcost_insert_ne | done].
      * apply gcost_insert_ne in Hv; [|done].
        destruct (H4 v n Hvs Hv) as (u & m & Hcf & Hh & Hu & Hm).
        destruct (Hmono u m Hu) as (m' & Hu' & Hm').
        exists u, m'. rewrite lookup_insert_ne by (intros H%hash_inj; done).
        split; [done|]. split; [done|]. split; [done | lia].
    + intros e [He| ->]%elem_of_enqueue.
      * destruct (H5 e He) as (n & Hn & Hgoal).
        destruct (Hmono _ _ Hn) as (n' & Hn' & Hle).
        exists n'. split; [done|]. intros Hg. specialize (Hgoal Hg).
        apply inject_nat_le in Hle. lra.
      * cbn [item priority]. exists (nc + 1)%nat. split; [done|]. intros _.
        pose proof (distance_nonneg x goal). lra.
    + apply enqueue_sorted.
    + intros v n Hv Hd. destruct (decide (v = x)) as [->|Hne].
      * left. exists (mkItem x p). split; [apply elem_of_enqueue; by right|].
        split; [done|]. cbn [priority].
        rewrite (gcost_fun _ _ _ _ Hv Hgx), Hp. apply Qle_refl.
      * apply gcost_insert_ne in Hv; [|done].
        destruct (H7 v n Hv Hd) as [(e & He & Hitem & Hprio)|Hright].
        -- left. exists e. split; [apply elem_of_enqueue; by left | done].
        -- right. intros w Hw Hdone. destruct (decide (w = x)) as [->|Hwx].
           ++ exists (nc + 1)%nat. split; [done|].
              destruct (decide (v = current)) as [->|Hvc].
              ** rewrite (gcost_fun _ _ _ _ Hv Hc). lia.
              ** destruct (Hright x Hw) as (m & Hm & Hle); [by intros [= ->]|].
                 destruct Hwas as [Hnone|(nx & Hnx & Hlt)].
                 --- destruct Hm as (? & Hm & _). congruence.
                 --- rewrite (gcost_fun _ _ _ _ Hm Hnx) in Hle. lia.
           ++ destruct (Hright w Hw) as (m & Hm & Hle).
              { intros Heq. specialize (Hdone Heq).
                apply elem_of_app in Hdone as [?|Hx%list_elem_of_singleton]; done. }
              exists m. split; [by apply gcost_insert_ne | done].
    + intros n Hn. destruct (decide (goal = x)) as [->|Hne].
      * exists (mkItem x p). split; [apply elem_of_enqueue; by right | done].
      * apply gcost_insert_ne in Hn; [|done].
        destruct (H8 n Hn) as (e & He & Hitem).
        exists e. split; [apply elem_of_enqueue; by left | done].
    + intros c [= <-]. exists nc. by apply gcost_insert_ne.
    + intros k Hk. destruct (decide (k = hash x)) as [->|Hne].
      * by eapply search_keys_hop.
      * rewrite lookup_insert_ne in Hk by done. by apply H10.
    + intros v n Hv. destruct Hwas as [Hnone|(nx & Hnx & Hlt)].
      * rewrite map_size_insert_None by done.
        destruct (decide (v = x)) as [->|Hne].
        -- rewrite (gcost_fun _ _ _ _ Hv Hgx). specialize (H11 _ _ Hc). lia.
        -- apply gcost_insert_ne in Hv; [|done]. specialize (H11 _ _ Hv). lia.
      * rewrite map_size_insert_Some by (exact (gcost_is_Some _ _ _ Hnx)).
        destruct (decide (v = x)) as [->|Hne].
        -- rewrite (gcost_fun _ _ _ _ Hv Hgx). specialize (H11 _ _ Hnx). lia.
        -- apply gcost_insert_ne in Hv; [|done]. by apply (H11 v).
Qed.

(** ** Progress *)

Lemma potential_insert_ne B G k k' q :
  k ≠ k' → potential B (<[k := q]> G) k' = potential B G k'.
Proof. intros Hne. unfold potential. by rewrite lookup_insert_ne. Qed.

Lemma potential_insert_eq B G k q n :
  (q == inject_Z (Z.of_nat n))%Q → potential B (<[k := q]> G) k = n.
Proof.
  intros Hq. unfold potential. rewrite lookup_insert_eq.
  rewrite (Qfloor_comp _ _ Hq), Qfloor_Z. lia.
Qed.

Lemma potential_gcost B G v n : gcost G v n → potential B G (hash v) = n.
Proof.
  intros (q & Hq & Hn). unfold potential. rewrite Hq.
  rewrite (Qfloor_comp _ _ Hn), Qfloor_Z. lia.
Qed.

Lemma sum_potential_insert_notin B G k q (keys : list string) :
  k ∉ keys →
  sum_list (potential B (<[k := q]> G) <$> keys) = sum_list (potential B G <$> keys).
Proof.
  induction keys as [|k' keys IH]; [done|].
  intros [Hne Hnin]%not_elem_of_cons. cbn [fmap list_fmap sum_list sum_list_with id].
  by rewrite potential_insert_ne, IH.
Qed.

Lemma sum_potential_insert B G k q (keys : list string) :
  NoDup keys → k ∈ keys →
  (potential B (<[k := q]> G) k + 1 ≤ potential B G k)%nat →
  (sum_list (potential B (<[k := q]> G) <$> keys) + 1
   ≤ sum_list (potential B G <$> keys))%nat.
Proof.
  intros Hnd Hin Hdec. induction keys as [|k' keys IH]; [by apply elem_of_nil in Hin|].
  apply NoDup_cons in Hnd as [Hk' Hnd]. cbn [fmap list_fmap sum_list sum_list_with id].
  apply elem_of_cons in Hin as [->|Hin].
  - rewrite sum_potential_insert_notin by done. lia.
  - rewrite potential_insert_ne by (intros ->; done).
    specialize (IH Hnd Hin). lia.
Qed.

(** Looking at a neighbour never adds to the rounds that are left. *)
Lemma relax_rounds g start goal current done st x :
  search_inv g start goal (Some current) done st →
  hop g current x →
  (rounds_left g start (relax defaultHeuristic defaultCostFn goal current st x)
   ≤ rounds_left g start st)%nat.
Proof.
  intros Hinv Hhop.
  destruct (inv_current _ _ _ _ _ _ Hinv current eq_refl) as [nc Hc].
  destruct (relax_cases g start goal current done st x nc Hinv Hc)
    as [[-> _]|(q & p & -> & Hq & Hp & Hwas)]; [done|].
  unfold rounds_left. cbn [frontier costSoFar]. rewrite length_enqueue.
  pose proof (search_size_bound _ _ _ _ _ _ Hinv) as Hsize.
  pose proof (inv_bound _ _ _ _ _ _ Hinv _ _ Hc) as Hbound.
  assert (sum_list (potential (S (length (search_keys g start)))
            (<[hash x := q]> (costSoFar st)) <$> search_keys g start) + 1
          ≤ sum_list (potential (S (length (search_keys g start)))
            (costSoFar st) <$> search_keys g start))%nat; [|lia].
  apply sum_potential_insert.
  - apply search_keys_nodup.
  - by eapply search_keys_hop.
  - rewrite (potential_insert_eq _ _ _ _ _ Hq).
    destruct Hwas as [Hnone|(nx & Hnx & Hlt)].
    + unfold potential. rewrite Hnone. lia.
    + rewrite (potential_gcost _ _ _ _ Hnx). lia.
Qed.

(** The invariant and the bound survive the loop over the neighbours. *)
Lemma relax_all g start goal current xs done st :
  search_inv g start goal (Some current) done st →
  (∀ x, x ∈ xs → hop g current x) →
  search_inv g start goal (Some current) (done ++ xs)
    (foldl (relax defaultHeuristic defaultCostFn goal current) st xs) ∧
  (rounds_left g start (foldl (relax defaultHeuristic defaultCostFn goal current) st xs)
   ≤ rounds_left g start st)%nat.
Proof.
  revert done st. induction xs as [|x xs IH]; intros done st Hinv Hxs; cbn [foldl].
  - by rewrite app_nil_r.
  - assert (hop g current x) as Hx by (apply Hxs, elem_of_cons; by left).
    pose proof (relax_inv _ _ _ _ _ _ _ Hinv Hx) as Hinv'.
    pose proof (relax_rounds _ _ _ _ _ _ _ Hinv Hx) as Hle.
    destruct (IH (done ++ [x]) _ Hinv') as [Hinv'' Hle'].
    { intros x' Hx'. apply Hxs, elem_of_cons. by right. }
    rewrite <- app_assoc in Hinv''. split; [done | lia].
Qed.

(** ** Between the rounds *)

Lemma search_inv_init g start goal :
  start ≠ goal →
  search_inv g start goal None []
    {| frontier := enqueue [] start 0;
       cameFrom := <[hash start := None]> ∅;
       costSoFar := <[hash start := 0%Q]> ∅ |}.
Proof.
  intros Hne.
  assert (∀ v n, gcost (<[hash start := 0%Q]> ∅) v n → v = start ∧ n = 0%nat) as Honly.
  { intros v n (q & Hq & Hn). apply lookup_insert_Some in Hq as [[Hv <-]|[_ Hq]].
    - apply hash_inj in Hv. split; [done|]. by apply inject_nat_inj.
    - by rewrite lookup_empty in Hq. }
  assert (gcost (<[hash start := 0%Q]> ∅) start 0) as H0.
  { exists 0%Q. by rewrite lookup_insert_eq. }
  split; cbn [frontier cameFrom costSoFar].
  - done.
  - by rewrite lookup_insert_eq.
  - intros k q [[<- <-]|[_ Hq]]%lookup_insert_Some.
    + exists start, 0%nat. split; [done|]. split; [reflexivity | constructor].
    + by rewrite lookup_empty in Hq.
  - intros v n Hv Hg. by destruct (Honly v n Hg).
  - intros e He. apply elem_of_enqueue in He as [He| ->]; [by apply elem_of_nil in He|].
    exists 0%nat. split; [done|]. cbn. intros ->. done.
  - apply enqueue_sorted.
  - intros v n Hg Hd. destruct (Honly v n Hg) as [-> ->].
    left. exists (mkItem start 0). split; [apply elem_of_enqueue; by right|].
    split; [done|]. cbn [priority]. change (inject_Z (Z.of_nat 0)) with 0%Q.
    pose proof (distance_nonneg start goal). lra.
  - intros n Hg. destruct (Honly goal n Hg) as [-> _]. done.
  - done.
  - intros k [q [[<- <-]|[_ Hq]]%lookup_insert_Some].
    + apply search_keys_start.
    + by rewrite lookup_empty in Hq.
  - intros v n Hg. destruct (Honly v n Hg) as [-> ->].
    rewrite map_size_insert_None by apply lookup_empty. lia.
Qed.

(** Taking the head off the queue starts a round. *)
Lemma search_inv_dequeue g start goal st e rest :
  search_inv g start goal None [] st →
  frontier st = e :: rest →
  item e ≠ goal →
  search_inv g start goal (Some (item e)) []
    {| frontier := rest; cameFrom := cameFrom st; costSoFar := costSoFar st |}.
Proof.
  intros [H1 H2 H3 H4 H5 H6 H7 H8 H9 H10 H11] HF Hne.
  rewrite HF in *. split; cbn [frontier cameFrom costSoFar]; try done.
  - intros e' He'. apply H5, elem_of_cons. by right.
  - by eapply sorted_tail.
  - intros v n Hv Hd. destruct (H7 v n Hv Hd) as [(e' & He' & Hitem & Hp)|Hright].
    + apply elem_of_cons in He' as [->|He'].
      * right. intros w _ Hdone. specialize (Hdone (f_equal Some Hitem)).
        by apply elem_of_nil in Hdone.
      * left. by exists e'.
    + right. intros w Hw _. by apply Hright.
  - intros n Hn. destruct (H8 n Hn) as (e' & [->|He']%elem_of_cons & Hitem); [done|].
    by exists e'.
  - intros c [= <-]. destruct (H5 e) as (n & Hn & _); [apply elem_of_cons; by left|].
    by exists n.
Qed.

(** Once every neighbour has been looked at the round is over. *)
Lemma search_inv_round g start goal current st :
  search_inv g start goal (Some current) (getNeighbors g current true) st →
  search_inv g start goal None [] st.
Proof.
  intros [H1 H2 H3 H4 H5 H6 H7 H8 H9 H10 H11]. split; try done.
  intros v n Hv Hd. destruct (H7 v n Hv Hd) as [Hleft|Hright]; [by left|].
  right. intros w Hw _. apply Hright; [done|]. by intros [= ->].
Qed.

(** ** Optimality *)

Lemma gcost_walk g start goal current done st v n :
  search_inv g start goal current done st →
  gcost (costSoFar st) v n → hops g n start v.
Proof.
  intros Hinv (q & Hq & Hn).
  destruct (inv_walk _ _ _ _ _ _ Hinv _ _ Hq) as (v' & n' & Hv%hash_inj & Hn' & Hh).
  subst v'. rewrite Hn in Hn'. apply inject_nat_inj in Hn'. by subst n'.
Qed.

(** Walking along a shortest path to the goal, from a cell whose cost is
    its true distance: either some queued item has a priority of at most
    the length of the path, or the goal itself has that length as cost. *)
Lemma search_frontier_bound g start goal st d :
  search_inv g start goal None [] st →
  hop_distance g start goal d →
  ∀ k v i, hop_distance g start v i → hops g k v goal → (i + k = d)%nat →
    gcost (costSoFar st) v i →
    (∃ e, e ∈ frontier st ∧ (priority e <= inject_Z (Z.of_nat d))%Q) ∨
    gcost (costSoFar st) goal d.
Proof.
  intros Hinv [Hd Hmin]. induction k as [|k IH]; intros v i Hvi Hk Hik Hg.
  - assert (v = goal) as -> by (by inversion Hk).
    assert (i = d) as -> by lia. by right.
  - apply hops_first in Hk as (v' & Hh & Hk).
    destruct (inv_open _ _ _ _ _ _ Hinv v i Hg Hvi) as [(e & He & Hitem & Hp)|Hright].
    + left. exists e. split; [done|].
      pose proof (hops_distance g (S k) v goal (hops_cons _ _ _ _ _ Hh Hk)) as Hdist.
      subst d. rewrite Nat2Z.inj_add, inject_Z_plus. lra.
    + destruct (Hright v' Hh) as (m & Hm & Hle); [done|].
      pose proof (gcost_walk _ _ _ _ _ _ _ _ Hinv Hm) as Hwalk.
      assert (hop_distance g start v' (S i)) as Hv'.
      { split; [destruct Hvi as [Hvi _]; by eapply hops_S|].
        intros m' Hm'. specialize (Hmin _ (hops_app _ _ _ _ _ _ Hm' Hk)). lia. }
      pose proof (proj2 Hv' _ Hwalk) as Hge.
      assert (m = S i) as -> by lia.
      apply (IH v' (S i)); [done | done | lia | done].
Qed.

(** ** Reconstruction *)

Lemma reconstruct_loop_total g start goal st :
  search_inv g start goal None [] st →
  ∀ n c, gcost (costSoFar st) c n →
    ∃ p, is_path g start c p ∧ (length p ≤ n + 1)%nat ∧
      ∀ fuel acc, (n < fuel)%nat →
        reconstruct_loop fuel (cameFrom st) (hash start) (Some c) acc = Some (p ++ acc).
Proof.
  intros Hinv n. induction n as [n IH] using lt_wf_ind. intros c Hc.
  destruct (decide (c = start)) as [->|Hne].
  - exists [start]. split; [done|]. split; [cbn; lia|].
    intros [|fuel] acc Hlt; [lia|]. cbn [reconstruct_loop].
    by rewrite decide_True.
  - destruct (inv_cameFrom _ _ _ _ _ _ Hinv c n Hne Hc) as (u & m & Hcf & Hh & Hu & Hm).
    destruct (IH m ltac:(lia) u Hu) as (p & Hp & Hlen & Hrun).
    exists (p ++ [c]). split; [by eapply is_path_snoc|].
    split; [rewrite length_app; cbn; lia|].
    intros [|fuel] acc Hlt; [lia|]. cbn [reconstruct_loop].
    rewrite decide_False by (intros H%hash_inj; done).
    rewrite Hcf. cbn [mjoin option_join]. rewrite Hrun by lia.
    by rewrite <- app_assoc.
Qed.

(** ** The main loop *)

Lemma sum_potential_ge B G (keys : list string) k :
  k ∈ keys → (potential B G k ≤ sum_list (potential B G <$> keys))%nat.
Proof.
  induction keys as [|k' keys IH]; intros Hin; [by apply elem_of_nil in Hin|].
  cbn [fmap list_fmap sum_list sum_list_with id].
  apply elem_of_cons in Hin as [->|Hin]; [lia|]. specialize (IH Hin). lia.
Qed.

Lemma rounds_left_ge g start goal st v n :
  search_inv g start goal None [] st →
  gcost (costSoFar st) v n →
  (length (frontier st) + n ≤ rounds_left g start st)%nat.
Proof.
  intros Hinv Hv. unfold rounds_left.
  pose proof (sum_potential_ge (S (length (search_keys g start))) (costSoFar st)
    (search_keys g start) (hash v)) as H.
  rewrite (potential_gcost _ _ _ _ Hv) in H.
  assert (hash v ∈ search_keys g start) as Hin.
  { apply (inv_keys _ _ _ _ _ _ Hinv). by eapply gcost_is_Some. }
  specialize (H Hin). lia.
Qed.

(** With enough fuel the loop returns, and what it returns is a shortest
    path, or null when the goal cannot be reached. *)
Lemma search_loop_total g start goal bound :
  ∀ st, search_inv g start goal None [] st →
    (rounds_left g start st ≤ bound)%nat →
    ∃ r, shortest_or_none g start goal r ∧
      ∀ fuel, (bound < fuel)%nat →
        search_loop fuel g defaultHeuristic defaultCostFn start goal st = Some r.
Proof.
  induction bound as [bound IH] using lt_wf_ind. intros st Hinv Hbound.
  destruct (frontier st) as [|e rest] eqn:HF.
  - (* the queue is exhausted *)
    exists None. split.
    + intros n Hn. destruct (hop_distance_exists g n start goal Hn) as (d & Hd & _).
      assert (gcost (costSoFar st) start 0) as H0.
      { exists 0%Q. split; [apply (inv_start _ _ _ _ _ _ Hinv) | reflexivity]. }
      destruct (search_frontier_bound g start goal st d Hinv Hd d start 0%nat)
        as [(e & He & _)|Hg]; [apply hop_distance_start | apply Hd | lia | done | |].
      * rewrite HF in He. by apply elem_of_nil in He.
      * destruct (inv_goal _ _ _ _ _ _ Hinv d Hg) as (e & He & _).
        rewrite HF in He. by apply elem_of_nil in He.
    + intros [|fuel] Hlt; [lia|]. cbn [search_loop]. by rewrite HF.
  - destruct (decide (hash (item e) = hash goal)) as [Heq|Hne].
    + (* the goal is at the head of the queue *)
      apply hash_inj in Heq.
      destruct (inv_queued _ _ _ _ _ _ Hinv e) as (n & Hn & Hprio);
        [rewrite HF; apply elem_of_cons; by left|].
      rewrite Heq in Hn. specialize (Hprio Heq).
      pose proof (gcost_walk _ _ _ _ _ _ _ _ Hinv Hn) as Hwalk.
      destruct (hop_distance_exists g n start goal Hwalk) as (d & Hd & Hdn).
      assert (gcost (costSoFar st) start 0) as H0.
      { exists 0%Q. split; [apply (inv_start _ _ _ _ _ _ Hinv) | reflexivity]. }
      assert (n ≤ d)%nat as Hnd.
      { destruct (search_frontier_bound g start goal st d Hinv Hd d start 0%nat)
          as [(e' & He' & Hp')|Hg]; [apply hop_distance_start | apply Hd | lia | done | |].
        - rewrite HF in He'.
          pose proof (sorted_head_least e e' rest) as Hleast.
          rewrite <- HF in Hleast at 1.
          specialize (Hleast (inv_sorted _ _ _ _ _ _ Hinv) He').
          apply inject_nat_le. lra.
        - rewrite (gcost_fun _ _ _ _ Hn Hg). lia. }
      destruct (reconstruct_loop_total g start goal st Hinv n goal Hn)
        as (p & Hp & Hlen & Hrun).
      exists (Some p). split.
      * split; [done|]. split; [by apply is_path_hops|].
        intros m Hm. destruct Hd as [_ Hmin]. specialize (Hmin _ Hm). lia.
      * intros [|fuel] Hlt; [lia|]. cbn [search_loop]. rewrite HF. cbn [dequeue].
        rewrite decide_True by congruence. unfold reconstructPath.
        pose proof (rounds_left_ge _ _ _ _ _ _ Hinv Hn) as Hge.
        rewrite HF in Hge. cbn [length] in Hge.
        rewrite Hrun by lia. by rewrite app_nil_r.
    + (* a round *)
      assert (item e ≠ goal) as Hne' by congruence.
      pose proof (search_inv_dequeue _ _ _ _ _ _ Hinv HF Hne') as Hinv1.
      set (st1 := {| frontier := rest; cameFrom := cameFrom st;
                     costSoFar := costSoFar st |}) in *.
      destruct (relax_all g start goal (item e) (getNeighbors g (item e) true) [] st1 Hinv1)
        as [Hinv2 Hle]; [by intros x Hx|].
      cbn [app] in Hinv2. apply search_inv_round in Hinv2.
      assert (rounds_left g start st1 + 1 = rounds_left g start st)%nat as Hst1.
      { unfold rounds_left. cbn [frontier costSoFar st1]. rewrite HF. cbn [length]. lia. }
      destruct (IH (bound - 1)%nat ltac:(lia) _ Hinv2 ltac:(lia)) as (r & Hr & Hrun).
      exists r. split; [done|].
      intros [|fuel] Hlt; [lia|]. cbn [search_loop]. rewrite HF. cbn [dequeue].
      rewrite decide_False by done. apply Hrun. lia.
Qed.

(** ** Fuel

    More fuel never changes what a loop returns. *)

Lemma reconstruct_loop_mono fuel fuel' cf startKey current acc p :
  reconstruct_loop fuel cf startKey current acc = Some p → (fuel ≤ fuel')%nat →
  reconstruct_loop fuel' cf startKey current acc = Some p.
Proof.
  revert fuel' current acc. induction fuel as [|fuel IH]; intros fuel' current acc.
  - destruct current as [c|]; [done|]. by destruct fuel'.
  - destruct current as [c|]; [|by destruct fuel'].
    destruct fuel' as [|fuel']; [lia|]. cbn [reconstruct_loop].
    destruct (decide (hash c = startKey)); [done|].
    intros H Hle. apply IH; [done | lia].
Qed.

Lemma search_loop_mono fuel fuel' g h cost start goal st r :
  search_loop fuel g h cost start goal st = Some r → (fuel ≤ fuel')%nat →
  search_loop fuel' g h cost start goal st = Some r.
Proof.
  revert fuel' st. induction fuel as [|fuel IH]; intros fuel' st; [done|].
  destruct fuel' as [|fuel']; [lia|]. cbn [search_loop].
  destruct (dequeue (frontier st)) as [[current|] rest]; [|done].
  destruct (decide (hash current = hash goal)).
  - unfold reconstructPath.
    destruct (reconstruct_loop (S fuel) _ _ _ _) as [p|] eqn:Hp; [|done].
    intros H Hle. by rewrite (reconstruct_loop_mono _ (S fuel') _ _ _ _ _ Hp) by lia.
  - intros H Hle. apply IH; [done | lia].
Qed.

Lemma findPath_mono fuel fuel' g start goal options r :
  findPath fuel g start goal options = Some r → (fuel ≤ fuel')%nat →
  findPath fuel' g start goal options = Some r.
Proof.
  unfold findPath. destruct (equals start goal); [done|]. apply search_loop_mono.
Qed.

(** [findPath] with the default options returns, and returns a shortest
    path or null. *)
Lemma findPath_total g start goal :
  ∃ fuel0 result,
    shortest_or_none g start goal result ∧
    ∀ fuel, (fuel0 ≤ fuel)%nat → findPath fuel g start goal noOptions = Some result.
Proof.
  destruct (decide (start = goal)) as [->|Hne].
  - exists 0%nat, (Some [goal]). split.
    + split; [done|]. cbn. apply hop_distance_start.
    + intros fuel _. unfold findPath. by rewrite equals_refl.
  - pose proof (search_inv_init g start goal Hne) as Hinv.
    destruct (search_loop_total g start goal _ _ Hinv (Nat.le_refl _)) as (r & Hr & Hrun).
    eexists (S _), r. split; [done|].
    intros fuel Hfuel. unfold findPath.
    destruct (equals start goal) eqn:Heq; [by apply equals_spec in Heq|].
    cbn [noOptions heuristic costFn default from_option id].
    apply Hrun. exact Hfuel.
Qed.

(** ** The path finder claims *)

(** C1, as amended.  With the default cost of 1 per step and the default
    distance heuristic, [findPath] returns for every grid, start and goal
    (with enough fuel the loop ends, and more fuel gives the same result).
    When it returns a path, the path leads from the start to the goal by
    passable hops, and its number of steps (one less than its number of
    cells, and equal to its cost) is the shortest passable-hop count from
    the start to the goal.  It returns null if and only if no sequence of
    passable hops leads from the start to the goal.  A passable hop enters
    a neighbouring cell that is in the grid and passable ([passable_hop],
    which the last part equates with the hops the search makes); the start
    itself is not examined. *)
Theorem findPath_shortest (g : Grid) (start goal : Coord) :
  ∃ fuel0 result,
    (∀ fuel, (fuel0 ≤ fuel)%nat →
       findPath fuel g start goal noOptions = Some result) ∧
    (∀ fuel r, findPath fuel g start goal noOptions = Some r → r = result) ∧
    (∀ path, result = Some path →
       is_path g start goal path ∧
       hop_distance g start goal (length path - 1) ∧
       getPathLength (Some path) = S (length path - 1) ∧
       (getPathCost path defaultCostFn == inject_Z (Z.of_nat (length path - 1)))%Q) ∧
    (result = None ↔ ¬ ∃ n, hops g n start goal) ∧
    (∀ a b, hop g a b ↔ passable_hop g a b).
Proof.
  destruct (findPath_total g start goal) as (fuel0 & result & Hr & Hrun).
  exists fuel0, result. split; [done|]. split; [|split; [|split; [|apply hop_passable_hop]]].
  - intros fuel r Hfuel.
    apply (findPath_mono _ (Nat.max fuel fuel0)) in Hfuel; [|lia].
    rewrite Hrun in Hfuel by lia. by injection Hfuel.
  - intros path ->. destruct Hr as [Hp Hd]. split; [done|]. split; [done|].
    split; [|apply getPathCost_default].
    destruct path; [done|]. cbn. lia.
  - destruct result as [path|]; cbn in Hr.
    + split; [done|]. intros Hno. exfalso. apply Hno.
      exists (length path - 1)%nat. apply Hr.
    + split; [|done]. intros _ [n Hn]. by apply (Hr n).
Qed.

(** C1, as stated, fails: the path found between two adjacent cells has
    two cells, while the shortest hop count is one. *)
Lemma findPath_length_counterexample :
  ¬ length_is_hop_count sample_grid (mkCoord 0 0 0) (mkCoord 1 (-1) 0).
Proof.
  intros H.
  specialize (H 10%nat [mkCoord 0 0 0; mkCoord 1 (-1) 0]).
  destruct H as [_ Hmin]; [by vm_compute|].
  assert (hops sample_grid 1 (mkCoord 0 0 0) (mkCoord 1 (-1) 0)) as H1.
  { apply hopsb_spec. by vm_compute. }
  specialize (Hmin _ H1). cbn in Hmin. lia.
Qed.

(** C9.  When the start and the goal are the same coordinate, [findPath]
    returns the path made of that one coordinate, for every grid and all
    options: before the loop, hence whatever the fuel, and whether or not the
    coordinate is a passable cell of the grid. *)
Theorem findPath_same_cell (fuel : nat) (g : Grid) (s : Coord) (options : Options) :
  findPath fuel g s s options = Some (Some [s]).
Proof. unfold findPath. by rewrite equals_refl. Qed.

(** * The constructors and the scenarios of the specification *)

(** ** The constructors build well-formed grids *)

Lemma foldl_invariant {A B} (P : A → Prop) (f : A → B → A) (l : list B) (a : A) :
  P a → (∀ a b, P a → P (f a b)) → P (foldl f a l).
Proof.
  intros Ha Hf. revert a Ha. induction l as [|b l IH]; intros a Ha; cbn [foldl]; auto.
Qed.

Lemma cells_wf_empty layout sz : grid_wf (mkGrid [] layout sz).
Proof.
  split; [apply NoDup_nil_2|]. intros k cell H. by apply elem_of_nil in H.
Qed.

Lemma cells_wf_set m layout sz c p d :
  grid_wf (mkGrid m layout sz) →
  grid_wf (mkGrid (Map_set m (hash c) (mkCell c p d)) layout sz).
Proof.
  intros [Hnd Hk]. split; cbn [cells] in *.
  - by apply Map_set_wf.
  - intros k cell [H|[-> ->]]%Map_set_elem; [by apply Hk | done].
Qed.

Lemma createGrid_wf width height layout defaultData :
  grid_wf (createGrid width height layout defaultData).
Proof.
  unfold createGrid.
  apply (foldl_invariant (λ m, grid_wf (mkGrid m layout (RectangleSize width height)))).
  - apply cells_wf_empty.
  - intros m r Hm.
    apply (foldl_invariant (λ m, grid_wf (mkGrid m layout (RectangleSize width height))));
      [done|].
    intros m' c Hm'. by apply cells_wf_set.
Qed.

Lemma createHexGrid_wf radius layout defaultData :
  grid_wf (createHexGrid radius layout defaultData).
Proof.
  unfold createHexGrid.
  apply (foldl_invariant (λ m, grid_wf (mkGrid m layout (HexSize radius)))).
  - apply cells_wf_empty.
  - intros m r Hm.
    apply (foldl_invariant (λ m, grid_wf (mkGrid m layout (HexSize radius)))); [done|].
    intros m' c Hm'. by apply cells_wf_set.
Qed.

Lemma createCustomGrid_wf predicate minX maxX minY maxY layout defaultData :
  grid_wf (createCustomGrid predicate minX maxX minY maxY layout defaultData).
Proof.
  unfold createCustomGrid.
  apply (foldl_invariant
    (λ m, grid_wf (mkGrid m layout (CustomSize minX maxX minY maxY)))).
  - apply cells_wf_empty.
  - intros m r Hm.
    apply (foldl_invariant
      (λ m, grid_wf (mkGrid m layout (CustomSize minX maxX minY maxY)))); [done|].
    intros m' c Hm'. destruct (predicate _); [by apply cells_wf_set | done].
Qed.

(** ** The concrete scenarios *)

Example rectangle_3_3 :
  length (cells (createGrid 3 3 pointy [])) = 9%nat ∧
  forallb (λ e, passable e.2) (cells (createGrid 3 3 pointy [])) = true.
Proof. by vm_compute. Qed.

Example hexagon_1 : length (cells (createHexGrid 1 pointy [])) = 7%nat.
Proof. by vm_compute. Qed.

Example distance_3 : (distance (mkCoord 0 0 0) (mkCoord 3 (-2) (-1)) == 3)%Q.
Proof. by vm_compute. Qed.

(** Every neighbour of the start is blocked: there is no path. *)
Example walled_in :
  let g := foldl (λ g c, setPassable g c false) (createHexGrid 2 pointy [])
             (getNeighbors (createHexGrid 2 pointy []) (mkCoord 0 0 0) false) in
  findPath 10 g (mkCoord 0 0 0) (mkCoord 2 (-2) 0) noOptions = Some None.
Proof. by vm_compute. Qed.

Example line_of_three :
  getLine (mkCoord 0 0 0) (mkCoord 2 (-1) (-1)) =
    [mkCoord 0 0 0; mkCoord 1 0 (-1); mkCoord 2 (-1) (-1)].
Proof. by vm_compute. Qed.

(** The tie between the errors of x and y arises on an actual line. *)
Example line_through_tie :
  getLine (mkCoord 0 0 0) (mkCoord 1 1 (-2)) =
    [mkCoord 0 0 0; mkCoord 1 0 (-1); mkCoord 1 1 (-2)].
Proof. by vm_compute. Qed.

Example ring_0_of_hexagon :
  getRing (createHexGrid 2 pointy []) (mkCoord 0 0 0) 0 = [mkCoord 0 0 0].
Proof. by vm_compute. Qed.

(** A detour around a blocked cell: three steps instead of two. *)
Example detour :
  findPath 20 (setPassable (createHexGrid 2 pointy []) (mkCoord 1 (-1) 0) false)
    (mkCoord 0 0 0) (mkCoord 2 (-2) 0) noOptions =
  Some (Some [mkCoord 0 0 0; mkCoord 1 0 (-1); mkCoord 2 (-1) (-1); mkCoord 2 (-2) 0]).
Proof. by vm_compute. Qed.

(** The start needs not be a cell of the grid. *)
Example from_outside :
  findPath 20 (createHexGrid 1 pointy []) (mkCoord 2 (-2) 0) (mkCoord 0 0 0) noOptions =
  Some (Some [mkCoord 2 (-2) 0; mkCoord 1 (-1) 0; mkCoord 0 0 0]).
Proof. by vm_compute. Qed.

(** * Further properties of the coordinate arithmetic *)

(** ** Keys *)

(** X1.  Two integer coordinates have the same key exactly when they are
    the same coordinate, which is also when [equals] holds: distinct cells
    never collide in the map of a grid. *)
Theorem hash_injective (a b : Coord) :
  (hash a = hash b ↔ a = b) ∧ (equals a b = true ↔ a = b).
Proof. split; [apply hash_eq_iff | apply equals_spec]. Qed.

Lemma split_commas_nonempty s : split_commas s ≠ [].
Proof.
  destruct s as [|a s]; cbn [split_commas]; [done|].
  destruct (decide (a = ","%char)); [done|]. by destruct (split_commas s).
Qed.

Lemma split_commas_free s : comma_free s → split_commas s = [s].
Proof.
  induction s as [|a s IH]; [done|]. intros [Ha Hs]. cbn [split_commas].
  rewrite decide_False by done. by rewrite IH.
Qed.

Lemma split_commas_app s r :
  comma_free s → split_commas (s +:+ String ","%char r) = s :: split_commas r.
Proof.
  induction s as [|a s IH]; intros Hs.
  - done.
  - destruct Hs as [Ha Hs]. change (String a s +:+ ?t) with (String a (s +:+ t)).
    cbn [split_commas]. rewrite decide_False by done. by rewrite IH.
Qed.

Lemma digit_value_pretty d : (d < 10)%N → digit_value (pretty_N_char d) = Some d.
Proof.
  intros Hd.
  assert (d = 0 ∨ d = 1 ∨ d = 2 ∨ d = 3 ∨ d = 4 ∨ d = 5 ∨ d = 6 ∨ d = 7
          ∨ d = 8 ∨ d = 9)%N as H by lia.
  repeat (destruct H as [->|H]; [reflexivity|]). by subst.
Qed.

(** Reading back the digits the printer puts in front of [s]. *)
Lemma digits_value_pretty_go n s :
  ∃ k, ∀ acc,
    digits_value acc (pretty_N_go n s) = digits_value (acc * 10 ^ k + n)%N s.
Proof.
  revert s. induction (N.lt_wf_0 n) as [n _ IH]. intros s.
  destruct (decide (n = 0%N)) as [->|Hn].
  - exists 0%N. intros acc. rewrite pretty_N_go_0. f_equal. lia.
  - rewrite pretty_N_go_step by lia.
    destruct (IH (n `div` 10)%N ltac:(apply N.div_lt; lia)
      (String (pretty_N_char (n `mod` 10)) s)) as [k Hk].
    exists (k + 1)%N. intros acc. rewrite Hk. cbn [digits_value].
    rewrite digit_value_pretty by (apply N.mod_lt; lia). f_equal.
    rewrite N.pow_add_r. pose proof (N.div_mod n 10 ltac:(lia)). lia.
Qed.

Lemma digits_value_pretty (n : N) : digits_value 0 (pretty n) = Some n.
Proof.
  unfold pretty, pretty_N. case_decide as Hn; [by subst|].
  destruct (digits_value_pretty_go n "") as [k Hk]. rewrite Hk. cbn [digits_value]. f_equal; lia.
Qed.

Lemma Number_pretty (n : Z) : Number (pretty n) = Some n.
Proof.
  destruct n as [|p|p]; unfold pretty, pretty_Z; [reflexivity| |].
  - pose proof (digits_value_pretty (N.pos p)) as H.
    change (@pretty positive _ p) with (@pretty N _ (N.pos p)).
    pose proof (pretty_N_comma_free (N.pos p)) as Hc.
    destruct (pretty (N.pos p)) as [|a s] eqn:Hs; [done|].
    unfold Number.
    destruct (decide (a = "-"%char)) as [->|?]; [done|].
    destruct (decide (a = "+"%char)) as [->|?]; [done|].
    by rewrite H.
  - pose proof (digits_value_pretty (N.pos p)) as H.
    change (@pretty positive _ p) with (@pretty N _ (N.pos p)).
    change ("-" +:+ ?t) with (String "-"%char t).
    cbn [Number]. rewrite decide_True by done.
    destruct (pretty (N.pos p)) as [|a s] eqn:Hs; [done|]. by rewrite H.
Qed.

(** X2.  [unhash] reads back the coordinate that [hash] wrote, for every
    integer coordinate. *)
Theorem unhash_hash (c : Coord) : unhash (hash c) = Some c.
Proof.
  destruct c as [cx cy cz]. unfold unhash, hash; cbn [x y z].
  repeat change ("," +:+ ?t) with (String ","%char t).
  rewrite split_commas_app by apply pretty_Z_comma_free.
  rewrite split_commas_app by apply pretty_Z_comma_free.
  rewrite split_commas_free by apply pretty_Z_comma_free.
  cbn [fmap list_fmap]. by rewrite !Number_pretty.
Qed.

(** ** Vector operations *)

Lemma span_translate a b c : span (add a c) (add b c) = span a b.
Proof. unfold span, add; cbn [x y z]. lia. Qed.

Lemma span_scale a b k : span (scale a k) (scale b k) = Z.abs k * span a b.
Proof.
  unfold span, scale; cbn [x y z].
  rewrite <- !Z.mul_sub_distr_r, !Z.abs_mul. lia.
Qed.

(** X3.  [add], [subtract] and [scale] are the operations of a module over
    the integers: [subtract] undoes [add], [add] commutes and associates,
    [scale] distributes; all three keep the cube invariant; [distance] is
    invariant under translation and scales with the absolute factor. *)
Theorem vector_operations (a b c : Coord) (k : Z) :
  subtract (add a b) b = a ∧
  add (subtract a b) b = a ∧
  add a b = add b a ∧
  add (add a b) c = add a (add b c) ∧
  scale (add a b) k = add (scale a k) (scale b k) ∧
  (distance (add a c) (add b c) == distance a b)%Q ∧
  (distance (scale a k) (scale b k) == inject_Z (Z.abs k) * distance a b)%Q ∧
  (valid a → valid b →
     valid (add a b) ∧ valid (subtract a b) ∧ valid (scale a k)).
Proof.
  split; [|split; [|split; [|split; [|split; [|split; [|split]]]]]].
  - destruct a as [ax ay az], b as [bx b_y bz].
    unfold subtract, add; cbn [x y z]; f_equal; lia.
  - destruct a as [ax ay az], b as [bx b_y bz].
    unfold subtract, add; cbn [x y z]; f_equal; lia.
  - destruct a as [ax ay az], b as [bx b_y bz].
    unfold add; cbn [x y z]; f_equal; lia.
  - destruct a as [ax ay az], b as [bx b_y bz], c as [cx cy cz].
    unfold add; cbn [x y z]; f_equal; lia.
  - destruct a as [ax ay az], b as [bx b_y bz].
    unfold add, scale; cbn [x y z]; f_equal; lia.
  - by rewrite !distance_span, span_translate.
  - rewrite !distance_span, span_scale, inject_Z_mult. lra2.
  - unfold valid, add, subtract, scale; cbn [x y z]. intros Ha Hb.
    split; [lia|]. split; [lia|].
    rewrite <- !Z.mul_add_distr_r, Ha. lia.
Qed.

Lemma vector_operations_witness :
  valid (add (mkCoord 1 (-1) 0) (mkCoord 0 2 (-2))) ∧
  valid (subtract (mkCoord 1 (-1) 0) (mkCoord 0 2 (-2))) ∧
  valid (scale (mkCoord 1 (-1) 0) 3).
Proof.
  apply (vector_operations (mkCoord 1 (-1) 0) (mkCoord 0 2 (-2)) (mkCoord 0 0 0) 3);
    reflexivity.
Defined.

(** X4.  [neighbor] is defined exactly for the six directions 0..5.  The
    cell it returns is at distance 1, satisfies the cube invariant when the
    given one does, is reached by no other direction, and the opposite
    direction (three further, modulo six) leads back. *)
Theorem neighbor_directions (c : Coord) (i : nat) :
  (is_Some (neighbor c i) ↔ (i < 6)%nat) ∧
  ∀ n, neighbor c i = Some n →
    (distance c n == 1)%Q ∧
    (valid c → valid n) ∧
    neighbor n ((i + 3) mod 6) = Some c ∧
    ∀ j, neighbor c j = Some n → j = i.
Proof.
  split.
  - unfold neighbor. rewrite fmap_is_Some, lookup_lt_is_Some. reflexivity.
  - intros n Hn. unfold neighbor in Hn.
    destruct (DIRECTIONS !! i) as [d|] eqn:Hd; [|done].
    injection Hn as <-.
    assert (d ∈ DIRECTIONS) as Hin by (by eapply list_elem_of_lookup_2).
    split; [by apply distance_direction|].
    split; [by apply add_direction_valid|].
    pose proof (lookup_lt_Some _ _ _ Hd) as Hlt. change (length DIRECTIONS) with 6%nat in Hlt.
    destruct c as [cx cy cz].
    do 6 (destruct i as [|i]; [injection Hd as <-; split;
      [unfold neighbor, add; cbn; f_equal; f_equal; lia
      |intros j Hj; unfold neighbor in Hj;
       do 6 (destruct j as [|j]; [first [reflexivity
         | exfalso; cbn in Hj; injection Hj; lia]|]); done]|]).
    lia.
Qed.

Lemma neighbor_directions_witness :
  neighbor (mkCoord 1 0 (-1)) ((1 + 3) mod 6) = Some (mkCoord 0 0 0).
Proof.
  apply (proj2 (neighbor_directions (mkCoord 0 0 0) 1) (mkCoord 1 0 (-1))).
  reflexivity.
Defined.

(** ** Rounding *)

Lemma Math_round_comp q r : (q == r)%Q → Math_round q = Math_round r.
Proof. intros H. unfold Math_round. by rewrite H. Qed.

(** On a coordinate whose components are integers summing to zero, [round]
    changes nothing. *)
Lemma round_integral c p : equalsF c (toF p) → valid p → round c = p.
Proof.
  intros (Hx & Hy & Hz) Hp. unfold toF in *; cbn [fx fy fz] in *. unfold round.
  rewrite (Math_round_comp _ _ Hx), (Math_round_comp _ _ Hy), (Math_round_comp _ _ Hz).
  rewrite !Math_round_Z.
  assert (Qabs (inject_Z (x p) - fx c) == 0)%Q as Ex by (apply Qabs_zero; lra).
  assert (Qabs (inject_Z (y p) - fy c) == 0)%Q as Ey by (apply Qabs_zero; lra).
  assert (Qabs (inject_Z (z p) - fz c) == 0)%Q as Ez by (apply Qabs_zero; lra).
  destruct (Qgtb _ _) eqn:H1 in |- *; [apply Qgtb_spec in H1; lra|].
  cbn [andb].
  destruct (Qgtb _ _) eqn:H2 in |- *; [apply Qgtb_spec in H2; lra|].
  destruct p as [px py pz]; unfold valid in Hp; cbn [x y z] in *. f_equal. lia.
Qed.

(** X5.  The two ends of an interpolation round to the end points: for
    integer cube coordinates [a] and [b], [round (lerp a b 0)] is [a] and
    [round (lerp a b 1)] is [b]. *)
Theorem round_lerp_endpoints (a b : Coord) :
  valid a → valid b →
  round (lerp a b 0) = a ∧ round (lerp a b 1) = b.
Proof.
  intros Ha Hb. split; apply round_integral; try done;
    unfold equalsF, lerp, toF; cbn [fx fy fz]; (split; [|split]); ring.
Qed.

Lemma round_lerp_endpoints_witness :
  round (lerp (mkCoord 0 0 0) (mkCoord 2 (-3) 1) 0) = mkCoord 0 0 0 ∧
  round (lerp (mkCoord 0 0 0) (mkCoord 2 (-3) 1) 1) = mkCoord 2 (-3) 1.
Proof.
  apply (round_lerp_endpoints (mkCoord 0 0 0) (mkCoord 2 (-3) 1)); reflexivity.
Defined.

(** X6.  [round] leaves every integer cube coordinate as it is, and
    rounding twice is rounding once. *)
Theorem round_idempotent (c : FCoord) (p : Coord) :
  (valid p → round (toF p) = p) ∧ round (toF (round c)) = round c.
Proof.
  assert (∀ q, valid q → round (toF q) = q) as H.
  { intros q Hq. apply round_integral; [|done]. by split; [|split]. }
  split; [apply H|]. apply H, round_sum_zero.
Qed.

Lemma round_idempotent_witness : round (toF (mkCoord 4 (-1) (-3))) = mkCoord 4 (-1) (-3).
Proof.
  apply (round_idempotent (toF (mkCoord 0 0 0)) (mkCoord 4 (-1) (-3))). reflexivity.
Defined.

(** The axis that [round] recomputes has the largest rounding error. *)
Lemma round_recomputes_worst c :
  let ex := round_error (fx c) in
  let ey := round_error (fy c) in
  let ez := round_error (fz c) in
  (round c = recompute_x c ∧ (ey <= ex)%Q ∧ (ez <= ex)%Q) ∨
  (round c = recompute_y c ∧ (ex <= ey)%Q ∧ (ez <= ey)%Q) ∨
  (round c = recompute_z c ∧ (ex <= ez)%Q ∧ (ey <= ez)%Q).
Proof.
  cbn zeta. unfold round, round_error.
  set (ex := Qabs (inject_Z (Math_round (fx c)) - fx c)).
  set (ey := Qabs (inject_Z (Math_round (fy c)) - fy c)).
  set (ez := Qabs (inject_Z (Math_round (fz c)) - fz c)).
  destruct (Qgtb ex ey) eqn:Hxy;
    [apply Qgtb_spec in Hxy | apply Qgtb_false in Hxy];
    (destruct (Qgtb ex ez) eqn:Hxz;
      [apply Qgtb_spec in Hxz | apply Qgtb_false in Hxz]);
    (destruct (Qgtb ey ez) eqn:Hyz;
      [apply Qgtb_spec in Hyz | apply Qgtb_false in Hyz]);
    cbn [andb];
    first [ left; split; [reflexivity | split; lra]
          | right; left; split; [reflexivity | split; lra]
          | right; right; split; [reflexivity | split; lra] ].
Qed.

Lemma inject_Z_sub n m : inject_Z (n - m) = (inject_Z n - inject_Z m)%Q.
Proof. unfold Z.sub, Qminus. by rewrite inject_Z_plus, inject_Z_opp. Qed.

(** How far an integer is from [q], compared with the rounding of [q]. *)
Lemma axis_lower q n :
  let s := (inject_Z (Math_round q) - q)%Q in
  (Qabs s <= Qabs (inject_Z n - q))%Q ∧
  (n ≤ Math_round q - 1 → 1 - s <= Qabs (inject_Z n - q))%Q ∧
  (Math_round q + 1 ≤ n → 1 + s <= Qabs (inject_Z n - q))%Q.
Proof.
  cbn zeta. split; [apply Math_round_nearest|].
  destruct (Math_round_bounds q) as [Hlo Hhi].
  split; intros H; rewrite Zle_Qle in H;
    rewrite ?inject_Z_plus, ?inject_Z_sub in H; change (inject_Z 1) with 1%Q in H;
    apply Qabs_case; intros; lra.
Qed.

(** X7.  On a fractional coordinate whose components sum to zero, [round]
    returns an integer cube coordinate that is nearest in hex distance: no
    integer cube coordinate is closer. *)
Theorem round_nearest_cell (c : FCoord) (p : Coord) :
  (fx c + fy c + fz c == 0)%Q → valid p →
  (fdistance (toF (round c)) c <= fdistance (toF p) c)%Q.
Proof.
  intros Hc Hp. unfold valid in Hp.
  destruct (Math_round_bounds (fx c)) as [Hxl Hxh].
  destruct (Math_round_bounds (fy c)) as [Hyl Hyh].
  destruct (Math_round_bounds (fz c)) as [Hzl Hzh].
  destruct (axis_lower (fx c) (x p)) as (Nx & Lx & Ux).
  destruct (axis_lower (fy c) (y p)) as (Ny & Ly & Uy).
  destruct (axis_lower (fz c) (z p)) as (Nz & Lz & Uz).
  pose proof (round_recomputes_worst c) as Hr. cbn zeta in Hr. unfold round_error in Hr.
  set (rx := Math_round (fx c)) in *.
  set (ry := Math_round (fy c)) in *.
  set (rz := Math_round (fz c)) in *.
  assert (-2 < rx + ry + rz < 2) as HS.
  { split; rewrite Zlt_Qlt, !inject_Z_plus.
    - change (inject_Z (-2)) with (-2)%Q. lra.
    - change (inject_Z 2) with 2%Q. lra. }
  assert (∀ n m : Z, inject_Z (- n - m) = (- inject_Z n - inject_Z m)%Q) as Hneg.
  { intros n m. by rewrite inject_Z_sub, inject_Z_opp. }
  unfold fdistance, toF; cbn [fx fy fz].
  assert (rx + ry + rz = 0 ∨ rx + ry + rz = 1 ∨ rx + ry + rz = -1) as [HS0|[HS1|HS1]]
    by lia.
  - (* nothing is recomputed *)
    assert (inject_Z rx + inject_Z ry + inject_Z rz == 0)%Q as HQ.
    { rewrite <- !inject_Z_plus, HS0. reflexivity. }
    destruct Hr as [(-> & _)|[(-> & _)|(-> & _)]];
      unfold recompute_x, recompute_y, recompute_z; cbn [x y z];
      fold rx ry rz; rewrite ?Hneg.
    + assert (- inject_Z ry - inject_Z rz - fx c == inject_Z rx - fx c)%Q as -> by lra.
      lra2.
    + assert (- inject_Z rx - inject_Z rz - fy c == inject_Z ry - fy c)%Q as -> by lra.
      lra2.
    + assert (- inject_Z rx - inject_Z ry - fz c == inject_Z rz - fz c)%Q as -> by lra.
      lra2.
  - (* the rounded sum is 1: every axis was rounded up *)
    assert (inject_Z rx + inject_Z ry + inject_Z rz == 1)%Q as HQ.
    { rewrite <- !inject_Z_plus, HS1. reflexivity. }
    assert (Qabs (inject_Z rx - fx c) == inject_Z rx - fx c)%Q as Ax
      by (apply Qabs_pos; lra).
    assert (Qabs (inject_Z ry - fy c) == inject_Z ry - fy c)%Q as Ay
      by (apply Qabs_pos; lra).
    assert (Qabs (inject_Z rz - fz c) == inject_Z rz - fz c)%Q as Az
      by (apply Qabs_pos; lra).
    assert (x p ≤ rx - 1 ∨ y p ≤ ry - 1 ∨ z p ≤ rz - 1) as Hm by lia.
    destruct Hr as [(-> & H1 & H2)|[(-> & H1 & H2)|(-> & H1 & H2)]];
      unfold recompute_x, recompute_y, recompute_z; cbn [x y z];
      fold rx ry rz; rewrite ?Hneg.
    + assert (Qabs (- inject_Z ry - inject_Z rz - fx c) == 1 - (inject_Z rx - fx c))%Q
        as -> by (apply Qabs_case; intros; lra).
      destruct Hm as [Hm|[Hm|Hm]];
        [specialize (Lx Hm) | specialize (Ly Hm) | specialize (Lz Hm)]; lra2.
    + assert (Qabs (- inject_Z rx - inject_Z rz - fy c) == 1 - (inject_Z ry - fy c))%Q
        as -> by (apply Qabs_case; intros; lra).
      destruct Hm as [Hm|[Hm|Hm]];
        [specialize (Lx Hm) | specialize (Ly Hm) | specialize (Lz Hm)]; lra2.
    + assert (Qabs (- inject_Z rx - inject_Z ry - fz c) == 1 - (inject_Z rz - fz c))%Q
        as -> by (apply Qabs_case; intros; lra).
      destruct Hm as [Hm|[Hm|Hm]];
        [specialize (Lx Hm) | specialize (Ly Hm) | specialize (Lz Hm)]; lra2.
  - (* the rounded sum is -1: every axis was rounded down *)
    assert (inject_Z rx + inject_Z ry + inject_Z rz == -1)%Q as HQ.
    { rewrite <- !inject_Z_plus, HS1. reflexivity. }
    assert (Qabs (inject_Z rx - fx c) == - (inject_Z rx - fx c))%Q as Ax
      by (apply Qabs_neg; lra).
    assert (Qabs (inject_Z ry - fy c) == - (inject_Z ry - fy c))%Q as Ay
      by (apply Qabs_neg; lra).
    assert (Qabs (inject_Z rz - fz c) == - (inject_Z rz - fz c))%Q as Az
      by (apply Qabs_neg; lra).
    assert (rx + 1 ≤ x p ∨ ry + 1 ≤ y p ∨ rz + 1 ≤ z p) as Hm by lia.
    destruct Hr as [(-> & H1 & H2)|[(-> & H1 & H2)|(-> & H1 & H2)]];
      unfold recompute_x, recompute_y, recompute_z; cbn [x y z];
      fold rx ry rz; rewrite ?Hneg.
    + assert (Qabs (- inject_Z ry - inject_Z rz - fx c) == 1 + (inject_Z rx - fx c))%Q
        as -> by (apply Qabs_case; intros; lra).
      destruct Hm as [Hm|[Hm|Hm]];
        [specialize (Ux Hm) | specialize (Uy Hm) | specialize (Uz Hm)]; lra2.
    + assert (Qabs (- inject_Z rx - inject_Z rz - fy c) == 1 + (inject_Z ry - fy c))%Q
        as -> by (apply Qabs_case; intros; lra).
      destruct Hm as [Hm|[Hm|Hm]];
        [specialize (Ux Hm) | specialize (Uy Hm) | specialize (Uz Hm)]; lra2.
    + assert (Qabs (- inject_Z rx - inject_Z ry - fz c) == 1 + (inject_Z rz - fz c))%Q
        as -> by (apply Qabs_case; intros; lra).
      destruct Hm as [Hm|[Hm|Hm]];
        [specialize (Ux Hm) | specialize (Uy Hm) | specialize (Uz Hm)]; lra2.
Qed.

Lemma round_nearest_cell_witness :
  (fdistance (toF (round (mkFCoord (1 # 2) (1 # 2) (-1)))) (mkFCoord (1 # 2) (1 # 2) (-1))
   <= fdistance (toF (mkCoord 1 1 (-2))) (mkFCoord (1 # 2) (1 # 2) (-1)))%Q.
Proof.
  apply (round_nearest_cell (mkFCoord (1 # 2) (1 # 2) (-1)) (mkCoord 1 1 (-2)));
    reflexivity.
Defined.

(** * Further properties of the grid store *)

(** ** What the constructors build *)

(** A nested loop visits the concatenation of its inner ranges. *)
Lemma foldl_bind {A B C} (g : A → C → A) (h : B → list C) (a : A) (l : list B) :
  foldl (λ a b, foldl g a (h b)) a l = foldl g a (l ≫= h).
Proof.
  revert a. induction l as [|b l IH]; intros a; [done|].
  rewrite bind_cons, foldl_app. cbn [foldl]. apply IH.
Qed.

Lemma foldl_bind_fmap {A B C D} (g : A → D → A) (f : B → C → D) (h : B → list C)
    (a : A) (l : list B) :
  foldl (λ a b, foldl (λ a y, g a (f b y)) a (h b)) a l =
    foldl g a (l ≫= λ b, f b <$> h b).
Proof.
  revert a. induction l as [|b l IH]; intros a; [done|].
  rewrite bind_cons, foldl_app, foldl_fmap. cbn [foldl]. apply IH.
Qed.

Lemma foldl_filter {A B} (P : B → bool) (g : A → B → A) (a : A) (l : list B) :
  foldl (λ a b, if P b then g a b else a) a l = foldl g a (filter (λ b, P b = true) l).
Proof.
  revert a. induction l as [|b l IH]; intros a; [done|]. cbn [foldl].
  destruct (P b) eqn:Hb.
  - rewrite filter_cons_True by done. cbn [foldl]. apply IH.
  - rewrite filter_cons_False by (by rewrite Hb). apply IH.
Qed.

(** The map built by setting a fresh passable cell for each coordinate of a
    list. *)
Lemma build_get d cs m c :
  Map_get (foldl (λ cells c', Map_set cells (hash c') (mkCell c' true d)) m cs) (hash c) =
    if decide (c ∈ cs) then Some (mkCell c true d) else Map_get m (hash c).
Proof.
  revert m. induction cs as [|c' cs IH]; intros m; cbn [foldl].
  - by rewrite decide_False by apply not_elem_of_nil.
  - rewrite IH. destruct (decide (c ∈ cs)) as [Hin|Hin].
    + by rewrite decide_True by (by right).
    + destruct (decide (c' = c)) as [->|Hne].
      * rewrite decide_True by (by left). apply Map_get_set_eq.
      * rewrite decide_False by (by intros [->|?]%elem_of_cons).
        apply Map_get_set_ne. by intros ?%hash_inj.
Qed.

Lemma Map_set_length {V} (m : JSMap V) k v :
  Map_get m k = None → length (Map_set m k v) = S (length m).
Proof.
  induction m as [|[k' v'] m IH]; cbn [Map_get Map_set]; [done|].
  destruct (decide (k' = k)); [done|]. intros H. cbn. by rewrite IH.
Qed.

Lemma build_length d cs m :
  NoDup cs → (∀ c, c ∈ cs → Map_get m (hash c) = None) →
  length (foldl (λ cells c', Map_set cells (hash c') (mkCell c' true d)) m cs) =
    (length m + length cs)%nat.
Proof.
  revert m. induction cs as [|c' cs IH]; intros m Hnd Hm; cbn [foldl].
  - cbn. lia.
  - apply NoDup_cons in Hnd as [Hc' Hnd]. rewrite IH; [| done |].
    + rewrite Map_set_length by (apply Hm; by left). cbn. lia.
    + intros c Hc. rewrite Map_get_set_ne; [apply Hm; by right|].
      intros ?%hash_inj. by subst.
Qed.

Lemma length_bind_sum {A B} (f : A → list B) (g : A → Z) (l : list A) :
  (∀ a, a ∈ l → Z.of_nat (length (f a)) = g a) →
  Z.of_nat (length (l ≫= f)) = foldr (λ a s, g a + s) 0 l.
Proof.
  induction l as [|a l IH]; intros H; [done|].
  rewrite bind_cons, length_app, Nat2Z.inj_add. cbn [foldr].
  rewrite H by (by left). rewrite IH; [done|]. intros b Hb. apply H. by right.
Qed.

Lemma elem_of_upto lo hi k : k ∈ upto lo hi ↔ lo ≤ k ≤ hi.
Proof. unfold upto. rewrite elem_of_seqZ. lia. Qed.

Lemma length_upto lo hi : Z.of_nat (length (upto lo hi)) = Z.max 0 (hi - lo + 1).
Proof. unfold upto. rewrite length_seqZ. lia. Qed.

(** The cells of a hexagon, in the order of the two loops. *)
Lemma createHexGrid_cells radius layout d :
  cells (createHexGrid radius layout d) =
    foldl (λ cells c', Map_set cells (hash c') (mkCell c' true d)) []
      (upto (- radius) radius ≫= λ x,
         (λ y, mkCoord x y (- x - y)) <$>
           upto (Z.max (- radius) (- x - radius)) (Z.min radius (- x + radius))).
Proof.
  unfold createHexGrid; cbn [cells].
  apply (foldl_bind_fmap
    (λ cells c', Map_set cells (hash c') (mkCell c' true d))
    (λ x y, mkCoord x y (- x - y))).
Qed.

(** The number of cells of a hexagon of radius [n]: row [x] holds
    [2 n + 1 - |x|] cells. *)
Lemma hexagon_rows_shift (n : nat) l a :
  foldr (λ x s, (2 * Z.of_nat (S n) + 1 - Z.abs x) + s) a l =
    foldr (λ x s, (2 * Z.of_nat n + 1 - Z.abs x) + s) a l + 2 * Z.of_nat (length l).
Proof. induction l as [|x l IH]; cbn [foldr length]; lia. Qed.

Lemma hexagon_rows_sum (n : nat) :
  foldr (λ x s, (2 * Z.of_nat n + 1 - Z.abs x) + s) 0
    (seqZ (- Z.of_nat n) (2 * Z.of_nat n + 1)) = 3 * Z.of_nat n * (Z.of_nat n + 1) + 1.
Proof.
  induction n as [|n IH]; [reflexivity|].
  rewrite seqZ_cons by lia.
  replace (Z.pred (2 * Z.of_nat (S n) + 1)) with ((2 * Z.of_nat n + 1) + 1) by lia.
  rewrite seqZ_app by lia.
  replace (Z.succ (- Z.of_nat (S n))) with (- Z.of_nat n) by lia.
  cbn [foldr]. rewrite foldr_app, hexagon_rows_shift.
  replace (seqZ (- Z.of_nat n + (2 * Z.of_nat n + 1)) 1) with [Z.of_nat (S n)]
    by (replace (- Z.of_nat n + (2 * Z.of_nat n + 1)) with (Z.of_nat (S n)) by lia;
        reflexivity).
  cbn [foldr].
  assert (∀ l a b, foldr (λ x s, (2 * Z.of_nat n + 1 - Z.abs x) + s) (a + b) l =
                   foldr (λ x s, (2 * Z.of_nat n + 1 - Z.abs x) + s) b l + a) as Hacc.
  { intros l a b. induction l as [|x l IHl]; cbn [foldr]; lia. }
  rewrite Hacc, IH, length_seqZ. lia.
Qed.

(** X8.  [createHexGrid] holds exactly the integer cube coordinates whose
    three components are at most [radius] in absolute value, each as a
    passable cell with the default data; for a radius [r >= 0] these are
    [3 r (r + 1) + 1] cells, and none for a negative radius. *)
Theorem createHexGrid_contents (radius : Z) (layout : Layout) (d : Obj) (c : Coord) :
  getCell (createHexGrid radius layout d) c =
    (if decide (valid c ∧ Z.abs (x c) ≤ radius ∧ Z.abs (y c) ≤ radius
                ∧ Z.abs (z c) ≤ radius)
     then Some (mkCell c true d) else None) ∧
  Z.of_nat (length (cells (createHexGrid radius layout d))) =
    (if decide (0 ≤ radius) then 3 * radius * (radius + 1) + 1 else 0).
Proof.
  split.
  - unfold getCell. rewrite createHexGrid_cells, build_get. cbn [Map_get].
    apply decide_ext. rewrite list_elem_of_bind. split.
    + intros (cx & Hc & Hx). apply list_elem_of_fmap in Hc as (cy & -> & Hy).
      apply elem_of_upto in Hx, Hy. unfold valid; cbn [x y z]. lia.
    + intros (Hv & Hx & Hy & Hz). unfold valid in Hv. exists (x c). split.
      * apply list_elem_of_fmap. exists (y c). split.
        -- destruct c as [cx cy cz]; cbn [x y z] in *. f_equal. lia.
        -- apply elem_of_upto. lia.
      * apply elem_of_upto. lia.
  - rewrite createHexGrid_cells, build_length; cbn [length Nat.add]; [| |done].
    + rewrite (length_bind_sum _ (λ x, 2 * radius + 1 - Z.abs x)).
      * case_decide as Hr.
        -- rewrite <- (Z2Nat.id radius) by done. unfold upto.
           replace (Z.of_nat (Z.to_nat radius) - - Z.of_nat (Z.to_nat radius) + 1)
             with (2 * Z.of_nat (Z.to_nat radius) + 1) by lia.
           apply hexagon_rows_sum.
        -- unfold upto. rewrite seqZ_nil by lia. reflexivity.
      * intros cx Hx%elem_of_upto. rewrite length_fmap, length_upto. lia.
    + apply NoDup_bind.
      * intros x1 x2 c' _ _ (y1 & -> & _)%list_elem_of_fmap (y2 & [= -> _] & _)%list_elem_of_fmap.
        done.
      * intros cx _. apply NoDup_fmap_2; [|apply NoDup_seqZ]. by intros y1 y2 [= ->].
      * apply NoDup_seqZ.
Qed.

Lemma cubeToOffset_offsetToCube o layout : cubeToOffset (offsetToCube o layout) layout = o.
Proof.
  destruct o as [oc or]. destruct layout; unfold offsetToCube, cubeToOffset;
    cbn [col row x y z]; f_equal; lia.
Qed.

Lemma createGrid_cells width height layout d :
  cells (createGrid width height layout d) =
    foldl (λ cells c', Map_set cells (hash c') (mkCell c' true d)) []
      (upto 0 (height - 1) ≫= λ row,
         (λ col, offsetToCube (mkOffset col row) layout) <$> upto 0 (width - 1)).
Proof.
  unfold createGrid; cbn [cells].
  apply (foldl_bind_fmap
    (λ cells c', Map_set cells (hash c') (mkCell c' true d))
    (λ row col, offsetToCube (mkOffset col row) layout)).
Qed.

Lemma rows_sum (w : Z) (l : list Z) : foldr (λ _ s, w + s) 0 l = w * Z.of_nat (length l).
Proof. induction l as [|a l IH]; cbn [foldr length]; lia. Qed.

(** X9.  [createGrid] holds exactly the integer cube coordinates whose
    offset column lies in [0, width) and whose offset row lies in
    [0, height), each as a passable cell with the default data: [width]
    times [height] cells, and none when either is not positive. *)
Theorem createGrid_contents (width height : Z) (layout : Layout) (d : Obj) (c : Coord) :
  getCell (createGrid width height layout d) c =
    (if decide (valid c ∧ 0 ≤ col (cubeToOffset c layout) < width
                ∧ 0 ≤ row (cubeToOffset c layout) < height)
     then Some (mkCell c true d) else None) ∧
  Z.of_nat (length (cells (createGrid width height layout d))) =
    Z.max 0 width * Z.max 0 height.
Proof.
  split.
  - unfold getCell. rewrite createGrid_cells, build_get. cbn [Map_get].
    apply decide_ext. rewrite list_elem_of_bind. split.
    + intros (r & Hc & Hr). apply list_elem_of_fmap in Hc as (k & -> & Hk).
      apply elem_of_upto in Hr, Hk. rewrite cubeToOffset_offsetToCube. cbn [col row].
      split; [apply offsetToCube_valid | lia].
    + intros (Hv & Hcol & Hrow). exists (row (cubeToOffset c layout)). split.
      * apply list_elem_of_fmap. exists (col (cubeToOffset c layout)). split.
        -- rewrite <- (offsetToCube_cubeToOffset c layout) at 1 by done.
           by destruct (cubeToOffset c layout).
        -- apply elem_of_upto. lia.
      * apply elem_of_upto. lia.
  - rewrite createGrid_cells, build_length; cbn [length Nat.add]; [| |done].
    + rewrite (length_bind_sum _ (λ _, Z.max 0 width)).
      * rewrite rows_sum, length_upto. f_equal. lia.
      * intros r _. rewrite length_fmap, length_upto. f_equal. lia.
    + apply NoDup_bind.
      * intros r1 r2 c' _ _ (k1 & -> & _)%list_elem_of_fmap (k2 & Heq & _)%list_elem_of_fmap.
        apply (f_equal (λ c, row (cubeToOffset c layout))) in Heq.
        by rewrite !cubeToOffset_offsetToCube in Heq.
      * intros r _. apply NoDup_fmap_2; [|apply NoDup_seqZ]. intros k1 k2 Heq.
        apply (f_equal (λ c, col (cubeToOffset c layout))) in Heq.
        by rewrite !cubeToOffset_offsetToCube in Heq.
      * apply NoDup_seqZ.
Qed.

Lemma createCustomGrid_cells predicate minX maxX minY maxY layout d :
  cells (createCustomGrid predicate minX maxX minY maxY layout d) =
    foldl (λ cells c', Map_set cells (hash c') (mkCell c' true d)) []
      (filter (λ c', predicate c' = true)
         (upto minX maxX ≫= λ x, (λ y, mkCoord x y (- x - y)) <$> upto minY maxY)).
Proof.
  unfold createCustomGrid; cbn [cells]. rewrite <- foldl_filter.
  apply (foldl_bind_fmap
    (λ cells c', if predicate c'
                 then Map_set cells (hash c') (mkCell c' true d) else cells)
    (λ x y, mkCoord x y (- x - y))).
Qed.

(** X10.  [createCustomGrid] holds exactly the integer cube coordinates
    within the bounds on x and y that the predicate accepts, each as a
    passable cell with the default data. *)
Theorem createCustomGrid_contents (predicate : Coord → bool) (minX maxX minY maxY : Z)
    (layout : Layout) (d : Obj) (c : Coord) :
  getCell (createCustomGrid predicate minX maxX minY maxY layout d) c =
    if decide (valid c ∧ minX ≤ x c ≤ maxX ∧ minY ≤ y c ≤ maxY ∧ predicate c = true)
    then Some (mkCell c true d) else None.
Proof.
  unfold getCell. rewrite createCustomGrid_cells, build_get. cbn [Map_get].
  apply decide_ext. rewrite list_elem_of_filter, list_elem_of_bind. split.
  - intros (Hp & cx & Hc & Hx). apply list_elem_of_fmap in Hc as (cy & -> & Hy).
    apply elem_of_upto in Hx, Hy. unfold valid; cbn [x y z]. repeat split; try lia. done.
  - intros (Hv & Hx & Hy & Hp). unfold valid in Hv. split; [done|].
    exists (x c). split.
    + apply list_elem_of_fmap. exists (y c). split.
      * destruct c as [cx cy cz]; cbn [x y z] in *. f_equal. lia.
      * by apply elem_of_upto.
    + by apply elem_of_upto.
Qed.

(** ** Laws of the single-cell operations *)

Lemma Map_set_set {V} (m : JSMap V) k v v' : Map_set (Map_set m k v) k v' = Map_set m k v'.
Proof.
  induction m as [|[k0 v0] m IH]; cbn [Map_set].
  - by rewrite decide_True.
  - destruct (decide (k0 = k)) as [->|Hne]; cbn [Map_set].
    + by rewrite decide_True.
    + rewrite decide_False by done. by rewrite IH.
Qed.

Lemma Map_set_absent {V} (m : JSMap V) k v :
  Map_get m k = None → Map_set m k v = m ++ [(k, v)].
Proof.
  induction m as [|[k0 v0] m IH]; cbn [Map_get Map_set]; [done|].
  destruct (decide (k0 = k)); [done|]. intros H. by rewrite IH.
Qed.

Lemma Map_delete_app {V} (m1 m2 : JSMap V) k :
  Map_delete (m1 ++ m2) k = Map_delete m1 k ++ Map_delete m2 k.
Proof. unfold Map_delete. apply filter_app. Qed.

Lemma Map_delete_set_absent {V} (m : JSMap V) k v :
  Map_get m k = None → Map_delete (Map_set m k v) k = m.
Proof.
  intros H. rewrite Map_set_absent, Map_delete_app, Map_delete_absent by done.
  rewrite Map_delete_cons_eq. cbn. apply app_nil_r.
Qed.

Lemma Map_delete_delete {V} (m : JSMap V) k : Map_delete (Map_delete m k) k = Map_delete m k.
Proof. apply Map_delete_absent, Map_get_delete_eq. Qed.

Lemma Map_set_length_present {V} (m : JSMap V) k v :
  Map_has m k = true → length (Map_set m k v) = length m.
Proof.
  unfold Map_has. induction m as [|[k0 v0] m IH]; cbn [Map_get Map_set]; [done|].
  destruct (decide (k0 = k)); [done|]. intros H. cbn. by rewrite IH.
Qed.

Lemma Map_delete_length {V} (m : JSMap V) k :
  Map_wf m → Map_has m k = true → S (length (Map_delete m k)) = length m.
Proof.
  unfold Map_has, Map_wf, Map_keys. induction m as [|[k0 v0] m IH]; [done|].
  cbn [fmap list_fmap fst]. intros [Hk0 Hnd]%NoDup_cons. cbn [Map_get].
  destruct (decide (k0 = k)) as [->|Hne].
  - intros _. rewrite Map_delete_cons_eq, Map_delete_absent; [done|].
    by apply Map_get_None.
  - intros H. rewrite Map_delete_cons_ne by done. cbn [length]. by rewrite IH.
Qed.

(** X11.  A cell that was set is present and one that was removed is
    absent; setting twice keeps the second value and removing twice is
    removing once; setting a cell at a free coordinate and removing it
    again gives back the grid; setting adds one cell at a free coordinate
    and none at an occupied one, and removing a present cell takes one
    away. *)
Theorem setCell_removeCell_laws (g : Grid) (c : Coord) (cell cell' : Cell) :
  hasCell (setCell g c cell) c = true ∧
  hasCell (removeCell g c) c = false ∧
  setCell (setCell g c cell) c cell' = setCell g c cell' ∧
  removeCell (removeCell g c) c = removeCell g c ∧
  (hasCell g c = false → removeCell (setCell g c cell) c = g) ∧
  length (cells (setCell g c cell)) =
    (if hasCell g c then length (cells g) else S (length (cells g))) ∧
  (grid_wf g → hasCell g c = true →
     S (length (cells (removeCell g c))) = length (cells g)).
Proof.
  split; [|split; [|split; [|split; [|split; [|split]]]]].
  - apply hasCell_true. rewrite getCell_setCell_eq. by eexists.
  - apply hasCell_false, getCell_removeCell_eq.
  - unfold setCell, with_cells; cbn [cells layout size]. by rewrite Map_set_set.
  - unfold removeCell, with_cells; cbn [cells layout size]. by rewrite Map_delete_delete.
  - intros H. apply hasCell_false in H. unfold removeCell, setCell, with_cells;
      cbn [cells layout size]. rewrite Map_delete_set_absent by done. by destruct g.
  - unfold setCell; cbn [cells with_cells]. destruct (hasCell g c) eqn:H.
    + by apply Map_set_length_present.
    + apply Map_set_length. by apply hasCell_false in H.
  - intros [Hwf _] H. by apply Map_delete_length.
Qed.

Lemma setCell_removeCell_laws_witness :
  removeCell (setCell sample_grid (mkCoord 0 1 (-1)) (mkCell (mkCoord 0 0 0) false []))
    (mkCoord 0 1 (-1)) = sample_grid.
Proof.
  apply (setCell_removeCell_laws sample_grid (mkCoord 0 1 (-1))
    (mkCell (mkCoord 0 0 0) false []) (mkCell (mkCoord 0 0 0) false [])).
  reflexivity.
Defined.

(** ** Passability and the scans over all cells *)

Lemma grid_wf_coords_NoDup g : grid_wf g → NoDup ((λ e, coord e.2) <$> cells g).
Proof.
  intros [Hnd Hk]. unfold Map_wf, Map_keys in Hnd.
  assert (hash <$> ((λ e : string * Cell, coord e.2) <$> cells g) = (cells g).*1) as Heq.
  { rewrite <- list_fmap_compose. apply Forall_fmap_ext_1.
    apply Forall_forall. intros [k cell] Hin. cbn. by apply Hk. }
  rewrite <- Heq in Hnd. by apply NoDup_fmap_1 in Hnd.
Qed.

Lemma elem_of_filterCells g predicate c :
  grid_wf g →
  c ∈ filterCells g predicate ↔ ∃ cell, getCell g c = Some cell ∧ predicate cell = true.
Proof.
  intros Hwf. unfold filterCells.
  rewrite (foldl_push_filter (λ e, predicate e.2) (λ e, coord e.2)), app_nil_l.
  rewrite list_elem_of_fmap. split.
  - intros ([k cell] & -> & [Hp Hin]%list_elem_of_filter). exists cell.
    split; [by eapply grid_wf_elem | done].
  - intros (cell & Hc & Hp). exists (hash c, cell). cbn [snd].
    split; [symmetry; by eapply grid_wf_getCell|].
    apply list_elem_of_filter. split; [done|]. by apply Map_get_Some_elem.
Qed.

(** X12.  After [setPassable] the targeted cell, if present, has the given
    passability and every other coordinate answers as before; an absent
    coordinate is never passable.  [getObstacles] lists, without
    repetition, exactly the cells that are present and not passable. *)
Theorem passability_laws (g : Grid) (c c' : Coord) (p : bool) :
  isPassable (setPassable g c p) c' =
    (if decide (c' = c) then hasCell g c && p else isPassable g c') ∧
  (hasCell g c' = false → isPassable g c' = false) ∧
  (grid_wf g →
     NoDup (getObstacles g) ∧
     (c' ∈ getObstacles g ↔ hasCell g c' = true ∧ isPassable g c' = false)).
Proof.
  split; [|split].
  - unfold isPassable, setPassable. destruct (decide (c' = c)) as [->|Hne].
    + unfold updateCell, hasCell, Map_has. fold (getCell g c).
      destruct (getCell g c) as [cell|] eqn:Hc.
      * by rewrite getCell_setCell_eq.
      * by rewrite Hc.
    + by rewrite getCell_updateCell_ne.
  - intros H%hasCell_false. unfold isPassable. by rewrite H.
  - intros Hwf. change (getObstacles g) with (filterCells g (λ cell, negb (passable cell))).
    split.
    + unfold filterCells.
      rewrite (foldl_push_filter (λ e : string * Cell, negb (passable e.2))
                 (λ e, coord e.2)), app_nil_l.
      pose proof (grid_wf_coords_NoDup g Hwf) as Hnd.
      eapply sublist_NoDup; [exact Hnd|]. apply fmap_sublist, sublist_filter.
    + rewrite elem_of_filterCells by done. unfold isPassable. split.
      * intros (cell & Hc & Hp). split; [apply hasCell_true; by eexists|].
        rewrite Hc. by apply negb_true_iff.
      * intros [[cell Hc]%hasCell_true Hp]. exists cell. split; [done|].
        rewrite Hc in Hp. by apply negb_true_iff.
Qed.

Lemma passability_laws_witness :
  NoDup (getObstacles sample_grid) ∧
  (mkCoord 0 0 0 ∈ getObstacles sample_grid ↔
     hasCell sample_grid (mkCoord 0 0 0) = true ∧
     isPassable sample_grid (mkCoord 0 0 0) = false).
Proof.
  apply (passability_laws sample_grid (mkCoord 0 0 0) (mkCoord 0 0 0) true).
  apply sample_grid_wf.
Defined.

Lemma Map_rebuild_entries {V} (fn : V → V) (m acc : JSMap V) :
  NoDup (Map_keys acc ++ Map_keys m) →
  foldl (λ newCells e, Map_set newCells e.1 (fn e.2)) acc m =
    acc ++ ((λ e, (e.1, fn e.2)) <$> m).
Proof.
  revert acc. induction m as [|[k v] m IH]; intros acc Hnd; cbn [foldl].
  - cbn. by rewrite app_nil_r.
  - cbn [fst snd]. unfold Map_keys in Hnd. cbn [fmap list_fmap fst] in Hnd.
    assert (Map_get acc k = None) as Hk.
    { apply Map_get_None. apply NoDup_app in Hnd as (_ & Hd & _).
      intros Hin. apply (Hd k Hin). by left. }
    rewrite Map_set_absent by done. rewrite IH.
    + cbn [fmap list_fmap fst snd]. by rewrite <- app_assoc.
    + unfold Map_keys. rewrite fmap_app. cbn [fmap list_fmap fst].
      by rewrite <- app_assoc.
Qed.

(** X13.  [mapCells] applies the function to every cell and keeps the keys
    and their order, whatever the function does to the coordinate inside
    the cell: mapping the identity gives back the grid, and mapping twice
    is mapping the composition. *)
Theorem mapCells_laws (g : Grid) (f h : Cell → Cell) :
  Map_wf (cells g) →
  cells (mapCells g f) = (λ e, (e.1, f e.2)) <$> cells g ∧
  mapCells g (λ cell, cell) = g ∧
  mapCells (mapCells g f) h = mapCells g (λ cell, h (f cell)).
Proof.
  intros Hwf.
  assert (∀ g' fn, Map_wf (cells g') →
            cells (mapCells g' fn) = (λ e, (e.1, fn e.2)) <$> cells g') as Hcells.
  { intros g' fn Hwf'. unfold mapCells; cbn [cells with_cells].
    by rewrite Map_rebuild_entries. }
  split; [by apply Hcells|]. split.
  - pose proof (Hcells g (λ cell, cell) Hwf) as H. destruct g as [m l s].
    unfold mapCells, with_cells in *; cbn [cells layout size] in *. rewrite H.
    f_equal. rewrite <- (list_fmap_id m) at 2.
    apply Forall_fmap_ext_1, Forall_forall. by intros [k v] _.
  - pose proof (Hcells g f Hwf) as H1.
    assert (Map_wf (cells (mapCells g f))) as Hwf'.
    { unfold Map_wf, Map_keys. rewrite H1, <- list_fmap_compose. exact Hwf. }
    pose proof (Hcells (mapCells g f) h Hwf') as H2.
    pose proof (Hcells g (λ cell, h (f cell)) Hwf) as H3.
    destruct g as [m l s].
    unfold mapCells, with_cells in *; cbn [cells layout size] in *.
    rewrite H2, H1, H3. f_equal. by rewrite <- list_fmap_compose.
Qed.

Lemma mapCells_laws_witness :
  mapCells sample_grid (λ cell, cell) = sample_grid.
Proof.
  apply (mapCells_laws sample_grid (λ cell, cell) (λ cell, cell)).
  apply sample_grid_wf.
Defined.

(** X14.  On a grid whose cells are stored under the hash of their
    coordinate, [filterCells] returns, without repetition and in the order
    of the map, exactly the coordinates of the cells that satisfy the
    predicate. *)
Theorem filterCells_exact (g : Grid) (predicate : Cell → bool) (c : Coord) :
  grid_wf g →
  NoDup (filterCells g predicate) ∧
  (filterCells g predicate `sublist_of` ((λ e, coord e.2) <$> cells g)) ∧
  (c ∈ filterCells g predicate ↔
     ∃ cell, getCell g c = Some cell ∧ predicate cell = true).
Proof.
  intros Hwf.
  assert (∀ P, filterCells g P =
               (λ e : string * Cell, coord e.2) <$> filter (λ e, P e.2 = true) (cells g))
    as Hf.
  { intros P. unfold filterCells.
    by rewrite (foldl_push_filter (λ e, P e.2) (λ e, coord e.2)), app_nil_l. }
  split; [|split].
  - rewrite Hf. eapply sublist_NoDup; [exact (grid_wf_coords_NoDup g Hwf)|].
    apply fmap_sublist, sublist_filter.
  - rewrite Hf. apply fmap_sublist, sublist_filter.
  - by apply elem_of_filterCells.
Qed.

Lemma filterCells_exact_witness :
  NoDup (filterCells sample_grid (λ cell, passable cell)).
Proof.
  apply (filterCells_exact sample_grid (λ cell, passable cell) (mkCoord 0 0 0)).
  apply sample_grid_wf.
Defined.

(** ** Cell data and entities *)

Lemma truthy_id_not_nullish e :
  truthy (prop_get e "id") = true → e ≠ VUndefined ∧ e ≠ VNull.
Proof. by destruct e. Qed.

Lemma merge_entity_with_id newData e :
  truthy (prop_get e "id") = true →
  merge_entity newData e = Map_set newData (to_key (prop_get e "id")) e.
Proof. intros H. unfold merge_entity. rewrite H. by destruct e. Qed.

(** X15.  On a cell that is present, the last entity handed to
    [setCellData] is stored in the data of the cell under its [id], when
    the [id] is truthy; the coordinate and the passability of the cell
    stay.  With that entity alone, every other key of the data keeps its
    value.  (The key [__proto__] is excluded: assigning to it does not
    create a property.) *)
Theorem setCellData_stores_entity (g : Grid) (c : Coord) (cell : Cell)
    (es : list Value) (e : Value) :
  getCell g c = Some cell →
  truthy (prop_get e "id") = true →
  to_key (prop_get e "id") ≠ "__proto__" →
  (∃ cell',
      getCell (setCellData g c (es ++ [e])) c = Some cell' ∧
      coord cell' = c ∧ passable cell' = passable cell ∧
      Map_get (data cell') (to_key (prop_get e "id")) = Some e) ∧
  (∃ cell',
      getCell (setCellData g c [e]) c = Some cell' ∧
      ∀ k, k ≠ to_key (prop_get e "id") → Map_get (data cell') k = Map_get (data cell) k).
Proof.
  intros Hc Hid _. split.
  - unfold setCellData. rewrite Hc. destruct (es ++ [e]) as [|e0 es0] eqn:Hes.
    { by destruct es. }
    rewrite <- Hes, getCell_setCell_eq. eexists. split; [done|].
    unfold with_coord, with_data; cbn [coord passable data].
    split; [done|]. split; [done|].
    rewrite foldl_app. cbn [foldl]. rewrite merge_entity_with_id by done.
    apply Map_get_set_eq.
  - unfold setCellData. rewrite Hc, getCell_setCell_eq. eexists. split; [done|].
    intros k Hk. unfold with_coord, with_data; cbn [coord passable data foldl].
    rewrite merge_entity_with_id by done. by apply Map_get_set_ne.
Qed.

Lemma setCellData_stores_entity_witness :
  ∃ cell',
    getCell (setCellData sample_grid (mkCoord 0 0 0)
               ([VNull] ++ [VObj [("id", VStr "e1"); ("hp", VNum 3)]])) (mkCoord 0 0 0)
      = Some cell' ∧
    coord cell' = mkCoord 0 0 0 ∧ passable cell' = true ∧
    Map_get (data cell') "e1" = Some (VObj [("id", VStr "e1"); ("hp", VNum 3)]).
Proof.
  apply (setCellData_stores_entity sample_grid (mkCoord 0 0 0)
    (mkCell (mkCoord 0 0 0) true []) [VNull]
    (VObj [("id", VStr "e1"); ("hp", VNum 3)])); [reflexivity | reflexivity | discriminate].
Defined.

Lemma Object_assign_get target source k :
  Map_wf (own_props source) →
  Map_get (Object_assign target source) k =
    match Map_get (own_props source) k with
    | Some v => Some v
    | None => Map_get target k
    end.
Proof.
  unfold Object_assign, Map_wf, Map_keys. generalize (own_props source). intros props.
  revert target. induction props as [|[k' v'] props IH]; intros target Hnd; [done|].
  cbn [fmap list_fmap fst] in Hnd. apply NoDup_cons in Hnd as [Hk' Hnd].
  cbn [foldl fst snd Map_get]. rewrite IH by done.
  destruct (decide (k' = k)) as [->|Hne].
  - apply (Map_get_None props) in Hk'. rewrite Hk'. apply Map_get_set_eq.
  - destruct (Map_get props k); [done|]. by apply Map_get_set_ne.
Qed.

Lemma entity_id_inj (n m : nat) : "entity-" +:+ pretty n = "entity-" +:+ pretty m → n = m.
Proof. intros H. apply (inj pretty). by simplify_eq/=. Qed.

(** X16.  [createEntity] advances the counter by one and names the entity
    [entity-n] after the counter [n] it found, so that different counters
    give different names; every property of the components is a property
    of the entity with the same value, an [id] among them replacing the
    generated one. *)
Theorem createEntity_ids (components : Value) (n m : nat) (k : string) (v : Value) :
  (createEntity components n).2 = S n ∧
  ("entity-" +:+ pretty n = "entity-" +:+ pretty m → n = m) ∧
  (Map_wf (own_props components) →
     (Map_get (own_props components) "id" = None →
        Map_get (createEntity components n).1 "id"
          = Some (VStr ("entity-" +:+ pretty n))) ∧
     (Map_get (own_props components) k = Some v →
        Map_get (createEntity components n).1 k = Some v)).
Proof.
  split; [done|]. split; [apply entity_id_inj|].
  intros Hwf. unfold createEntity; cbn [fst]. split; intros H.
  - rewrite Object_assign_get, H by done. cbn [Map_get]. by rewrite decide_True.
  - by rewrite Object_assign_get, H.
Qed.

Lemma createEntity_ids_witness :
  Map_get (createEntity (VObj [("hp", VNum 3)]) 7).1 "id"
    = Some (VStr ("entity-" +:+ pretty 7%nat)).
Proof.
  refine (proj1 (proj2 (proj2
    (createEntity_ids (VObj [("hp", VNum 3)]) 7 7 "hp" (VNum 3))) _) _).
  - refine (@bool_decide_unpack _ (NoDup_dec _) _). vm_compute. exact I.
  - reflexivity.
Defined.

(** * Further properties of the spatial queries *)

Lemma filter_sublist_mono {A} (P Q : A → Prop) `{∀ x, Decision (P x)}
    `{∀ x, Decision (Q x)} (l : list A) :
  (∀ x, P x → Q x) → filter P l `sublist_of` filter Q l.
Proof.
  intros HPQ. induction l as [|a l IH]; [done|].
  destruct (decide (P a)) as [Ha|Ha].
  - rewrite !filter_cons_True by auto. by constructor.
  - rewrite (filter_cons_False P) by done.
    destruct (decide (Q a)).
    + rewrite filter_cons_True by done. by constructor.
    + by rewrite filter_cons_False by done.
Qed.

Lemma filter_none {A} (P : A → Prop) `{∀ x, Decision (P x)} (l : list A) :
  (∀ x, x ∈ l → ¬ P x) → filter P l = [].
Proof.
  induction l as [|a l IH]; intros Hl; [done|].
  rewrite filter_cons_False by (apply Hl; by left). apply IH.
  intros x Hx. apply Hl. by right.
Qed.

Lemma add_inj c : Inj eq eq (add c).
Proof.
  intros [ax ay az] [bx b_y bz]. unfold add; cbn [x y z]. intros [= ? ? ?].
  f_equal; lia.
Qed.

Lemma DIRECTIONS_NoDup : NoDup DIRECTIONS.
Proof. refine (@bool_decide_unpack _ (NoDup_dec _) _). vm_compute. exact I. Qed.

(** ** Neighbours *)

(** X17.  [getNeighbors] returns, without repetition and in the order of
    the six directions, the cells among the six neighbours that are in the
    grid and, when only passable ones are asked for, passable: at most six,
    never the cell itself, and the passable ones are a sublist of all. *)
Theorem getNeighbors_exact (g : Grid) (c n : Coord) (passableOnly : bool) :
  NoDup (getNeighbors g c passableOnly) ∧
  (length (getNeighbors g c passableOnly) ≤ 6)%nat ∧
  (getNeighbors g c passableOnly `sublist_of`
     [ mkCoord (x c + 1) (y c - 1) (z c);
       mkCoord (x c + 1) (y c) (z c - 1);
       mkCoord (x c) (y c + 1) (z c - 1);
       mkCoord (x c - 1) (y c + 1) (z c);
       mkCoord (x c - 1) (y c) (z c + 1);
       mkCoord (x c) (y c - 1) (z c + 1) ]) ∧
  (getNeighbors g c true `sublist_of` getNeighbors g c false) ∧
  (c ∉ getNeighbors g c passableOnly) ∧
  (n ∈ getNeighbors g c passableOnly ↔
     (∃ i, neighbor c i = Some n) ∧ hasCell g n = true ∧
     (passableOnly = true → isPassable g n = true)).
Proof.
  rewrite !getNeighbors_filter.
  split; [|split; [|split; [|split; [|split]]]].
  - apply NoDup_filter, NoDup_fmap_2; [apply add_inj | apply DIRECTIONS_NoDup].
  - etrans; [apply length_filter|]. by rewrite length_fmap.
  - assert (add c <$> DIRECTIONS =
      [ mkCoord (x c + 1) (y c - 1) (z c);
        mkCoord (x c + 1) (y c) (z c - 1);
        mkCoord (x c) (y c + 1) (z c - 1);
        mkCoord (x c - 1) (y c + 1) (z c);
        mkCoord (x c - 1) (y c) (z c + 1);
        mkCoord (x c) (y c - 1) (z c + 1) ]) as <-.
    { destruct c as [cx cy cz]. unfold DIRECTIONS, add; cbn [fmap list_fmap x y z].
      repeat (f_equal; try lia). }
    apply sublist_filter.
  - apply filter_sublist_mono. intros m [Hm _]%andb_true_iff.
    by rewrite Hm.
  - intros [_ (d & Hd & Hin)%list_elem_of_fmap]%list_elem_of_filter.
    by apply (add_direction_ne c d).
  - rewrite list_elem_of_filter, list_elem_of_fmap, andb_true_iff, orb_true_iff,
      negb_true_iff.
    split.
    + intros [[Hc Hp] (d & -> & [i Hi]%list_elem_of_lookup)]. split.
      * exists i. unfold neighbor. by rewrite Hi.
      * split; [done|]. intros ->. by destruct Hp.
    + intros ([i Hi] & Hc & Hp). unfold neighbor in Hi.
      destruct (DIRECTIONS !! i) as [d|] eqn:Hd; [|done]. injection Hi as <-.
      split.
      * split; [done|]. destruct passableOnly; [right; by apply Hp | by left].
      * exists d. split; [done|]. by eapply list_elem_of_lookup_2.
Qed.

(** ** Ranges and rings *)

Lemma elem_of_getRange g c range c' :
  grid_wf g →
  c' ∈ getRange g c range ↔ hasCell g c' = true ∧ (distance c c' <= range)%Q.
Proof.
  intros Hwf. rewrite getRange_filter, list_elem_of_fmap. split.
  - intros ([k cell] & -> & [Hd Hin]%list_elem_of_filter). cbn [snd] in *.
    split; [|by apply Qle_bool_iff].
    apply hasCell_true. exists cell. by eapply grid_wf_elem.
  - intros [[cell Hc]%hasCell_true Hd]. exists (hash c', cell). cbn [snd].
    pose proof (grid_wf_getCell _ _ _ Hwf Hc) as Hcoord.
    split; [done|]. apply list_elem_of_filter. cbn [snd]. rewrite Hcoord.
    split; [by apply Qle_bool_iff | by apply Map_get_Some_elem].
Qed.

Lemma getRange_NoDup g c range : grid_wf g → NoDup (getRange g c range).
Proof.
  intros Hwf. rewrite getRange_filter.
  eapply sublist_NoDup; [exact (grid_wf_coords_NoDup g Hwf)|].
  apply fmap_sublist, sublist_filter.
Qed.

Lemma getRing_NoDup g c radius : grid_wf g → NoDup (getRing g c radius).
Proof.
  intros Hwf. rewrite getRing_filter.
  eapply sublist_NoDup; [exact (grid_wf_coords_NoDup g Hwf)|].
  apply fmap_sublist, sublist_filter.
Qed.

(** X18.  On a grid whose cells are stored under the hash of their
    coordinate, [getRange] returns, without repetition and in the order of
    the map, exactly the cells within the given distance, passable or not;
    a larger range extends the result, every ring of a radius within the
    range is part of it, and a negative range gives nothing. *)
Theorem getRange_exact (g : Grid) (c c' : Coord) (range range' : Q) :
  grid_wf g →
  NoDup (getRange g c range) ∧
  (c' ∈ getRange g c range ↔ hasCell g c' = true ∧ (distance c c' <= range)%Q) ∧
  ((range <= range')%Q →
     (getRange g c range `sublist_of` getRange g c range') ∧
     (getRing g c range `sublist_of` getRange g c range')) ∧
  ((range < 0)%Q → getRange g c range = []).
Proof.
  intros Hwf. split; [by apply getRange_NoDup|]. split; [by apply elem_of_getRange|].
  split.
  - intros Hle. rewrite getRing_filter, !getRange_filter.
    split; apply fmap_sublist, filter_sublist_mono; intros [k cell]; cbn [snd].
    + rewrite !Qle_bool_iff. intros H. by eapply Qle_trans.
    + rewrite Qeq_bool_iff, Qle_bool_iff. intros ->. done.
  - intros Hneg. rewrite getRange_filter.
    rewrite filter_none; [done|].
    intros [k cell] _. cbn [snd]. rewrite Qle_bool_iff.
    pose proof (distance_nonneg c (coord cell)). lra.
Qed.

Lemma getRange_exact_witness :
  NoDup (getRange sample_grid (mkCoord 0 0 0) 1).
Proof.
  apply (getRange_exact sample_grid (mkCoord 0 0 0) (mkCoord 0 0 0) 1 1).
  apply sample_grid_wf.
Defined.

Lemma concat_fmap_bind {A B} (f : A → list B) (l : list A) : concat (f <$> l) = l ≫= f.
Proof. induction l as [|a l IH]; [done|]. cbn. by rewrite IH. Qed.

(** X19.  On a grid of integer cube coordinates stored under their hash,
    around a center that is a cell of the grid, the spiral up to a radius
    [r >= 0] holds the same cells as the range [r], each once: the spiral
    is the range sorted by rings. *)
Theorem getSpiral_permutes_range (g : Grid) (center : Coord) (maxRadius : Q) :
  grid_wf g →
  (∀ k cell, (k, cell) ∈ cells g → valid (coord cell)) →
  valid center → hasCell g center = true → (0 <= maxRadius)%Q →
  getSpiral g center maxRadius ≡ₚ getRange g center maxRadius.
Proof.
  intros Hwf Hvalid Hc Hin Hr.
  assert (∀ c', c' ∈ getSpiral g center maxRadius ↔ c' ∈ getRange g center maxRadius)
    as Hiff.
  { intros c'. rewrite getSpiral_rings, elem_of_app, list_elem_of_singleton,
      elem_of_concat, elem_of_getRange by done.
    split.
    - intros [->|(l & Hl & (r & -> & Hrr%elem_of_upto)%list_elem_of_fmap)].
      + split; [done|]. assert (distance center center == 0)%Q as ->
          by (by apply distance_zero). done.
      + apply elem_of_getRing in Hl as (k & cell & Hcell & <- & Hd). split.
        * apply hasCell_true. exists cell. by eapply grid_wf_elem.
        * rewrite Hd. apply Qfloor_ge. lia.
    - intros [[cell Hcell]%hasCell_true Hd].
      pose proof (grid_wf_getCell _ _ _ Hwf Hcell) as Hcoord.
      pose proof (Map_get_Some_elem _ _ _ Hcell) as Helem.
      assert (valid c') as Hv by (rewrite <- Hcoord; by eapply Hvalid).
      destruct (distance_integer center c' Hc Hv) as (n & Hn & Hdn).
      destruct (decide (n = 0)) as [->|Hn0].
      + left. symmetry. by apply distance_zero.
      + right. exists (getRing g center (inject_Z n)). split.
        * apply elem_of_getRing. by exists (hash c'), cell.
        * apply list_elem_of_fmap. exists n. split; [done|].
          apply elem_of_upto. split; [lia|]. apply Qfloor_ge. by rewrite <- Hdn. }
  apply NoDup_Permutation; [|by apply getRange_NoDup|done].
  rewrite getSpiral_rings. apply NoDup_app. split; [apply NoDup_singleton|]. split.
  - intros c' ->%list_elem_of_singleton
      (l & Hl & (r & -> & Hrr%elem_of_upto)%list_elem_of_fmap)%elem_of_concat.
    apply elem_of_getRing in Hl as (_ & _ & _ & _ & Hd).
    assert (distance center center == 0)%Q as H0 by (by apply distance_zero).
    rewrite H0 in Hd. change 0%Q with (inject_Z 0) in Hd.
    apply (proj1 (inject_Z_injective _ _)) in Hd. lia.
  - rewrite concat_fmap_bind. apply NoDup_bind.
    + intros r1 r2 c' _ _ (_ & _ & _ & _ & H1)%elem_of_getRing
        (_ & _ & _ & _ & H2)%elem_of_getRing.
      rewrite H1 in H2. by apply (proj1 (inject_Z_injective _ _)) in H2.
    + intros r _. by apply getRing_NoDup.
    + apply NoDup_seqZ.
Qed.

Lemma getSpiral_permutes_range_witness :
  getSpiral sample_grid (mkCoord 0 0 0) 2 ≡ₚ getRange sample_grid (mkCoord 0 0 0) 2.
Proof.
  apply (getSpiral_permutes_range sample_grid (mkCoord 0 0 0) 2).
  - apply sample_grid_wf.
  - intros k cell Hin. unfold sample_grid, sample_map in Hin. cbn [cells] in Hin.
    repeat (apply elem_of_cons in Hin as [[= -> ->]|Hin]; [reflexivity|]).
    by apply elem_of_nil in Hin.
  - reflexivity.
  - reflexivity.
  - discriminate.
Defined.

(** ** The flood fill *)

Lemma concat_alter_snoc {A} (c : A) (ls : list (list A)) (k : nat) :
  concat (alter (λ fringe, fringe ++ [c]) k ls) ≡ₚ
    if decide (k < length ls)%nat then c :: concat ls else concat ls.
Proof.
  revert k. induction ls as [|l ls IH]; intros k.
  - by destruct k.
  - destruct k as [|k]; cbn [alter list_alter concat length].
    + rewrite decide_True by lia. rewrite <- app_assoc. cbn.
      by rewrite <- Permutation_middle.
    + change (list_alter ?f k ls) with (alter f k ls). rewrite IH.
      destruct (decide (k < length ls)%nat).
      * rewrite decide_True by lia. by rewrite <- Permutation_middle.
      * by rewrite decide_False by lia.
Qed.

(** No coordinate is entered twice, and every coordinate entered is
    marked as visited. *)
Lemma flood_neighbor_once k st c :
  NoDup (concat (fringes st)) ∧ (∀ c', c' ∈ concat (fringes st) → hash c' ∈ visited st) →
  NoDup (concat (fringes (flood_neighbor k st c))) ∧
  (∀ c', c' ∈ concat (fringes (flood_neighbor k st c)) →
     hash c' ∈ visited (flood_neighbor k st c)).
Proof.
  intros [Hnd Hv]. unfold flood_neighbor.
  destruct (decide (hash c ∈ visited st)) as [Hc|Hc]; [done|].
  cbn [fringes visited].
  pose proof (concat_alter_snoc c (fringes st) k) as Hp.
  destruct (decide (k < length (fringes st))%nat).
  - split.
    + rewrite Hp. apply NoDup_cons. split; [|done]. intros Hin. by apply Hc, Hv.
    + intros c'. rewrite Hp, elem_of_cons, elem_of_union, elem_of_singleton.
      intros [->|Hin]; [by left | right; by apply Hv].
  - split.
    + by rewrite Hp.
    + intros c'. rewrite Hp, elem_of_union. intros Hin. right. by apply Hv.
Qed.

Lemma flood_layer_once g st k :
  NoDup (concat (fringes st)) ∧ (∀ c', c' ∈ concat (fringes st) → hash c' ∈ visited st) →
  NoDup (concat (fringes (flood_layer g st k))) ∧
  (∀ c', c' ∈ concat (fringes (flood_layer g st k)) →
     hash c' ∈ visited (flood_layer g st k)).
Proof.
  intros Hst. unfold flood_layer.
  apply (foldl_invariant (λ st, NoDup (concat (fringes st)) ∧
           ∀ c', c' ∈ concat (fringes st) → hash c' ∈ visited st)).
  - cbn [fringes visited]. rewrite concat_app. cbn [concat]. by rewrite !app_nil_r.
  - intros st' b Hst'. unfold flood_coord.
    apply (foldl_invariant (λ st, NoDup (concat (fringes st)) ∧
             ∀ c', c' ∈ concat (fringes st) → hash c' ∈ visited st)); [done|].
    intros st'' c Hst''. by apply flood_neighbor_once.
Qed.

Lemma getReachable_NoDup g start d : NoDup (getReachable g start d).
Proof.
  unfold getReachable.
  apply (foldl_invariant (λ st, NoDup (concat (fringes st)) ∧
           ∀ c', c' ∈ concat (fringes st) → hash c' ∈ visited st)).
  - cbn. split; [apply NoDup_singleton|].
    intros c' ->%list_elem_of_singleton. by apply elem_of_singleton.
  - intros st k Hst. by apply flood_layer_once.
Qed.

Lemma elem_of_getReachable g start d c :
  (0 <= d)%Q →
  c ∈ getReachable g start d ↔
    ∃ n, hop_distance g start c n ∧ (inject_Z (Z.of_nat n) <= d)%Q.
Proof.
  intros Hd. destruct (getReachable_layers g start d Hd)
    as (st & (Hlen & H0 & Hlayers & _) & ->).
  assert (0 ≤ Qfloor d) as Hfl by (by apply (Qfloor_ge 0)).
  rewrite elem_of_concat. split.
  - intros (l & Hc & (i & Hi)%list_elem_of_lookup).
    exists i. split; [by apply (Hlayers i l)|].
    apply lookup_lt_Some in Hi. apply Qfloor_ge. lia.
  - intros (n & Hn & Hle%Qfloor_ge).
    destruct (lookup_lt_is_Some_2 (fringes st) n ltac:(lia)) as [l Hl].
    exists l. split; [by apply (Hlayers n l)|].
    apply list_elem_of_lookup. by exists n.
Qed.

Lemma getReachable_below_one g start d : (d < 1)%Q → getReachable g start d = [start].
Proof.
  intros Hd. unfold getReachable, upto. rewrite seqZ_nil; [done|].
  assert (Qfloor d < 1); [|lia].
  rewrite Zlt_Qlt. pose proof (Qfloor_le d). change (inject_Z 1) with 1%Q. lra.
Qed.

Lemma hops_last_passable g n a b : hops g n a b → a = b ∨ isPassable g b = true.
Proof.
  intros [|? ? ? ? _ Hh]; [by left|]. right.
  apply hop_iff in Hh as (_ & _ & _ & Hp). done.
Qed.

(** X20.  [getReachable] never lists a coordinate twice.  A budget below 1
    gives the start alone, whether or not the start is a cell of the grid.
    Every other coordinate it lists is a passable cell within the
    straight-line distance of the budget, and a larger budget lists at
    least the same coordinates. *)
Theorem getReachable_bounds (g : Grid) (start c : Coord) (d d' : Q) :
  NoDup (getReachable g start d) ∧
  ((d < 1)%Q → getReachable g start d = [start]) ∧
  (c ∈ getReachable g start d →
     c = start ∨ (isPassable g c = true ∧ (distance start c <= d)%Q)) ∧
  ((d <= d')%Q → c ∈ getReachable g start d → c ∈ getReachable g start d').
Proof.
  split; [apply getReachable_NoDup|]. split; [apply getReachable_below_one|].
  assert (∀ q, start ∈ getReachable g start q) as Hstart.
  { intros q. destruct (Qlt_le_dec q 1) as [Hq|Hq].
    - rewrite getReachable_below_one by done. by apply list_elem_of_singleton.
    - apply elem_of_getReachable; [lra|]. exists 0%nat.
      split; [apply hop_distance_start|].
      change (inject_Z (Z.of_nat 0)) with 0%Q. lra. }
  split.
  - intros Hin. destruct (Qlt_le_dec d 1) as [Hd|Hd].
    + rewrite getReachable_below_one in Hin by done.
      left. by apply list_elem_of_singleton.
    + apply elem_of_getReachable in Hin as (n & [Hn _] & Hle); [|lra].
      destruct (hops_last_passable _ _ _ _ Hn) as [->|Hp]; [by left|].
      right. split; [done|]. eapply Qle_trans; [by eapply hops_distance | done].
  - intros Hle Hin. destruct (Qlt_le_dec d 1) as [Hd|Hd].
    + rewrite getReachable_below_one in Hin by done.
      apply list_elem_of_singleton in Hin as ->. apply Hstart.
    + apply elem_of_getReachable in Hin as (n & Hn & Hn'); [|lra].
      apply elem_of_getReachable; [lra|]. exists n. split; [done | lra].
Qed.

Lemma getReachable_bounds_witness :
  getReachable sample_grid (mkCoord 0 0 0) (1 # 2) = [mkCoord 0 0 0].
Proof.
  apply (getReachable_bounds sample_grid (mkCoord 0 0 0) (mkCoord 0 0 0) (1 # 2) 1).
  reflexivity.
Defined.

(** X21.  The flood fill and the path finder agree: for a budget
    [d >= 0], a coordinate is listed by [getReachable] exactly when
    [findPath] with the default options returns a path to it whose cost is
    at most [d]. *)
Theorem getReachable_iff_findPath (g : Grid) (start c : Coord) (d : Q) :
  (0 <= d)%Q →
  c ∈ getReachable g start d ↔
    ∃ fuel path,
      findPath fuel g start c noOptions = Some (Some path) ∧
      (getPathCost path defaultCostFn <= d)%Q.
Proof.
  intros Hd. rewrite elem_of_getReachable by done.
  destruct (findPath_total g start c) as (fuel0 & result & Hr & Hrun).
  split.
  - intros (n & Hn & Hle). destruct result as [path|]; cbn in Hr.
    + exists fuel0, path. split; [by apply Hrun|].
      destruct Hr as [_ Hp]. rewrite getPathCost_default.
      by rewrite (hop_distance_unique _ _ _ _ _ Hp Hn).
    + destruct Hn as [Hn _]. by apply Hr in Hn.
  - intros (fuel & path & Hf & Hcost).
    apply (findPath_mono _ (Nat.max fuel fuel0)) in Hf; [|lia].
    rewrite Hrun in Hf by lia. injection Hf as ->. destruct Hr as [_ Hp].
    exists (length path - 1)%nat. split; [done|]. by rewrite <- getPathCost_default.
Qed.

Lemma getReachable_iff_findPath_witness :
  mkCoord 1 (-1) 0 ∈ getReachable sample_grid (mkCoord 0 0 0) 1 ↔
    ∃ fuel path,
      findPath fuel sample_grid (mkCoord 0 0 0) (mkCoord 1 (-1) 0) noOptions
        = Some (Some path) ∧
      (getPathCost path defaultCostFn <= 1)%Q.
Proof.
  apply (getReachable_iff_findPath sample_grid (mkCoord 0 0 0) (mkCoord 1 (-1) 0) 1).
  discriminate.
Defined.

(** * Lines and lines of sight *)

(** ** Doubles *)

Lemma double_comp q q' : (q == q')%Q → double q = double q'.
Proof. intros H. unfold double. by rewrite (Qred_complete _ _ H). Qed.

Lemma round_half_even_Z q m : (q == inject_Z m)%Q → round_half_even q = m.
Proof.
  intros H. unfold round_half_even. rewrite (Qfloor_comp _ _ H), Qfloor_Z.
  assert ((q - inject_Z m ?= 1 # 2)%Q = Lt) as -> by (apply (proj1 (Qlt_alt _ _)); lra).
  done.
Qed.

(** Integers below [2^53] in absolute value are doubles. *)
Lemma double_integer n : Z.abs n < 2 ^ 53 → (double (inject_Z n) == inject_Z n)%Q.
Proof.
  intros Hn. unfold double. rewrite inject_Z_Qred.
  destruct (Qeq_bool (inject_Z n) 0) eqn:H0.
  { apply Qeq_bool_iff in H0. by rewrite H0. }
  assert (n ≠ 0) as Hn0.
  { intros ->. by apply Qeq_bool_neq in H0. }
  assert (0 ≤ Z.log2 (Z.abs n) < 53) as HL.
  { split; [apply Z.log2_nonneg|]. apply Z.log2_lt_pow2; lia. }
  assert (ilog2 (inject_Z n) = Z.log2 (Z.abs n)) as ->.
  { unfold ilog2. cbn [Qnum Qden inject_Z]. change (Z.log2 1) with 0.
    rewrite Z.sub_0_r. unfold pow2. rewrite (proj2 (Z.leb_le _ _)) by lia.
    assert (Qle_bool (inject_Z (2 ^ Z.log2 (Z.abs n))) (Qabs (inject_Z n)) = true) as ->;
      [|done].
    apply Qle_bool_iff. change (Qabs (inject_Z n)) with (inject_Z (Z.abs n)).
    rewrite <- Zle_Qle. apply Z.log2_spec. lia. }
  set (L := Z.log2 (Z.abs n)) in *.
  rewrite Z.max_l by lia.
  assert (pow2 (- (L - 52)) = inject_Z (2 ^ (52 - L))) as ->.
  { unfold pow2. rewrite (proj2 (Z.leb_le _ _)) by lia. f_equal. f_equal. lia. }
  rewrite <- inject_Z_mult, (round_half_even_Z _ (n * 2 ^ (52 - L))) by reflexivity.
  rewrite inject_Z_mult.
  assert (0 < 2 ^ (52 - L)) as Hpos by (apply Z.pow_pos_nonneg; lia).
  assert (¬ inject_Z (2 ^ (52 - L)) == 0)%Q as Hne.
  { change 0%Q with (inject_Z 0). rewrite inject_Z_injective. lia. }
  unfold pow2. destruct (0 <=? L - 52) eqn:He.
  - apply Z.leb_le in He. assert (L = 52) as -> by lia.
    change (2 ^ (52 - 52)) with 1. change (inject_Z 1) with 1%Q. ring.
  - replace (- (L - 52)) with (52 - L) by lia. by field.
Qed.

Lemma double_0 : double 0 = 0%Q.
Proof. reflexivity. Qed.

(** ** Lines *)

Lemma foldl_push_map {A B} (f : A → B) (l : list A) (acc : list B) :
  foldl (λ results a, results ++ [f a]) acc l = acc ++ (f <$> l).
Proof.
  revert acc. induction l as [|a l IH]; intros acc; cbn [foldl].
  - by rewrite app_nil_r.
  - rewrite IH. cbn. by rewrite <- app_assoc.
Qed.

(** The samples of a line, one for each [i] from 0 to the distance. *)
Lemma getLine_samples a b :
  getLine a b =
    (λ i, round (lerp_double a b (if Qeq_bool (distance a b) 0 then 0%Q
                                  else double (inject_Z i / distance a b))))
      <$> upto 0 (Qfloor (distance a b)).
Proof.
  unfold getLine.
  by rewrite (foldl_push_map (λ i, round (lerp_double a b
    (if Qeq_bool (distance a b) 0 then 0%Q
     else double (inject_Z i / distance a b))))).
Qed.

Lemma in_range_double c :
  in_range c →
  (double (inject_Z (x c)) == inject_Z (x c))%Q ∧
  (double (inject_Z (y c)) == inject_Z (y c))%Q ∧
  (double (inject_Z (z c)) == inject_Z (z c))%Q.
Proof. intros (Hx & Hy & Hz). repeat split; apply double_integer; lia. Qed.

(** At [t = 0] the interpolation is the first end, exactly. *)
Lemma lerp_double_0 a b t :
  in_range a → (t == 0)%Q → equalsF (lerp_double a b t) (toF a).
Proof.
  intros (Hx & Hy & Hz) Ht. unfold equalsF, lerp_double, toF; cbn [fx fy fz].
  assert (∀ p q : Z, Z.abs p < 2 ^ 52 →
    (double (inject_Z p + double (double (inject_Z q - inject_Z p) * t))
     == inject_Z p)%Q) as H.
  { intros p q Hp.
    rewrite (double_comp (double (inject_Z q - inject_Z p) * t) 0)
      by (rewrite Ht; ring).
    rewrite double_0, (double_comp (inject_Z p + 0) (inject_Z p)) by ring.
    apply double_integer. lia. }
  repeat split; by apply H.
Qed.

(** At [t = 1] it is the second end, exactly. *)
Lemma lerp_double_1 a b t :
  in_range a → in_range b → (t == 1)%Q → equalsF (lerp_double a b t) (toF b).
Proof.
  intros (Hx & Hy & Hz) (Hx' & Hy' & Hz') Ht.
  unfold equalsF, lerp_double, toF; cbn [fx fy fz].
  assert (∀ p q : Z, Z.abs p < 2 ^ 52 → Z.abs q < 2 ^ 52 →
    (double (inject_Z p + double (double (inject_Z q - inject_Z p) * t))
     == inject_Z q)%Q) as H.
  { intros p q Hp Hq.
    assert (double (inject_Z q - inject_Z p) == inject_Z (q - p))%Q as Hd.
    { rewrite (double_comp _ (inject_Z (q - p))) by (by rewrite inject_Z_sub).
      apply double_integer. lia. }
    assert (double (double (inject_Z q - inject_Z p) * t) == inject_Z (q - p))%Q as Hm.
    { rewrite (double_comp _ (inject_Z (q - p))) by (rewrite Hd, Ht; ring).
      apply double_integer. lia. }
    rewrite (double_comp _ (inject_Z q)) by (rewrite Hm, inject_Z_sub; ring).
    apply double_integer. lia. }
  repeat split; by apply H.
Qed.

Lemma getLine_length a b :
  Z.of_nat (length (getLine a b)) = Qfloor (distance a b) + 1.
Proof.
  rewrite getLine_samples, length_fmap, length_upto.
  assert (0 ≤ Qfloor (distance a b)); [|lia].
  apply Qfloor_ge. apply distance_nonneg.
Qed.

Lemma getLine_valid a b : Forall valid (getLine a b).
Proof.
  rewrite getLine_samples. apply Forall_fmap, Forall_forall. intros i _.
  apply round_sum_zero.
Qed.

Lemma getLine_head a b : valid a → in_range a → head (getLine a b) = Some a.
Proof.
  intros Ha Hr. rewrite getLine_samples. unfold upto.
  assert (0 ≤ Qfloor (distance a b)) as Hfl by (apply Qfloor_ge, distance_nonneg).
  rewrite seqZ_cons by lia. cbn [fmap list_fmap head]. f_equal.
  apply round_integral; [|done]. apply lerp_double_0; [done|].
  destruct (Qeq_bool _ _); [done|].
  rewrite (double_comp _ 0); [done|]. unfold Qdiv. change (inject_Z 0) with 0%Q. ring.
Qed.

Lemma getLine_last a b :
  valid a → valid b → in_range a → in_range b → last (getLine a b) = Some b.
Proof.
  intros Ha Hb Hra Hrb. rewrite getLine_samples, fmap_last.
  destruct (distance_integer a b Ha Hb) as (n & Hn & Hd).
  assert (Qfloor (distance a b) = n) as Hfl by (by rewrite Hd, Qfloor_Z).
  rewrite Hfl. unfold upto.
  replace (n - 0 + 1) with (Z.of_nat (S (Z.to_nat n))) by lia.
  rewrite seqZ_S, last_snoc. cbn [fmap option_fmap option_map]. f_equal.
  rewrite Z.add_0_l, Z2Nat.id by done.
  destruct (Qeq_bool (distance a b) 0) eqn:H0.
  - apply Qeq_bool_iff, distance_zero in H0. subst b.
    apply round_integral; [|done]. by apply lerp_double_0.
  - apply round_integral; [|done]. apply lerp_double_1; [done | done |].
    apply Qeq_bool_neq in H0. rewrite Hd in H0.
    rewrite (double_comp _ 1); [by apply (double_integer 1)|].
    rewrite Hd. by field.
Qed.

(** The samples between the ends are computed in doubles: [15 / 22] rounds
    down, so that [11 * (15 / 22)] falls below 7.5; exact arithmetic would
    give (8,7,-15) here. *)
Example line_rounds_in_doubles :
  getLine (mkCoord 0 0 0) (mkCoord 11 11 (-22)) !! 15%nat = Some (mkCoord 7 8 (-15)).
Proof. by vm_compute. Qed.

(** X22.  [getLine] returns floor(distance) + 1 coordinates, each
    satisfying the cube invariant, whatever the two ends are.  Between two
    integer cube coordinates at distance [n], with components below [2^52]
    in absolute value, these are [n + 1] coordinates, the first being the
    one end and the last the other. *)
Theorem getLine_ends (a b : Coord) :
  Forall valid (getLine a b) ∧
  Z.of_nat (length (getLine a b)) = Qfloor (distance a b) + 1 ∧
  (valid a → valid b → in_range a → in_range b →
     (distance a b == inject_Z (Z.of_nat (length (getLine a b)) - 1))%Q ∧
     head (getLine a b) = Some a ∧
     last (getLine a b) = Some b).
Proof.
  split; [apply getLine_valid|]. split; [apply getLine_length|].
  intros Ha Hb Hra Hrb.
  split; [|split; [by apply getLine_head | by apply getLine_last]].
  rewrite getLine_length. destruct (distance_integer a b Ha Hb) as (n & Hn & Hd).
  rewrite Hd at 2. rewrite Qfloor_Z. by replace (n + 1 - 1) with n by lia.
Qed.

Lemma getLine_ends_witness :
  (distance (mkCoord 0 0 0) (mkCoord 2 (-3) 1)
     == inject_Z (Z.of_nat (length (getLine (mkCoord 0 0 0) (mkCoord 2 (-3) 1))) - 1))%Q ∧
  head (getLine (mkCoord 0 0 0) (mkCoord 2 (-3) 1)) = Some (mkCoord 0 0 0) ∧
  last (getLine (mkCoord 0 0 0) (mkCoord 2 (-3) 1)) = Some (mkCoord 2 (-3) 1).
Proof.
  apply (getLine_ends (mkCoord 0 0 0) (mkCoord 2 (-3) 1));
    first [reflexivity | by vm_compute].
Defined.

Lemma clear_line_spec g line :
  clear_line g line = true ↔ ∀ c, c ∈ line → isPassable g c = true.
Proof.
  induction line as [|c line IH]; cbn [clear_line].
  - split; [|done]. intros _ c Hc. by apply elem_of_nil in Hc.
  - destruct (hasCell g c) eqn:Hh; cbn [negb].
    + destruct (isPassable g c) eqn:Hp; cbn [negb].
      * rewrite IH. split.
        -- intros H c' [->|Hc']%elem_of_cons; [done | by apply H].
        -- intros H c' Hc'. apply H. by right.
      * split; [done|]. intros H. rewrite <- Hp. apply H. by left.
    + split; [done|]. intros H.
      assert (isPassable g c = true) as Hp by (apply H; by left).
      apply isPassable_hasCell in Hp. congruence.
Qed.

Lemma elem_of_head {A} (l : list A) a : head l = Some a → a ∈ l.
Proof. destruct l; [done|]. intros [= ->]. by left. Qed.

Lemma elem_of_last {A} (l : list A) a : last l = Some a → a ∈ l.
Proof.
  induction l as [|b l IH]; [done|]. destruct l as [|b' l].
  - intros [= ->]. by left.
  - intros H. right. by apply IH.
Qed.

(** X23.  There is a line of sight exactly when every coordinate of the
    line is a passable cell of the grid.  Between integer cube coordinates
    with components below [2^52] in absolute value this requires both ends
    to be passable cells, and a cell sees itself exactly when it is
    passable. *)
Theorem hasLineOfSight_exact (g : Grid) (a b : Coord) :
  (hasLineOfSight g a b = true ↔ ∀ c, c ∈ getLine a b → isPassable g c = true) ∧
  (valid a → valid b → in_range a → in_range b → hasLineOfSight g a b = true →
     isPassable g a = true ∧ isPassable g b = true) ∧
  (valid a → in_range a → hasLineOfSight g a a = isPassable g a).
Proof.
  split; [apply clear_line_spec|]. split.
  - intros Ha Hb Hra Hrb H. unfold hasLineOfSight in H.
    pose proof (proj1 (clear_line_spec _ _) H) as Hall.
    split; apply Hall; [by apply elem_of_head, getLine_head
                       | by apply elem_of_last, getLine_last].
  - intros Ha Hra. unfold hasLineOfSight.
    pose proof (getLine_length a a) as Hlen.
    pose proof (getLine_head a a Ha Hra) as Hhead.
    assert (distance a a == 0)%Q as H0 by (by apply distance_zero).
    rewrite H0 in Hlen. change (Qfloor 0) with 0 in Hlen.
    destruct (getLine a a) as [|c [|c' l]]; cbn in Hlen; [lia| |lia].
    injection Hhead as ->. cbn [clear_line].
    destruct (hasCell g a) eqn:Hh; cbn [negb].
    + by destruct (isPassable g a).
    + destruct (isPassable g a) eqn:Hp; [|done].
      apply isPassable_hasCell in Hp. congruence.
Qed.

Lemma hasLineOfSight_exact_witness :
  isPassable sample_grid (mkCoord 0 0 0) = true ∧
  isPassable sample_grid (mkCoord 1 (-1) 0) = true.
Proof.
  apply (hasLineOfSight_exact sample_grid (mkCoord 0 0 0) (mkCoord 1 (-1) 0));
    first [reflexivity | by vm_compute].
Defined.

Lemma visible_loop g origin maxRange (m : list (string * Cell)) (acc : list Coord) :
  foldl (λ visible e,
    let dist := distance origin (coord e.2) in
    if match maxRange with Some r => Qgtb dist r | None => false end then visible
    else if hasLineOfSight g origin (coord e.2) then visible ++ [coord e.2]
    else visible) acc m =
  acc ++ ((λ e : string * Cell, coord e.2) <$>
      filter (λ e, (negb match maxRange with
                         | Some r => Qgtb (distance origin (coord e.2)) r
                         | None => false
                         end
                    && hasLineOfSight g origin (coord e.2)) = true) m).
Proof.
  revert acc. induction m as [|e m IH]; intros acc.
  - cbn. by rewrite app_nil_r.
  - cbn [foldl]. rewrite IH. cbn zeta.
    destruct (match maxRange with
              | Some r => Qgtb (distance origin (coord e.2)) r
              | None => false
              end) eqn:Hr; cbn [negb andb].
    + rewrite filter_cons_False; [done|]. rewrite Hr. cbn. done.
    + destruct (hasLineOfSight g origin (coord e.2)) eqn:Hl.
      * rewrite filter_cons_True; [|by rewrite Hr, Hl].
        cbn [fmap list_fmap]. by rewrite <- app_assoc.
      * rewrite filter_cons_False; [done|]. rewrite Hr, Hl. cbn. done.
Qed.

Lemma getVisibleCells_filter g origin maxRange :
  getVisibleCells g origin maxRange =
    (λ e : string * Cell, coord e.2) <$>
      filter (λ e, (negb match maxRange with
                         | Some r => Qgtb (distance origin (coord e.2)) r
                         | None => false
                         end
                    && hasLineOfSight g origin (coord e.2)) = true) (cells g).
Proof. unfold getVisibleCells. by rewrite visible_loop. Qed.

(** X24.  On a grid whose cells are stored under the hash of their
    coordinate, [getVisibleCells] returns, without repetition and in the
    order of the map, exactly the cells within the maximal range, if one
    is given, to which the origin has a line of sight; with a range they
    are part of [getRange], in its order. *)
Theorem getVisibleCells_exact (g : Grid) (origin c : Coord) (maxRange : option Q) :
  grid_wf g →
  NoDup (getVisibleCells g origin maxRange) ∧
  (getVisibleCells g origin maxRange `sublist_of` ((λ e, coord e.2) <$> cells g)) ∧
  (c ∈ getVisibleCells g origin maxRange ↔
     hasCell g c = true ∧
     (∀ r, maxRange = Some r → (distance origin c <= r)%Q) ∧
     hasLineOfSight g origin c = true) ∧
  (∀ r, maxRange = Some r →
     getVisibleCells g origin maxRange `sublist_of` getRange g origin r).
Proof.
  intros Hwf. rewrite getVisibleCells_filter. split; [|split; [|split]].
  - eapply sublist_NoDup; [exact (grid_wf_coords_NoDup g Hwf)|].
    apply fmap_sublist, sublist_filter.
  - apply fmap_sublist, sublist_filter.
  - rewrite list_elem_of_fmap. split.
    + intros ([k cell] & -> & [Hp Hin]%list_elem_of_filter). cbn [snd] in *.
      apply andb_true_iff in Hp as [Hr Hlos]. split; [|split; [|done]].
      * apply hasCell_true. exists cell. by eapply grid_wf_elem.
      * intros r ->. by apply negb_true_iff, Qgtb_false in Hr.
    + intros ([cell Hc]%hasCell_true & Hr & Hlos). exists (hash c, cell). cbn [snd].
      pose proof (grid_wf_getCell _ _ _ Hwf Hc) as Hcoord.
      split; [done|]. apply list_elem_of_filter. cbn [snd]. rewrite Hcoord.
      split; [|by apply Map_get_Some_elem].
      apply andb_true_iff. split; [|done]. destruct maxRange as [r|]; [|done].
      apply negb_true_iff, Qgtb_false. by apply Hr.
  - intros r ->. rewrite getRange_filter. apply fmap_sublist, filter_sublist_mono.
    intros [k cell]; cbn [snd]. intros [Hr _]%andb_true_iff.
    apply negb_true_iff, Qgtb_false in Hr. by apply Qle_bool_iff.
Qed.

Lemma getVisibleCells_exact_witness :
  NoDup (getVisibleCells sample_grid (mkCoord 0 0 0) (Some 1%Q)).
Proof.
  apply (getVisibleCells_exact sample_grid (mkCoord 0 0 0) (mkCoord 0 0 0) (Some 1%Q)).
  apply sample_grid_wf.
Defined.

(** * Further properties of the path finder *)

(** ** The priority queue *)

Lemma insert_sorted_front e items :
  Forall (λ e', (priority e <= priority e')%Q) items → insert_sorted e items = e :: items.
Proof.
  destruct items as [|e0 items]; [done|]. intros [H _]%Forall_cons.
  cbn [insert_sorted]. apply Qle_bool_iff in H. by rewrite H.
Qed.

Lemma enqueue_position items c p :
  sorted_items items →
  enqueue items c p =
    filter (λ e, Qle_bool (priority e) p = true) items ++
    mkItem c p :: filter (λ e, Qle_bool (priority e) p ≠ true) items.
Proof.
  unfold enqueue, sort_items, sorted_items.
  induction items as [|e items IH]; intros Hs; [done|].
  apply StronglySorted_inv in Hs as [Hs Hall].
  cbn [app foldr]. rewrite IH by done.
  destruct (Qle_bool (priority e) p) eqn:Hle.
  - rewrite filter_cons_True, filter_cons_False by (by rewrite ?Hle; auto).
    apply insert_sorted_front. apply Forall_app. apply Qle_bool_iff in Hle.
    split; [|apply Forall_cons; split; [done|]].
    + apply Forall_forall. intros e' [_ He']%list_elem_of_filter.
      by eapply Forall_forall in Hall.
    + apply Forall_forall. intros e' [_ He']%list_elem_of_filter.
      by eapply Forall_forall in Hall.
  - rewrite filter_cons_False, filter_cons_True by (by rewrite ?Hle; auto).
    assert (p < priority e)%Q as Hlt.
    { destruct (Qlt_le_dec p (priority e)) as [?|Hge]; [done|].
      apply Qle_bool_iff in Hge. congruence. }
    assert (filter (λ e0, Qle_bool (priority e0) p = true) items = []) as ->.
    { apply filter_none. intros e' He' Hp. apply Qle_bool_iff in Hp.
      eapply Forall_forall in Hall; [|done]. cbn in Hall. lra. }
    assert (filter (λ e0, Qle_bool (priority e0) p ≠ true) items = items) as ->.
    { clear IH Hs. induction items as [|e' items IH]; [done|].
      apply Forall_cons in Hall as [He' Hall].
      rewrite filter_cons_True.
      - by rewrite IH.
      - intros Hp. apply Qle_bool_iff in Hp. cbn in He'. lra. }
    cbn [app insert_sorted priority]. rewrite Hle.
    by rewrite insert_sorted_front.
Qed.

(** X25.  On a queue in ascending order, [enqueue] places the new item
    behind every item of lower or equal priority and before every item of
    higher priority, keeping the order of the others; the queue stays in
    ascending order, and [dequeue] removes its first item, whose priority
    is the least. *)
Theorem PriorityQueue_order (items : list QueueItem) (c : Coord) (p : Q) :
  sorted_items items →
  enqueue items c p =
    filter (λ e, Qle_bool (priority e) p = true) items ++
    mkItem c p :: filter (λ e, Qle_bool (priority e) p ≠ true) items ∧
  sorted_items (enqueue items c p) ∧
  isEmpty (enqueue items c p) = false ∧
  ∃ e rest,
    enqueue items c p = e :: rest ∧
    dequeue (enqueue items c p) = (Some (item e), rest) ∧
    ∀ e', e' ∈ enqueue items c p → (priority e <= priority e')%Q.
Proof.
  intros Hs. split; [by apply enqueue_position|].
  pose proof (enqueue_sorted items c p) as Hsorted. split; [done|].
  pose proof (length_enqueue items c p) as Hlen.
  destruct (enqueue items c p) as [|e rest]; [done|]. split; [done|].
  exists e, rest. split; [done|]. split; [done|].
  intros e' He'. by eapply sorted_head_least.
Qed.

Lemma PriorityQueue_order_witness :
  enqueue [mkItem (mkCoord 0 0 0) 1; mkItem (mkCoord 1 (-1) 0) 2] (mkCoord 0 1 (-1)) 1 =
    [mkItem (mkCoord 0 0 0) 1; mkItem (mkCoord 0 1 (-1)) 1; mkItem (mkCoord 1 (-1) 0) 2].
Proof.
  refine (proj1 (PriorityQueue_order
    [mkItem (mkCoord 0 0 0) 1; mkItem (mkCoord 1 (-1) 0) 2] (mkCoord 0 1 (-1)) 1 _)).
  repeat constructor; discriminate.
Defined.

(** ** The search under arbitrary options

    The heuristic and the cost function are arbitrary here.  Whether the
    loop ends depends on them (a cost function with negative values can
    make the search run for ever), but what the search returns when it ends
    does not: the reasoning below never looks at a cost or a priority. *)

Section any_options.
Variable g : Grid.
Variables h cost : Coord → Coord → Q.
Variables start goal : Coord.

Lemma queued_enqueue st c p c' :
  c' ∈ item <$> enqueue (frontier st) c p ↔ queued st c' ∨ c' = c.
Proof.
  unfold queued. rewrite !list_elem_of_fmap. split.
  - intros (e & -> & [He| ->]%elem_of_enqueue); [left; by exists e | by right].
  - intros [(e & -> & He)| ->].
    + exists e. split; [done|]. apply elem_of_enqueue. by left.
    + exists (mkItem c p). split; [done|]. apply elem_of_enqueue. by right.
Qed.

Lemma relax_parents current st next :
  parents_ok g start st → is_Some (cameFrom st !! hash current) → hop g current next →
  parents_ok g start (relax h cost goal current st next) ∧
  is_Some (cameFrom (relax h cost goal current st next) !! hash current).
Proof.
  intros (H1 & H2 & H3) Hcur Hhop. unfold relax.
  destruct (_ || _); [|done]. split; [split; [|split]|]; cbn [cameFrom frontier].
  - intros k p. destruct (decide (k = hash next)) as [->|Hne].
    + rewrite lookup_insert_eq. intros [= <-]. exists next. split; [done|].
      split; [done|]. apply lookup_insert_is_Some'. by right.
    + rewrite lookup_insert_ne by done. intros (c & -> & Hh & Hp)%H1.
      exists c. split; [done|]. split; [done|]. apply lookup_insert_is_Some'. by right.
  - intros c. unfold queued; cbn [frontier]. rewrite queued_enqueue.
    intros [Hq| ->]; apply lookup_insert_is_Some'; [right; by apply H2 | by left].
  - intros k. destruct (decide (k = hash next)) as [->|Hne].
    + by rewrite lookup_insert_eq.
    + rewrite lookup_insert_ne by done. apply H3.
  - apply lookup_insert_is_Some'. by right.
Qed.

Lemma relax_all_parents current xs st :
  parents_ok g start st → is_Some (cameFrom st !! hash current) →
  (∀ x, x ∈ xs → hop g current x) →
  parents_ok g start (foldl (relax h cost goal current) st xs).
Proof.
  revert st. induction xs as [|x xs IH]; intros st Hst Hcur Hxs; [done|].
  cbn [foldl]. destruct (relax_parents current st x Hst Hcur) as [H1 H2].
  { apply Hxs. by left. }
  apply IH; [done | done |]. intros x' Hx'. apply Hxs. by right.
Qed.

(** One relaxation only adds: costs, and items to the queue. *)
Lemma relax_grows current st next :
  let st' := relax h cost goal current st next in
  (∀ k, is_Some (costSoFar st !! k) → is_Some (costSoFar st' !! k)) ∧
  (∀ c, queued st c → queued st' c) ∧
  is_Some (costSoFar st' !! hash next) ∧
  (∀ c, is_Some (costSoFar st' !! hash c) →
     is_Some (costSoFar st !! hash c) ∨ queued st' c).
Proof.
  cbn zeta. unfold relax.
  destruct (bool_decide (is_Some (costSoFar st !! hash next))) eqn:Hhas; cbn [negb orb].
  - apply bool_decide_eq_true in Hhas. destruct (Qltb _ _).
    + cbn [costSoFar]. split; [|split; [|split]].
      * intros k Hk. apply lookup_insert_is_Some'. by right.
      * intros c Hc. unfold queued; cbn [frontier]. apply queued_enqueue. by left.
      * apply lookup_insert_is_Some'. by left.
      * intros c [Hc|Hc]%lookup_insert_is_Some'; [|by left].
        apply hash_inj in Hc as <-. right. unfold queued; cbn [frontier].
        apply queued_enqueue. by right.
    + split; [done|]. split; [done|]. split; [done|]. intros c Hc. by left.
  - cbn [costSoFar]. split; [|split; [|split]].
    + intros k Hk. apply lookup_insert_is_Some'. by right.
    + intros c Hc. unfold queued; cbn [frontier]. apply queued_enqueue. by left.
    + apply lookup_insert_is_Some'. by left.
    + intros c [Hc|Hc]%lookup_insert_is_Some'; [|by left].
      apply hash_inj in Hc as <-. right. unfold queued; cbn [frontier].
      apply queued_enqueue. by right.
Qed.

Lemma relax_all_grows current xs st :
  let st' := foldl (relax h cost goal current) st xs in
  (∀ k, is_Some (costSoFar st !! k) → is_Some (costSoFar st' !! k)) ∧
  (∀ c, queued st c → queued st' c) ∧
  (∀ x, x ∈ xs → is_Some (costSoFar st' !! hash x)) ∧
  (∀ c, is_Some (costSoFar st' !! hash c) →
     is_Some (costSoFar st !! hash c) ∨ queued st' c).
Proof.
  cbn zeta. revert st. induction xs as [|x xs IH]; intros st; cbn [foldl].
  - split; [done|]. split; [done|]. split; [|by left].
    intros x Hx. by apply elem_of_nil in Hx.
  - destruct (relax_grows current st x) as (Ha & Hb & Hc & Hd).
    destruct (IH (relax h cost goal current st x)) as (Ia & Ib & Ic & Id).
    split; [|split; [|split]].
    + intros k Hk. by apply Ia, Ha.
    + intros c Hq. by apply Ib, Hb.
    + intros x' [->|Hx']%elem_of_cons; [by apply Ia | by apply Ic].
    + intros c [Hs|Hq]%Id; [|by right].
      destruct (Hd c Hs) as [?|Hq]; [by left|]. right. by apply Ib.
Qed.

(** Walking back along the recorded parents gives a path from the start. *)
Lemma reconstruct_loop_path fuel cf c acc path :
  (∀ k p, cf !! k = Some (Some p) →
     ∃ c, k = hash c ∧ hop g p c ∧ is_Some (cf !! hash p)) →
  (∀ k, cf !! k = Some None → k = hash start) →
  is_Some (cf !! hash c) →
  is_path g c goal (c :: acc) →
  reconstruct_loop fuel cf (hash start) (Some c) acc = Some path →
  is_path g start goal path.
Proof.
  intros H1 H3. revert c acc. induction fuel as [|fuel IH]; intros c acc Hc Hp; [done|].
  cbn [reconstruct_loop]. destruct (decide (hash c = hash start)) as [Heq|Hne].
  - apply hash_inj in Heq as ->. by intros [= <-].
  - destruct Hc as [[p|] Hc].
    + rewrite Hc. cbn [mjoin option_join]. destruct (H1 _ _ Hc) as (c' & Hk & Hh & Hp').
      apply hash_inj in Hk as <-. apply IH; [done|].
      cbn [is_path]. by destruct acc.
    + by apply H3 in Hc.
Qed.

Lemma closed_reaches st n a c :
  (∀ c, is_Some (costSoFar st !! hash c) →
     ∀ b, hop g c b → is_Some (costSoFar st !! hash b)) →
  hops g n a c →
  is_Some (costSoFar st !! hash a) → is_Some (costSoFar st !! hash c).
Proof.
  intros Hcl Hn. induction Hn as [a|n a b c _ IH Hh]; intros Hs; [done|].
  eapply Hcl; [by apply IH | done].
Qed.

Lemma search_loop_sound fuel st r :
  parents_ok g start st → closed_or_queued g start goal st →
  search_loop fuel g h cost start goal st = Some r →
  path_or_none g start goal r.
Proof.
  revert st. induction fuel as [|fuel IH]; intros st HP HC; [done|].
  cbn [search_loop].
  destruct (frontier st) as [|e rest] eqn:Hf; cbn [dequeue].
  - intros [= <-]. intros n Hn. destruct HC as (C1 & C2 & C3).
    assert (∀ c, ¬ queued st c) as Hnq.
    { intros c. unfold queued. rewrite Hf. apply not_elem_of_nil. }
    apply (Hnq goal), C3. eapply closed_reaches; [|done|done].
    intros c Hc. by destruct (C2 c Hc) as [?%Hnq|?].
  - assert (queued st (item e)) as Hq.
    { unfold queued. rewrite Hf. cbn. by left. }
    destruct HP as (P1 & P2 & P3).
    destruct (decide (hash (item e) = hash goal)) as [Heq|Hne].
    + apply hash_inj in Heq. unfold reconstructPath.
      destruct (reconstruct_loop _ _ _ _ _) as [path|] eqn:Hr; [|done].
      intros [= <-]. cbn [path_or_none].
      eapply reconstruct_loop_path; [exact P1 | exact P3 | | | exact Hr].
      * rewrite <- Heq. by apply P2.
      * done.
    + set (st0 := {| frontier := rest; cameFrom := cameFrom st;
                     costSoFar := costSoFar st |}).
      assert (∀ c, queued st c → c = item e ∨ queued st0 c) as Hsplit.
      { intros c. unfold queued. rewrite Hf. cbn [fmap list_fmap frontier st0].
        intros [->|?]%elem_of_cons; [by left | by right]. }
      apply IH.
      * apply relax_all_parents.
        -- split; [done|]. split; [|done]. intros c Hc. apply P2.
           unfold queued in *. rewrite Hf. cbn [frontier st0] in Hc. cbn. by right.
        -- by apply P2.
        -- intros x Hx. exact Hx.
      * destruct HC as (C1 & C2 & C3).
        destruct (relax_all_grows (item e) (getNeighbors g (item e) true) st0)
          as (Ga & Gb & Gc & Gd).
        split; [by apply Ga|]. split.
        -- intros c [Hs|Hq']%Gd; [|by left].
           destruct (C2 c Hs) as [[->|Hq0]%Hsplit|Hcl].
           ++ right. intros b Hb. by apply Gc.
           ++ left. by apply Gb.
           ++ right. intros b Hb. by apply Ga, Hcl.
        -- intros [Hs|Hq']%Gd; [|done].
           destruct (Hsplit goal (C3 Hs)) as [Hg|Hq0]; [by rewrite Hg in Hne|].
           by apply Gb.
Qed.

End any_options.

Lemma findPath_path_or_none fuel g start goal options r :
  findPath fuel g start goal options = Some r → path_or_none g start goal r.
Proof.
  unfold findPath. destruct (equals start goal) eqn:Heq.
  - apply equals_spec in Heq as ->. by intros [= <-].
  - intros H. eapply (search_loop_sound g _ _ start goal) in H; [exact H| |].
    + split; [|split]; cbn [cameFrom frontier].
      * intros k p. destruct (decide (k = hash start)) as [->|Hne].
        -- by rewrite lookup_insert_eq.
        -- by rewrite lookup_insert_ne, lookup_empty.
      * intros c Hc. unfold queued in Hc. cbn in Hc.
        apply list_elem_of_singleton in Hc as ->. by rewrite lookup_insert_eq.
      * intros k. destruct (decide (k = hash start)) as [->|Hne]; [done|].
        by rewrite lookup_insert_ne, lookup_empty.
    + split; [|split]; cbn [costSoFar].
      * by rewrite lookup_insert_eq.
      * intros c [Hc|Hc]%lookup_insert_is_Some'.
        -- apply hash_inj in Hc as <-. left. unfold queued. cbn. by left.
        -- rewrite lookup_empty in Hc. by destruct Hc.
      * intros [Hc|Hc]%lookup_insert_is_Some'.
        -- apply hash_inj in Hc as <-. unfold queued. cbn. by left.
        -- rewrite lookup_empty in Hc. by destruct Hc.
Qed.

(** X26.  Whatever heuristic and cost function are given, what [findPath]
    returns is right: a returned path leads from the start to the goal by
    passable hops, and null is returned only when no sequence of passable
    hops leads from the start to the goal.  (Whether the search returns
    depends on the cost function.) *)
Theorem findPath_sound (fuel : nat) (g : Grid) (start goal : Coord) (options : Options)
    (r : option (list Coord)) :
  findPath fuel g start goal options = Some r →
  match r with
  | Some path => is_path g start goal path
  | None => ∀ n, ¬ hops g n start goal
  end.
Proof. apply findPath_path_or_none. Qed.

Lemma findPath_sound_witness :
  is_path sample_grid (mkCoord 0 0 0) (mkCoord 1 (-1) 0) [mkCoord 0 0 0; mkCoord 1 (-1) 0].
Proof.
  apply (findPath_sound 5 sample_grid (mkCoord 0 0 0) (mkCoord 1 (-1) 0)
    {| heuristic := Some (λ _ _, 0%Q); costFn := Some (λ _ _, 3 # 2) |}
    (Some [mkCoord 0 0 0; mkCoord 1 (-1) 0])).
  vm_compute. reflexivity.
Defined.

(** ** The path found with the default options *)

Lemma is_path_nonempty g a b path : is_path g a b path → ∃ rest, path = a :: rest.
Proof.
  destruct path as [|c [|c' rest]]; [done| |].
  - intros [-> _]. by eexists.
  - intros (-> & _). by eexists.
Qed.

(** A path cut at one of its cells: hops up to the cell, a path from it. *)
Lemma is_path_split g a b l1 c l2 :
  is_path g a b (l1 ++ c :: l2) →
  hops g (length l1) a c ∧ is_path g c b (c :: l2).
Proof.
  revert a. induction l1 as [|p l1 IH]; intros a Hp.
  - destruct (is_path_nonempty _ _ _ _ Hp) as [rest [= ->]]. split; [constructor | done].
  - cbn [app] in Hp.
    assert (∃ p' rest, l1 ++ c :: l2 = p' :: rest) as (p' & rest & Hl)
      by (destruct l1; by eauto).
    rewrite Hl in Hp. destruct Hp as (-> & Hh & Hp).
    rewrite <- Hl in Hp. apply IH in Hp as [Hn Hp]. split; [|done].
    cbn [length]. by eapply hops_cons.
Qed.

Lemma no_repeat_NoDup {A} (l : list A) :
  (∀ l1 c l2 l3, l ≠ l1 ++ c :: l2 ++ c :: l3) → NoDup l.
Proof.
  induction l as [|a l IH]; intros H; [constructor|].
  apply NoDup_cons. split.
  - intros (l2 & l3 & ->)%list_elem_of_split. by apply (H [] a l2 l3).
  - apply IH. intros l1 c l2 l3 ->. by apply (H (a :: l1) c l2 l3).
Qed.

Lemma is_path_passable g a b path :
  is_path g a b path → Forall (λ c, isPassable g c = true) (tail path).
Proof.
  revert a. induction path as [|p path IH]; intros a Hp; [done|].
  destruct path as [|p' path]; [constructor|].
  destruct Hp as (-> & Hh & Hp). cbn [tail]. apply Forall_cons. split.
  - by apply hop_iff in Hh as (_ & _ & _ & ?).
  - by apply IH in Hp.
Qed.

(** X27.  A path returned by [findPath] with the default options visits
    no coordinate twice, and every coordinate after the first is a passable
    cell of the grid; so the path has at most one coordinate more than the
    grid has cells. *)
Theorem findPath_simple (fuel : nat) (g : Grid) (start goal : Coord) (path : list Coord) :
  grid_wf g →
  findPath fuel g start goal noOptions = Some (Some path) →
  NoDup path ∧
  Forall (λ c, isPassable g c = true) (tail path) ∧
  (length path ≤ S (length (cells g)))%nat.
Proof.
  intros Hwf Hf.
  destruct (findPath_total g start goal) as (fuel0 & result & Hr & Hrun).
  apply (findPath_mono _ (Nat.max fuel fuel0)) in Hf; [|lia].
  rewrite Hrun in Hf by lia. injection Hf as ->. destruct Hr as [Hp [_ Hmin]].
  assert (NoDup path) as Hnd.
  { apply no_repeat_NoDup. intros l1 c l2 l3 ->.
    pose proof (is_path_split _ _ _ _ _ _ Hp) as [H1 H2].
    pose proof (is_path_split _ _ _ (c :: l2) _ _ H2) as [_ H3].
    apply is_path_hops in H3.
    pose proof (hops_app _ _ _ _ _ _ H1 H3) as Hshort.
    apply Hmin in Hshort. rewrite !length_app in Hshort. cbn [length] in Hshort.
    rewrite length_app in Hshort. cbn [length] in Hshort. lia. }
  pose proof (is_path_passable _ _ _ _ Hp) as Hpass.
  split; [done|]. split; [done|].
  destruct path as [|p path]; cbn [length tail] in *; [lia|].
  apply NoDup_cons in Hnd as [_ Hnd]. apply le_n_S.
  rewrite <- (length_fmap (λ e : string * Cell, coord e.2) (cells g)).
  apply submseteq_length, NoDup_submseteq; [done|].
  intros c Hc. eapply Forall_forall in Hpass; [|done].
  apply isPassable_hasCell, hasCell_true in Hpass as [cell Hcell].
  apply list_elem_of_fmap. exists (hash c, cell). cbn [snd].
  split; [symmetry; by eapply grid_wf_getCell | by apply Map_get_Some_elem].
Qed.

Lemma findPath_simple_witness :
  NoDup [mkCoord 0 0 0; mkCoord 1 (-1) 0] ∧
  Forall (λ c, isPassable sample_grid c = true) (tail [mkCoord 0 0 0; mkCoord 1 (-1) 0]) ∧
  (length [mkCoord 0 0 0; mkCoord 1 (-1) 0] ≤ S (length (cells sample_grid)))%nat.
Proof.
  apply (findPath_simple 5 sample_grid (mkCoord 0 0 0) (mkCoord 1 (-1) 0)).
  - apply sample_grid_wf.
  - vm_compute. reflexivity.
Defined.

Lemma opposite_direction d : d ∈ DIRECTIONS → scale d (-1) ∈ DIRECTIONS.
Proof.
  unfold DIRECTIONS. intros Hd.
  repeat (apply elem_of_cons in Hd as [->|Hd];
          [unfold scale; cbn;
           repeat (first [by apply list_elem_of_here | apply list_elem_of_further])|]).
  by apply elem_of_nil in Hd.
Qed.

Lemma hop_reverse g a b : hop g a b → isPassable g a = true → hop g b a.
Proof.
  intros (d & Hd & -> & _)%hop_iff Ha. apply hop_iff.
  exists (scale d (-1)). split; [by apply opposite_direction|]. split; [|done].
  destruct a as [ax ay az], d as [dx dy dz]. unfold add, scale; cbn [x y z].
  f_equal; lia.
Qed.

Lemma hops_reverse g n a b : hops g n a b → isPassable g a = true → hops g n b a.
Proof.
  intros Hn Ha. induction Hn as [a|n a b c Hn IH Hh]; [constructor|].
  eapply hops_cons; [|by apply IH]. apply hop_reverse; [done|].
  destruct (hops_last_passable _ _ _ _ Hn) as [<-|?]; done.
Qed.

(** X28.  Between two passable cells the search is symmetric: with the
    default options, [findPath] from [a] to [b] and from [b] to [a] return
    paths with the same number of cells, or null both. *)
Theorem findPath_symmetric (fuel fuel' : nat) (g : Grid) (a b : Coord)
    (r r' : option (list Coord)) :
  isPassable g a = true → isPassable g b = true →
  findPath fuel g a b noOptions = Some r →
  findPath fuel' g b a noOptions = Some r' →
  getPathLength r = getPathLength r'.
Proof.
  intros Ha Hb Hf Hf'.
  destruct (findPath_total g a b) as (fuel0 & result & Hr & Hrun).
  apply (findPath_mono _ (Nat.max fuel fuel0)) in Hf; [|lia].
  rewrite Hrun in Hf by lia. injection Hf as ->.
  destruct (findPath_total g b a) as (fuel1 & result' & Hr' & Hrun').
  apply (findPath_mono _ (Nat.max fuel' fuel1)) in Hf'; [|lia].
  rewrite Hrun' in Hf' by lia. injection Hf' as ->.
  destruct r as [path|], r' as [path'|]; cbn [shortest_or_none getPathLength] in *.
  - destruct Hr as [Hp [Hn Hmin]], Hr' as [Hp' [Hn' Hmin']].
    apply is_path_nonempty in Hp as [rest ->], Hp' as [rest' ->].
    cbn [length] in *.
    pose proof (Hmin _ (hops_reverse _ _ _ _ Hn' Hb)).
    pose proof (Hmin' _ (hops_reverse _ _ _ _ Hn Ha)). lia.
  - destruct Hr as [_ [Hn _]]. by apply hops_reverse, Hr' in Hn.
  - destruct Hr' as [_ [Hn _]]. by apply hops_reverse, Hr in Hn.
  - done.
Qed.

Lemma findPath_symmetric_witness :
  getPathLength (Some [mkCoord 0 0 0; mkCoord 1 (-1) 0])
    = getPathLength (Some [mkCoord 1 (-1) 0; mkCoord 0 0 0]).
Proof.
  apply (findPath_symmetric 5 5 sample_grid (mkCoord 0 0 0) (mkCoord 1 (-1) 0)
    (Some [mkCoord 0 0 0; mkCoord 1 (-1) 0]) (Some [mkCoord 1 (-1) 0; mkCoord 0 0 0]));
    vm_compute; reflexivity.
Defined.

(** ** The search under any heuristic

    With the default cost of 1 per step the search ends whatever the
    heuristic is: every enqueue lowers the cost of a cell, a whole number
    below the number of cells. *)

Section any_heuristic.
Variable g : Grid.
Variable h : Coord → Coord → Q.
Variables start goal : Coord.

Lemma cost_inv_nat st v q :
  cost_inv g start st → costSoFar st !! hash v = Some q → ∃ n, gcost (costSoFar st) v n.
Proof.
  intros (_ & Hnat & _) Hq. destruct (Hnat _ _ Hq) as (v' & n & _ & Hn).
  exists n, q. done.
Qed.

Lemma cost_inv_size st :
  cost_inv g start st → (base.size (costSoFar st) ≤ length (search_keys g start))%nat.
Proof.
  intros (_ & _ & _ & _ & Hkeys & _).
  rewrite <- (size_dom (D := gset string)).
  rewrite <- (size_list_to_set (C := gset string) (search_keys g start))
    by apply search_keys_nodup.
  apply subseteq_size. intros k Hk%elem_of_dom.
  apply elem_of_list_to_set. by apply Hkeys.
Qed.

(** Looking at the neighbour [x] of [current] changes nothing, or records
    the cost of [current] plus one, which is new or lower. *)
Lemma relax_unit_cases current st x nc :
  cost_inv g start st →
  gcost (costSoFar st) current nc →
  relax h defaultCostFn goal current st x = st ∨
  (∃ q p,
     relax h defaultCostFn goal current st x =
       {| frontier := enqueue (frontier st) x p;
          cameFrom := <[hash x := Some current]> (cameFrom st);
          costSoFar := <[hash x := q]> (costSoFar st) |} ∧
     (q == inject_Z (Z.of_nat (nc + 1)))%Q ∧
     (costSoFar st !! hash x = None ∨
      ∃ nx, gcost (costSoFar st) x nx ∧ (nc + 1 < nx)%nat)).
Proof.
  intros Hinv Hc. pose proof (gcost_cost_of _ _ _ Hc) as Hcost.
  remember (relax h defaultCostFn goal current st x) as r eqn:Hr.
  unfold relax, defaultCostFn in Hr.
  set (newCost := (cost_of (costSoFar st) (hash current) + 1)%Q) in Hr.
  assert (newCost == inject_Z (Z.of_nat (nc + 1)))%Q as Hnew.
  { unfold newCost. rewrite Hcost, inject_nat_succ. reflexivity. }
  destruct (costSoFar st !! hash x) as [qx|] eqn:Hx.
  - destruct (cost_inv_nat st x qx Hinv Hx) as [nx Hgx].
    assert (qx == inject_Z (Z.of_nat nx))%Q as Hqx.
    { destruct Hgx as (q' & Hq' & Hn'). by simplify_eq. }
    rewrite bool_decide_eq_true_2 in Hr by (by eexists). cbn [negb orb] in Hr.
    unfold cost_of in Hr. rewrite Hx in Hr. cbn [default from_option id] in Hr.
    destruct (Qltb newCost qx) eqn:Hlt.
    + right. exists newCost, (newCost + h x goal)%Q.
      split; [done|]. split; [done|].
      right. exists nx. split; [done|].
      apply Qltb_spec in Hlt. rewrite Hnew, Hqx in Hlt. by apply inject_nat_lt.
    + by left.
  - rewrite bool_decide_eq_false_2 in Hr by (by intros [? ?]). cbn [negb orb] in Hr.
    right. exists newCost, (newCost + h x goal)%Q.
    split; [done|]. split; [done | by left].
Qed.

Lemma relax_unit current st x nc :
  cost_inv g start st →
  gcost (costSoFar st) current nc →
  hop g current x →
  cost_inv g start (relax h defaultCostFn goal current st x) ∧
  gcost (costSoFar (relax h defaultCostFn goal current st x)) current nc ∧
  (rounds_left g start (relax h defaultCostFn goal current st x)
   ≤ rounds_left g start st)%nat.
Proof.
  intros Hinv Hc Hhop.
  assert (current ≠ x) as Hcx by (by eapply hop_ne).
  destruct (relax_unit_cases current st x nc Hinv Hc)
    as [->|(q & p & -> & Hq & Hwas)]; [done|].
  pose proof (cost_inv_size st Hinv) as Hsize.
  destruct Hinv as (H1 & H2 & H3 & H4 & H5 & H6).
  assert (x ≠ start) as Hxs.
  { intros ->. destruct Hwas as [Hnone|(nx & Hnx & Hlt)].
    - rewrite H1 in Hnone. done.
    - assert (gcost (costSoFar st) start 0) as H0 by (exists 0%Q; by split).
      pose proof (gcost_fun _ _ _ _ Hnx H0). lia. }
  assert (gcost (<[hash x := q]> (costSoFar st)) x (nc + 1)) as Hgx
    by (by apply gcost_insert_eq).
  assert (∀ v n, gcost (costSoFar st) v n →
    ∃ n', gcost (<[hash x := q]> (costSoFar st)) v n' ∧ (n' ≤ n)%nat) as Hmono.
  { intros v n Hv. destruct (decide (v = x)) as [->|Hne].
    - exists (nc + 1)%nat. split; [done|].
      destruct Hwas as [Hnone|(nx & Hnx & Hlt)].
      + destruct Hv as (? & Hv & _). congruence.
      + rewrite (gcost_fun _ _ _ _ Hv Hnx). lia.
    - exists n. split; [by apply gcost_insert_ne | done]. }
  split; [|split].
  - split; [|split; [|split; [|split; [|split]]]]; cbn [frontier cameFrom costSoFar].
    + rewrite lookup_insert_ne; [done|]. intros H%hash_inj. done.
    + intros k q' Hk. destruct (decide (k = hash x)) as [->|Hne].
      * rewrite lookup_insert_eq in Hk. injection Hk as <-. by exists x, (nc + 1)%nat.
      * rewrite lookup_insert_ne in Hk by done. by apply H2.
    + intros v n Hvs Hv. destruct (decide (v = x)) as [->|Hne].
      * rewrite (gcost_fun _ _ _ _ Hv Hgx). exists current, nc.
        rewrite lookup_insert_eq. split; [done|].
        split; [by apply gcost_insert_ne | done].
      * apply gcost_insert_ne in Hv; [|done].
        destruct (H3 v n Hvs Hv) as (u & m & Hcf & Hu & Hm).
        destruct (Hmono u m Hu) as (m' & Hu' & Hm').
        exists u, m'. rewrite lookup_insert_ne by (intros H%hash_inj; done).
        split; [done|]. split; [done | lia].
    + intros e [He| ->]%elem_of_enqueue.
      * destruct (H4 e He) as (n & Hn). destruct (Hmono _ _ Hn) as (n' & Hn' & _).
        by exists n'.
      * cbn [item]. by exists (nc + 1)%nat.
    + intros k Hk. destruct (decide (k = hash x)) as [->|Hne].
      * by eapply search_keys_hop.
      * rewrite lookup_insert_ne in Hk by done. by apply H5.
    + intros v n Hv. destruct Hwas as [Hnone|(nx & Hnx & Hlt)].
      * rewrite map_size_insert_None by done.
        destruct (decide (v = x)) as [->|Hne].
        -- rewrite (gcost_fun _ _ _ _ Hv Hgx). specialize (H6 _ _ Hc). lia.
        -- apply gcost_insert_ne in Hv; [|done]. specialize (H6 _ _ Hv). lia.
      * rewrite map_size_insert_Some by (exact (gcost_is_Some _ _ _ Hnx)).
        destruct (decide (v = x)) as [->|Hne].
        -- rewrite (gcost_fun _ _ _ _ Hv Hgx). specialize (H6 _ _ Hnx). lia.
        -- apply gcost_insert_ne in Hv; [|done]. by apply (H6 v).
  - cbn [costSoFar]. by apply gcost_insert_ne.
  - unfold rounds_left. cbn [frontier costSoFar]. rewrite length_enqueue.
    pose proof (H6 _ _ Hc) as Hbound.
    assert (sum_list (potential (S (length (search_keys g start)))
              (<[hash x := q]> (costSoFar st)) <$> search_keys g start) + 1
            ≤ sum_list (potential (S (length (search_keys g start)))
              (costSoFar st) <$> search_keys g start))%nat; [|lia].
    apply sum_potential_insert.
    + apply search_keys_nodup.
    + by eapply search_keys_hop.
    + rewrite (potential_insert_eq _ _ _ _ _ Hq).
      destruct Hwas as [Hnone|(nx & Hnx & Hlt)].
      * unfold potential. rewrite Hnone. lia.
      * rewrite (potential_gcost _ _ _ _ Hnx). lia.
Qed.

Lemma relax_unit_all current xs st nc :
  cost_inv g start st →
  gcost (costSoFar st) current nc →
  (∀ x, x ∈ xs → hop g current x) →
  cost_inv g start (foldl (relax h defaultCostFn goal current) st xs) ∧
  (rounds_left g start (foldl (relax h defaultCostFn goal current) st xs)
   ≤ rounds_left g start st)%nat.
Proof.
  revert st. induction xs as [|x xs IH]; intros st Hinv Hc Hxs; cbn [foldl]; [done|].
  destruct (relax_unit current st x nc Hinv Hc) as (Hinv' & Hc' & Hle).
  { apply Hxs. by left. }
  destruct (IH _ Hinv' Hc') as [Hinv'' Hle'].
  { intros x' Hx'. apply Hxs. by right. }
  split; [done | lia].
Qed.

(** The walk back to the start ends: the costs decrease along it. *)
Lemma reconstruct_loop_ends st :
  cost_inv g start st →
  ∀ n c, gcost (costSoFar st) c n →
    ∃ p, ∀ fuel acc, (n < fuel)%nat →
      reconstruct_loop fuel (cameFrom st) (hash start) (Some c) acc = Some (p ++ acc).
Proof.
  intros Hinv n. induction n as [n IH] using lt_wf_ind. intros c Hc.
  destruct (decide (c = start)) as [->|Hne].
  - exists [start]. intros [|fuel] acc Hlt; [lia|]. cbn [reconstruct_loop].
    by rewrite decide_True.
  - destruct Hinv as (_ & _ & H3 & _).
    destruct (H3 c n Hne Hc) as (u & m & Hcf & Hu & Hm).
    destruct (IH m ltac:(lia) u Hu) as (p & Hrun).
    exists (p ++ [c]). intros [|fuel] acc Hlt; [lia|]. cbn [reconstruct_loop].
    rewrite decide_False by (intros H%hash_inj; done).
    rewrite Hcf. cbn [mjoin option_join]. rewrite Hrun by lia.
    by rewrite <- app_assoc.
Qed.

Lemma rounds_left_cost st v n :
  cost_inv g start st →
  gcost (costSoFar st) v n →
  (length (frontier st) + n ≤ rounds_left g start st)%nat.
Proof.
  intros Hinv Hv. unfold rounds_left.
  pose proof (sum_potential_ge (S (length (search_keys g start))) (costSoFar st)
    (search_keys g start) (hash v)) as H.
  rewrite (potential_gcost _ _ _ _ Hv) in H.
  assert (hash v ∈ search_keys g start) as Hin.
  { destruct Hinv as (_ & _ & _ & _ & H5 & _). apply H5. by eapply gcost_is_Some. }
  specialize (H Hin). lia.
Qed.

Lemma search_loop_ends bound :
  ∀ st, cost_inv g start st →
    (rounds_left g start st ≤ bound)%nat →
    ∃ r, ∀ fuel, (bound < fuel)%nat →
      search_loop fuel g h defaultCostFn start goal st = Some r.
Proof.
  induction bound as [bound IH] using lt_wf_ind. intros st Hinv Hbound.
  destruct (frontier st) as [|e rest] eqn:HF.
  - exists None. intros [|fuel] Hlt; [lia|]. cbn [search_loop]. by rewrite HF.
  - assert (∃ n, gcost (costSoFar st) (item e) n) as [n Hn].
    { destruct Hinv as (_ & _ & _ & H4 & _). apply H4. rewrite HF. by left. }
    destruct (decide (hash (item e) = hash goal)) as [Heq|Hne].
    + pose proof Heq as Hg. apply hash_inj in Hg.
      destruct (reconstruct_loop_ends st Hinv n goal) as (p & Hrun);
        [by rewrite <- Hg|].
      exists (Some p). intros [|fuel] Hlt; [lia|]. cbn [search_loop].
      rewrite HF. cbn [dequeue]. rewrite decide_True by done. unfold reconstructPath.
      pose proof (rounds_left_cost _ _ _ Hinv Hn) as Hge.
      rewrite HF in Hge. cbn [length] in Hge.
      rewrite Hrun by lia. by rewrite app_nil_r.
    + set (st1 := {| frontier := rest; cameFrom := cameFrom st;
                     costSoFar := costSoFar st |}).
      assert (cost_inv g start st1) as Hinv1.
      { destruct Hinv as (H1 & H2 & H3 & H4 & H5 & H6).
        split; [done|]. split; [done|]. split; [done|]. split; [|done].
        intros e' He'. apply H4. rewrite HF. by right. }
      destruct (relax_unit_all (item e) (getNeighbors g (item e) true) st1 n Hinv1 Hn)
        as [Hinv2 Hle]; [by intros x Hx|].
      assert (rounds_left g start st1 + 1 = rounds_left g start st)%nat as Hst1.
      { unfold rounds_left. cbn [frontier costSoFar st1]. rewrite HF. cbn [length]. lia. }
      destruct (IH (bound - 1)%nat ltac:(lia) _ Hinv2 ltac:(lia)) as (r & Hrun).
      exists r. intros [|fuel] Hlt; [lia|]. cbn [search_loop]. rewrite HF. cbn [dequeue].
      rewrite decide_False by done. apply Hrun. lia.
Qed.

Lemma cost_inv_init :
  cost_inv g start
    {| frontier := enqueue [] start 0;
       cameFrom := <[hash start := None]> ∅;
       costSoFar := <[hash start := 0%Q]> ∅ |}.
Proof.
  assert (∀ v n, gcost (<[hash start := 0%Q]> ∅) v n → v = start ∧ n = 0%nat) as Honly.
  { intros v n (q & Hq & Hn). apply lookup_insert_Some in Hq as [[Hv <-]|[_ Hq]].
    - apply hash_inj in Hv. split; [done|]. by apply inject_nat_inj.
    - by rewrite lookup_empty in Hq. }
  split; [|split; [|split; [|split; [|split]]]]; cbn [frontier cameFrom costSoFar].
  - by rewrite lookup_insert_eq.
  - intros k q [[<- <-]|[_ Hq]]%lookup_insert_Some.
    + by exists start, 0%nat.
    + by rewrite lookup_empty in Hq.
  - intros v n Hv Hg. by destruct (Honly v n Hg).
  - intros e He. apply elem_of_enqueue in He as [He| ->]; [by apply elem_of_nil in He|].
    exists 0%nat, 0%Q. by rewrite lookup_insert_eq.
  - intros k [q [[<- <-]|[_ Hq]]%lookup_insert_Some].
    + apply search_keys_start.
    + by rewrite lookup_empty in Hq.
  - intros v n Hg. destruct (Honly v n Hg) as [-> ->].
    rewrite map_size_insert_None by apply lookup_empty. lia.
Qed.

End any_heuristic.

(** X29.  With the default cost of 1 per step, [findPath] returns under
    every heuristic: with enough fuel the loop ends, more fuel gives the
    same result, and the result is a path of passable hops from the start
    to the goal, or null when there is none.  (The path need not be a
    shortest one when the heuristic overestimates.) *)
Theorem findPath_any_heuristic (g : Grid) (start goal : Coord)
    (h : option (Coord → Coord → Q)) :
  ∃ fuel0 result,
    (∀ fuel, (fuel0 ≤ fuel)%nat →
       findPath fuel g start goal {| heuristic := h; costFn := None |} = Some result) ∧
    (∀ fuel r, findPath fuel g start goal {| heuristic := h; costFn := None |} = Some r →
       r = result) ∧
    match result with
    | Some path => is_path g start goal path
    | None => ∀ n, ¬ hops g n start goal
    end.
Proof.
  assert (∃ fuel0 result, ∀ fuel, (fuel0 ≤ fuel)%nat →
     findPath fuel g start goal {| heuristic := h; costFn := None |} = Some result)
    as (fuel0 & result & Hrun).
  { unfold findPath. cbn [heuristic costFn default from_option id].
    destruct (equals start goal); [by exists 0%nat, (Some [start])|].
    destruct (search_loop_ends g (default defaultHeuristic h) start goal _ _
      (cost_inv_init g start) (Nat.le_refl _)) as (r & Hr).
    eexists (S _), r. intros fuel Hfuel. apply Hr. exact Hfuel. }
  exists fuel0, result. split; [done|]. split.
  - intros fuel r Hfuel.
    apply (findPath_mono _ (Nat.max fuel fuel0)) in Hfuel; [|lia].
    rewrite Hrun in Hfuel by lia. by injection Hfuel.
  - apply (findPath_path_or_none fuel0 g start goal {| heuristic := h; costFn := None |}).
    by apply Hrun.
Qed.
